(** * zeabur-monitor: Redis client, cache and session store

    A shallow embedding of the three modules of the repository

      - [redis-client.js]  (connection manager, availability oracle),
      - [cache.js]         (key-value cache with TTL and in-memory fallback),
      - [session-store.js] (session tokens on the same two backends),

    and the properties of their specification, stated over that embedding. *)

From Stdlib Require Import ZArith String Ascii List Lia Bool.
From stdpp Require Import base option gmap strings list.

Local Open Scope string_scope.
Local Open Scope Z_scope.

(** ** JavaScript string helpers *)

(** [p] is a prefix of [s]. *)
Fixpoint is_prefix (p s : string) : bool :=
  match p, s with
  | EmptyString, _ => true
  | String a p', String b s' => Ascii.eqb a b && is_prefix p' s'
  | String _ _, EmptyString => false
  end.

(** [String.prototype.startsWith]. *)
Definition startsWith (s p : string) : bool := is_prefix p s.

(** [String.prototype.includes]: [needle] occurs somewhere in [s]. *)
Fixpoint includes (s needle : string) : bool :=
  is_prefix needle s ||
  match s with
  | EmptyString => false
  | String _ s' => includes s' needle
  end.

(** Truthiness of a JavaScript string: only the empty string is falsy. *)
Definition truthy_str (s : string) : bool :=
  match s with EmptyString => false | _ => true end.

(** Truthiness of an environment variable ([undefined] or a string). *)
Definition truthy_env (o : option string) : bool :=
  match o with Some s => truthy_str s | None => false end.

(** ** JSON values

    The values the cache stores are whatever [JSON.stringify] accepts.  They
    are modelled as JSON documents whose numbers are integers (timestamps and
    counters; IEEE doubles are outside the model) and whose strings are
    sequences of 8-bit code units.  An object is the list of its properties
    in insertion order. *)

#[local] Set Warnings "-register-all".

Inductive json : Type :=
| JNull
| JBool (b : bool)
| JNum (n : Z)
| JStr (s : string)
| JArr (l : list json)
| JObj (l : list (string * json)).

(** [!v]: the falsy JSON values are [null], [false], [0] and the empty string. *)
Definition falsy (v : json) : bool :=
  match v with
  | JNull | JBool false | JNum 0 | JStr EmptyString => true
  | _ => false
  end.

(** Property read [v.name]; [None] is [undefined].  When a parsed document
    repeats a key the last occurrence wins, as in [JSON.parse]. *)
Fixpoint assoc_last (name : string) (l : list (string * json)) : option json :=
  match l with
  | [] => None
  | (k, x) :: l' =>
      match assoc_last name l' with
      | Some y => Some y
      | None => if String.eqb k name then Some x else None
      end
  end.

Definition get_field (name : string) (v : json) : option json :=
  match v with
  | JObj l => assoc_last name l
  | _ => None
  end.

(** *** Serialisation: [JSON.stringify] *)

Definition hex_digit (n : N) : ascii :=
  ascii_of_N (if (n <? 10)%N then 48 + n else 87 + n)%N.

Definition digit_char (d : Z) : ascii := ascii_of_N (48 + Z.to_N d).

(** Decimal digits of [n >= 0], most significant first, put in front of [acc]. *)
Fixpoint dec_digits (fuel : nat) (n : Z) (acc : string) : string :=
  match fuel with
  | O => acc
  | S f =>
      if n <? 10 then String (digit_char n) acc
      else dec_digits f (n / 10) (String (digit_char (n mod 10)) acc)
  end.

Definition string_of_Z (n : Z) : string :=
  if n <? 0 then String "-" (dec_digits (S (Z.to_nat (Z.log2 (- n)))) (- n) "")
  else dec_digits (S (Z.to_nat (Z.log2 n))) n "".

Definition dquote : ascii := "034"%char.
Definition backslash : ascii := "092"%char.

Definition esc (c : ascii) : string := String backslash (String c "").

(** The escape sequence [JSON.stringify] writes for one code unit. *)
Definition escape_char (c : ascii) : string :=
  let n := N_of_ascii c in
  if (n =? 34)%N then esc dquote
  else if (n =? 92)%N then esc backslash
  else if (n =? 8)%N then esc "b"
  else if (n =? 9)%N then esc "t"
  else if (n =? 10)%N then esc "n"
  else if (n =? 12)%N then esc "f"
  else if (n =? 13)%N then esc "r"
  else if (n <? 32)%N then
    String backslash (String "u" (String "0" (String "0"
      (String (hex_digit (n / 16)) (String (hex_digit (n mod 16)) "")))))
  else String c "".

Fixpoint escape_string (s : string) : string :=
  match s with
  | EmptyString => ""
  | String c s' => escape_char c ++ escape_string s'
  end.

Definition quote (s : string) : string :=
  String dquote (escape_string s ++ String dquote "").

Fixpoint JSON_stringify (v : json) : string :=
  match v with
  | JNull => "null"
  | JBool true => "true"
  | JBool false => "false"
  | JNum n => string_of_Z n
  | JStr s => quote s
  | JArr l => "[" ++ String.concat "," (map JSON_stringify l) ++ "]"
  | JObj l =>
      "{" ++
      String.concat ","
        (map (fun kv => quote kv.1 ++ ":" ++ JSON_stringify kv.2) l) ++
      "}"
  end.

(** ** Outcomes of a JavaScript computation

    [Throw] is a thrown exception, which a [try]/[catch] intercepts.
    [Unmodelled] says that the run left the fragment of JavaScript this
    development covers (a regular-expression operator, a numeric coercion of
    a string, a fractional number); nothing is claimed about such runs and no
    handler intercepts it. *)

Inductive error : Type :=
| RedisError                   (* a command of the remote store failed or was rejected *)
| SyntaxError                  (* [JSON.parse] on a malformed text *)
| OtherError (message : string). (* any other exception, e.g. of a producer *)

Inductive result (A : Type) : Type :=
| Ok (a : A)
| Throw (e : error)
| Unmodelled.

Arguments Ok {A} a.
Arguments Throw {A} e.
Arguments Unmodelled {A}.

(** *** Deserialisation: [JSON.parse] *)

(** Result of reading a prefix of a text: the value and the unread rest. *)
Inductive parsed (A : Type) : Type :=
| Parsed (a : A) (rest : string)
| Malformed
| Unsupported.

Arguments Parsed {A} a rest.
Arguments Malformed {A}.
Arguments Unsupported {A}.

Definition is_ws (c : ascii) : bool :=
  let n := N_of_ascii c in
  ((n =? 32) || (n =? 9) || (n =? 10) || (n =? 13))%N.

Fixpoint skip_ws (s : string) : string :=
  match s with
  | String c s' => if is_ws c then skip_ws s' else s
  | EmptyString => s
  end.

Definition digit_val (c : ascii) : option Z :=
  let n := N_of_ascii c in
  if ((48 <=? n) && (n <=? 57))%N then Some (Z.of_N (n - 48)) else None.

Definition hex_val (c : ascii) : option N :=
  let n := N_of_ascii c in
  if ((48 <=? n) && (n <=? 57))%N then Some (n - 48)%N
  else if ((97 <=? n) && (n <=? 102))%N then Some (n - 87)%N
  else if ((65 <=? n) && (n <=? 70))%N then Some (n - 55)%N
  else None.

Fixpoint read_digits (s : string) (acc : Z) : Z * string :=
  match s with
  | String c s' =>
      match digit_val c with
      | Some d => read_digits s' (acc * 10 + d)
      | None => (acc, s)
      end
  | EmptyString => (acc, s)
  end.

(** What may follow the integer part.  A fraction or an exponent leaves the
    integer fragment; a further digit after a leading zero is malformed. *)
Definition after_int (n : Z) (r : string) : parsed Z :=
  match r with
  | String c _ =>
      if (Ascii.eqb c "." || Ascii.eqb c "e" || Ascii.eqb c "E")%bool
      then Unsupported
      else match digit_val c with
           | Some _ => Malformed
           | None => Parsed n r
           end
  | EmptyString => Parsed n r
  end.

Definition parse_nat (s : string) : parsed Z :=
  match s with
  | String c s' =>
      match digit_val c with
      | Some 0 => after_int 0 s'
      | Some _ => let '(n, r) := read_digits s 0 in after_int n r
      | None => Malformed
      end
  | EmptyString => Malformed
  end.

Definition parse_number (s : string) : parsed Z :=
  match s with
  | String c s' =>
      if Ascii.eqb c "-" then
        match parse_nat s' with
        | Parsed n r => Parsed (- n) r
        | Malformed => Malformed
        | Unsupported => Unsupported
        end
      else parse_nat s
  | EmptyString => Malformed
  end.

(** The character a one-letter escape denotes. *)
Definition unescape (e : ascii) : option ascii :=
  if Ascii.eqb e dquote then Some dquote
  else if Ascii.eqb e backslash then Some backslash
  else if Ascii.eqb e "/" then Some "/"%char
  else if Ascii.eqb e "b" then Some "008"%char
  else if Ascii.eqb e "t" then Some "009"%char
  else if Ascii.eqb e "n" then Some "010"%char
  else if Ascii.eqb e "f" then Some "012"%char
  else if Ascii.eqb e "r" then Some "013"%char
  else None.

Definition hex4 (a b c d : ascii) : option N :=
  match hex_val a, hex_val b, hex_val c, hex_val d with
  | Some x, Some y, Some z, Some t => Some (((x * 16 + y) * 16 + z) * 16 + t)%N
  | _, _, _, _ => None
  end.

Definition cons_char (c : ascii) (r : parsed string) : parsed string :=
  match r with
  | Parsed t rest => Parsed (String c t) rest
  | Malformed => Malformed
  | Unsupported => Unsupported
  end.

(** The characters of a string literal, after its opening quote. *)
Fixpoint parse_chars (s : string) : parsed string :=
  match s with
  | EmptyString => Malformed
  | String c s' =>
      if Ascii.eqb c dquote then Parsed "" s'
      else if Ascii.eqb c backslash then
        match s' with
        | String e s'' =>
            if Ascii.eqb e "u" then
              match s'' with
              | String h1 (String h2 (String h3 (String h4 r))) =>
                  match hex4 h1 h2 h3 h4 with
                  | Some n =>
                      if (n <? 256)%N then cons_char (ascii_of_N n) (parse_chars r)
                      else Unsupported
                  | None => Malformed
                  end
              | _ => Malformed
              end
            else
              match unescape e with
              | Some c' => cons_char c' (parse_chars s'')
              | None => Malformed
              end
        | EmptyString => Malformed
        end
      else if (N_of_ascii c <? 32)%N then Malformed
      else cons_char c (parse_chars s')
  end.

(** The rest of [s] after the prefix [p], if [p] is a prefix of [s]. *)
Fixpoint strip_prefix (p s : string) : option string :=
  match p with
  | EmptyString => Some s
  | String a p' =>
      match s with
      | String b s' => if Ascii.eqb a b then strip_prefix p' s' else None
      | EmptyString => None
      end
  end.

Definition expect (word : string) (v : json) (s : string) : parsed json :=
  match strip_prefix word s with
  | Some r => Parsed v r
  | None => Malformed
  end.

Definition pmap {A B} (f : A -> B) (r : parsed A) : parsed B :=
  match r with
  | Parsed a rest => Parsed (f a) rest
  | Malformed => Malformed
  | Unsupported => Unsupported
  end.

(** Recursive descent; [fuel] bounds the nesting and the number of elements
    still to read, and running out of it leaves the model. *)
Fixpoint parse_value (fuel : nat) (s : string) : parsed json :=
  match fuel with
  | O => Unsupported
  | S f =>
      match skip_ws s with
      | EmptyString => Malformed
      | String c s' =>
          if Ascii.eqb c "n" then expect "ull" JNull s'
          else if Ascii.eqb c "t" then expect "rue" (JBool true) s'
          else if Ascii.eqb c "f" then expect "alse" (JBool false) s'
          else if Ascii.eqb c dquote then pmap JStr (parse_chars s')
          else if Ascii.eqb c "[" then
            match skip_ws s' with
            | EmptyString => Malformed
            | String d r =>
                if Ascii.eqb d "]" then Parsed (JArr []) r
                else pmap JArr (parse_elems f s')
            end
          else if Ascii.eqb c "{" then
            match skip_ws s' with
            | EmptyString => Malformed
            | String d r =>
                if Ascii.eqb d "}" then Parsed (JObj []) r
                else pmap JObj (parse_members f s')
            end
          else pmap JNum (parse_number (String c s'))
      end
  end
with parse_elems (fuel : nat) (s : string) : parsed (list json) :=
  match fuel with
  | O => Unsupported
  | S f =>
      match parse_value f s with
      | Parsed v r =>
          match skip_ws r with
          | EmptyString => Malformed
          | String d r' =>
              if Ascii.eqb d "," then pmap (cons v) (parse_elems f r')
              else if Ascii.eqb d "]" then Parsed [v] r'
              else Malformed
          end
      | Malformed => Malformed
      | Unsupported => Unsupported
      end
  end
with parse_members (fuel : nat) (s : string) : parsed (list (string * json)) :=
  match fuel with
  | O => Unsupported
  | S f =>
      match skip_ws s with
      | EmptyString => Malformed
      | String q s1 =>
          if Ascii.eqb q dquote then
            match parse_chars s1 with
            | Parsed k r =>
                match skip_ws r with
                | EmptyString => Malformed
                | String d r1 =>
                    if Ascii.eqb d ":" then
                      match parse_value f r1 with
                      | Parsed v r2 =>
                          match skip_ws r2 with
                          | EmptyString => Malformed
                          | String d' r3 =>
                              if Ascii.eqb d' "," then
                                pmap (cons (k, v)) (parse_members f r3)
                              else if Ascii.eqb d' "}" then Parsed [(k, v)] r3
                              else Malformed
                          end
                      | Malformed => Malformed
                      | Unsupported => Unsupported
                      end
                    else Malformed
                end
            | Malformed => Malformed
            | Unsupported => Unsupported
            end
          else Malformed
      end
  end.

(** [JSON.parse]: [Throw SyntaxError] on a malformed text. *)
Definition JSON_parse (s : string) : result json :=
  match parse_value (2 * String.length s + 2) s with
  | Parsed v r =>
      match skip_ws r with
      | EmptyString => Ok v
      | String _ _ => Throw SyntaxError
      end
  | Malformed => Throw SyntaxError
  | Unsupported => Unmodelled
  end.

(** ** Patterns

    [glob_match p s]: the key [s] matches the glob [p], whose only wildcard
    is the asterisk (any run of characters); every other character stands
    for itself. *)
Fixpoint glob_match (p s : string) : bool :=
  match p with
  | EmptyString => match s with EmptyString => true | _ => false end
  | String c p' =>
      if Ascii.eqb c "*" then
        (fix star (s : string) : bool :=
           glob_match p' s ||
           match s with
           | EmptyString => false
           | String _ s' => star s'
           end) s
      else
        match s with
        | EmptyString => false
        | String d s' => Ascii.eqb c d && glob_match p' s'
        end
  end.

(** [s.replace(/\*/g, '.*')]. *)
Fixpoint replace_stars (s : string) : string :=
  match s with
  | EmptyString => ""
  | String c s' =>
      if Ascii.eqb c "*" then String "." (String "*" (replace_stars s'))
      else String c (replace_stars s')
  end.

(** The regular expressions covered: a sequence of single-character atoms,
    each optionally under a star, anchored at both ends. *)
Inductive atom : Type := AnyChar | Lit (c : ascii).
Inductive item : Type := One (a : atom) | Star (a : atom).

(** Characters with a meaning of their own in a JavaScript pattern, the dot
    and the star apart. *)
Definition is_meta (c : ascii) : bool :=
  existsb (Ascii.eqb c)
    [backslash; "^"; "$"; "+"; "?"; "("; ")"; "["; "]"; "{"; "}"; "|"]%char.

Fixpoint parse_items (s : string) : option (list item) :=
  match s with
  | EmptyString => None
  | String c s' =>
      if Ascii.eqb c "$" then
        match s' with EmptyString => Some [] | _ => None end
      else if (is_meta c || Ascii.eqb c "*")%bool then None
      else
        let a := if Ascii.eqb c "." then AnyChar else Lit c in
        match s' with
        | String d s'' =>
            if Ascii.eqb d "*" then option_map (cons (Star a)) (parse_items s'')
            else option_map (cons (One a)) (parse_items s')
        | EmptyString => None
        end
  end.

(** [new RegExp(src)] for a source of the shape [^...$]; [None] when the
    source uses an operator outside the fragment. *)
Definition RegExp (src : string) : option (list item) :=
  match src with
  | String c body => if Ascii.eqb c "^" then parse_items body else None
  | EmptyString => None
  end.

(** The dot matches any character except a line terminator. *)
Definition atom_matches (a : atom) (c : ascii) : bool :=
  match a with
  | AnyChar => negb (Ascii.eqb c "010" || Ascii.eqb c "013")
  | Lit d => Ascii.eqb d c
  end.

(** [regex.test(s)] for an anchored regular expression. *)
Fixpoint regex_test (r : list item) (s : string) : bool :=
  match r with
  | [] => match s with EmptyString => true | _ => false end
  | One a :: r' =>
      match s with
      | EmptyString => false
      | String c s' => atom_matches a c && regex_test r' s'
      end
  | Star a :: r' =>
      (fix star (s : string) : bool :=
         regex_test r' s ||
         match s with
         | EmptyString => false
         | String c s' => atom_matches a c && star s'
         end) s
  end.

(** ** redis-client.js *)

Module RedisClient.

(** [process.env], restricted to the variables the module reads. *)
Record Env := mkEnv {
  REDIS_URL : option string;
  REDIS_TLS : option string;
  REDIS_TLS_CA : option string;
  REDIS_TLS_REJECT_UNAUTHORIZED : option string;
  REDIS_CONNECT_TIMEOUT : option string;
  REDIS_COMMAND_TIMEOUT : option string
}.

(** The object [parseTlsConfig] returns; [ca] is the content of the CA file
    when one was read. *)
Record TlsConfig := mkTls {
  ca : option string;
  rejectUnauthorized : bool
}.

Definition env_is (o : option string) (s : string) : bool :=
  match o with Some v => String.eqb v s | None => false end.

(** [parseTlsConfig].  [readFileSync path] is [None] when reading throws.
    The result [None] is the JavaScript [false] (no TLS). *)
Definition parseTlsConfig (env : Env) (readFileSync : string -> option string)
  : option TlsConfig :=
  let redisUrl := default "" (REDIS_URL env) in
  let redisTls := REDIS_TLS env in
  if startsWith redisUrl "rediss://" then
    Some {| ca := None; rejectUnauthorized := false |}
  else if env_is redisTls "true" || env_is redisTls "1" then
    Some {| ca := None; rejectUnauthorized := false |}
  else if truthy_env (REDIS_TLS_CA env) then
    match readFileSync (default "" (REDIS_TLS_CA env)) with
    | Some bytes =>
        Some {| ca := Some bytes;
                rejectUnauthorized :=
                  negb (env_is (REDIS_TLS_REJECT_UNAUTHORIZED env) "false") |}
    | None => Some {| ca := None; rejectUnauthorized := false |}
    end
  else None.

(** [retryStrategy] of [buildRedisOptions]; [None] is the JavaScript [null]
    (stop retrying). *)
Definition retryStrategy (times : Z) : option Z :=
  if 10 <? times then None
  else Some (Z.min (times * 200) 5000).

Definition targetErrors : list string := ["READONLY"; "ECONNRESET"; "ETIMEDOUT"].

(** [reconnectOnError], applied to [err.message]. *)
Definition reconnectOnError (message : string) : bool :=
  existsb (fun e => includes message e) targetErrors.

(** The options object of [buildRedisOptions] (the two timeouts are copied
    from the environment and play no role below). *)
Record Options := mkOptions {
  maxRetriesPerRequest : Z;
  enableReadyCheck : bool;
  lazyConnect : bool;
  tls : option TlsConfig
}.

Definition buildRedisOptions (env : Env) (readFileSync : string -> option string)
  : Options :=
  {| maxRetriesPerRequest := 3;
     enableReadyCheck := true;
     lazyConnect := false;
     tls := parseTlsConfig env readFileSync |}.

(** The URL handed to the client: a [rediss://] URL is rewritten to
    [redis://] when the options carry a TLS configuration. *)
Definition connectionUrl (redisUrl : string) (options : Options) : string :=
  match strip_prefix "rediss://" redisUrl, tls options with
  | Some rest, Some _ => "redis://" ++ rest
  | _, _ => redisUrl
  end.

(** *** Module state and the connection attempt

    A promise of a boolean.  [initRedisClient] is an [async] function: a call
    runs up to its first [await] and hands back a promise; the rest of the
    body runs when the awaited [ping] settles. *)
Inductive promise : Type :=
| Pending
| Fulfilled (b : bool)
| Rejected (e : error).

(** The three module-level variables, the promises created so far (a promise
    is named by its index) and a count of the [new Redis(...)] calls made. *)
Record state := mkState {
  redisClient : option nat;
  isRedisConnected : bool;
  connectionPromise : option nat;
  promises : list promise;
  attempts : nat
}.

Definition initial : state :=
  {| redisClient := None; isRedisConnected := false;
     connectionPromise := None; promises := []; attempts := 0 |}.

Definition set_redisClient (c : option nat) (st : state) : state :=
  {| redisClient := c; isRedisConnected := isRedisConnected st;
     connectionPromise := connectionPromise st; promises := promises st;
     attempts := attempts st |}.

Definition set_isRedisConnected (b : bool) (st : state) : state :=
  {| redisClient := redisClient st; isRedisConnected := b;
     connectionPromise := connectionPromise st; promises := promises st;
     attempts := attempts st |}.

Definition set_connectionPromise (p : option nat) (st : state) : state :=
  {| redisClient := redisClient st; isRedisConnected := isRedisConnected st;
     connectionPromise := p; promises := promises st;
     attempts := attempts st |}.

Definition set_promises (ps : list promise) (st : state) : state :=
  {| redisClient := redisClient st; isRedisConnected := isRedisConnected st;
     connectionPromise := connectionPromise st; promises := ps;
     attempts := attempts st |}.

Definition count_attempt (st : state) : state :=
  {| redisClient := redisClient st; isRedisConnected := isRedisConnected st;
     connectionPromise := connectionPromise st; promises := promises st;
     attempts := S (attempts st) |}.

(** [getRedisClient] and [isRedisAvailable]. *)
Definition getRedisClient (st : state) : option nat := redisClient st.

Definition isRedisAvailable (st : state) : bool :=
  isRedisConnected st && bool_decide (redisClient st <> None).

(** The [try] block up to [await redisClient.ping()].  [config_ok] says that
    [require('ioredis')] and [buildRedisOptions()] return, [open_ok] that
    [new Redis(...)] and the [on] registrations return; otherwise they
    throw.  The new client is named by the number of the attempt. *)
Definition attempt_begin (config_ok open_ok : bool) (st : state)
  : result unit * state :=
  if negb config_ok then (Throw (OtherError "configuration"), st)
  else if negb open_ok then (Throw (OtherError "connection"), count_attempt st)
  else (Ok tt, set_redisClient (Some (attempts st)) (count_attempt st)).

(** The [try] block after the [await]: the probe answered or failed. *)
Definition attempt_resume (ping_ok : bool) (st : state) : result bool * state :=
  if ping_ok then (Ok true, set_isRedisConnected true st)
  else (Throw RedisError, st).

(** The [catch] clause. *)
Definition on_catch (st : state) : result bool * state :=
  (Ok false, set_isRedisConnected false (set_redisClient None st)).

(** The [finally] clause. *)
Definition on_finally (st : state) : state := set_connectionPromise None st.

(** [catch] and [finally] applied to the outcome of the [try] block: the
    value the async function settles its promise with. *)
Definition settle_with (r : result bool * state) : promise * state :=
  match r with
  | (Ok b, st) => (Fulfilled b, on_finally st)
  | (Throw _, st) =>
      match on_catch st with
      | (Ok b, st') => (Fulfilled b, on_finally st')
      | (Throw e, st') => (Rejected e, on_finally st')
      | (Unmodelled, st') => (Pending, on_finally st')
      end
  | (Unmodelled, st) => (Pending, st)
  end.

(** What a call of [initRedisClient] hands to its caller: a promise already
    resolved with a boolean, or one that follows promise [p]. *)
Inductive returned : Type :=
| Resolved (b : bool)
| Follows (p : nat).

(** A call of [initRedisClient], up to the point where it returns. *)
Definition initRedisClient (env : Env) (config_ok open_ok : bool) (st : state)
  : returned * state :=
  if negb (truthy_env (REDIS_URL env)) then (Resolved false, st)
  else
    match connectionPromise st with
    | Some p => (Follows p, st)
    | None =>
        let p := length (promises st) in
        match attempt_begin config_ok open_ok st with
        | (Ok tt, st1) =>
            (* suspended at the [await]; the pending promise is published *)
            (Follows p,
             set_connectionPromise (Some p)
               (set_promises (promises st1 ++ [Pending]) st1))
        | (Throw e, st1) =>
            (* the body ran to its end inside the call: [finally] has
               cleared the variable before the assignment stores the
               settled promise in it *)
            let '(v, st2) := settle_with (Throw e, st1) in
            (Follows p,
             set_connectionPromise (Some p)
               (set_promises (promises st2 ++ [v]) st2))
        | (Unmodelled, st1) => (Follows p, st1)
        end
    end.

(** The awaited probe of the attempt behind promise [p] settles, and the
    async function runs to its end. *)
Definition ping_settles (p : nat) (ping_ok : bool) (st : state) : state :=
  match promises st !! p with
  | Some Pending =>
      let '(v, st') := settle_with (attempt_resume ping_ok st) in
      set_promises (<[p := v]> (promises st')) st'
  | _ => st
  end.

(** [healthCheck], given the outcome of the awaited [ping]. *)
Definition healthCheck (ping : result string) (st : state) : bool :=
  match redisClient st with
  | None => false
  | Some _ =>
      match ping with
      | Ok reply => String.eqb reply "PONG"
      | _ => false
      end
  end.

(** [closeRedisClient], taken at the moment [quit] has answered. *)
Definition closeRedisClient (st : state) : state :=
  match redisClient st with
  | Some _ => set_isRedisConnected false (set_redisClient None st)
  | None => st
  end.

(** What can happen to the module, one event at a time: a caller enters
    [initRedisClient], a probe settles, the client emits [ready], [error] or
    [close], or the connection is closed on request. *)
Inductive event : Type :=
| Call (config_ok open_ok : bool)
| PingSettles (p : nat) (ping_ok : bool)
| OnReady
| OnError
| OnClose
| CloseClient.

Definition step (env : Env) (e : event) (st : state) : option returned * state :=
  match e with
  | Call c o => let '(r, st') := initRedisClient env c o st in (Some r, st')
  | PingSettles p ok => (None, ping_settles p ok st)
  | OnReady => (None, set_isRedisConnected true st)
  | OnError => (None, set_isRedisConnected false st)
  | OnClose => (None, set_isRedisConnected false st)
  | CloseClient => (None, closeRedisClient st)
  end.

(** Runs a trace; returns what each [Call] in it handed to its caller. *)
Fixpoint run (env : Env) (evs : list event) (st : state)
  : list returned * state :=
  match evs with
  | [] => ([], st)
  | e :: evs' =>
      let '(r, st1) := step env e st in
      let '(rs, st2) := run env evs' st1 in
      (match r with Some x => x :: rs | None => rs end, st2)
  end.

(** The boolean a caller eventually receives. *)
Definition outcome (r : returned) (st : state) : option bool :=
  match r with
  | Resolved b => Some b
  | Follows p =>
      match promises st !! p with
      | Some (Fulfilled b) => Some b
      | _ => None
      end
  end.

(** The object [getRedisInfo] returns. *)
Record Info := mkInfo {
  enabled : bool;
  tlsEnabled : bool;
  connected : bool
}.

(** [getRedisInfo]. *)
Definition getRedisInfo (env : Env) (st : state) : Info :=
  let redisUrl := default "" (REDIS_URL env) in
  {| enabled := isRedisConnected st;
     tlsEnabled :=
       startsWith redisUrl "rediss://" ||
       env_is (REDIS_TLS env) "true" || env_is (REDIS_TLS env) "1";
     connected := isRedisConnected st |}.

End RedisClient.

(** ** The world of the cache and the session store

    The state the two modules read and write: the clock behind [Date.now()],
    the state of [redis-client.js], the key space of the remote store, the
    two fallback maps, the bytes [crypto.randomBytes] will deliver and a
    count of the producer calls made by [getOrSet].  A remote entry carries
    the absolute time at which the remote store drops it.  An operation runs
    at one instant of the clock; time passes between operations ([advance]),
    and so do the events of the connection. *)

Record CacheEntry := mkEntry {
  value : string;
  expiresAt : Z
}.

Record World := mkWorld {
  now : Z;
  conn : RedisClient.state;
  remote : gmap string (string * Z);
  faults : list bool;
  memoryCache : gmap string CacheEntry;
  memorySessions : gmap string json;
  entropy : nat -> Byte.byte;
  drawn : nat;
  fetches : nat
}.

Definition set_now (t : Z) (w : World) : World :=
  mkWorld t (conn w) (remote w) (faults w) (memoryCache w) (memorySessions w)
    (entropy w) (drawn w) (fetches w).

Definition set_remote (r : gmap string (string * Z)) (w : World) : World :=
  mkWorld (now w) (conn w) r (faults w) (memoryCache w) (memorySessions w)
    (entropy w) (drawn w) (fetches w).

Definition set_faults (fs : list bool) (w : World) : World :=
  mkWorld (now w) (conn w) (remote w) fs (memoryCache w) (memorySessions w)
    (entropy w) (drawn w) (fetches w).

Definition set_memoryCache (m : gmap string CacheEntry) (w : World) : World :=
  mkWorld (now w) (conn w) (remote w) (faults w) m (memorySessions w)
    (entropy w) (drawn w) (fetches w).

Definition set_memorySessions (m : gmap string json) (w : World) : World :=
  mkWorld (now w) (conn w) (remote w) (faults w) (memoryCache w) m
    (entropy w) (drawn w) (fetches w).

Definition set_drawn (n : nat) (w : World) : World :=
  mkWorld (now w) (conn w) (remote w) (faults w) (memoryCache w)
    (memorySessions w) (entropy w) n (fetches w).

Definition set_fetches (n : nat) (w : World) : World :=
  mkWorld (now w) (conn w) (remote w) (faults w) (memoryCache w)
    (memorySessions w) (entropy w) (drawn w) n.

(** An event of the connection changes the state of [redis-client.js]. *)
Definition set_conn (c : RedisClient.state) (w : World) : World :=
  mkWorld (now w) c (remote w) (faults w) (memoryCache w) (memorySessions w)
    (entropy w) (drawn w) (fetches w).

(** Time passes: the clock moves forward by [dt] milliseconds. *)
Definition advance (dt : Z) (w : World) : World := set_now (now w + dt) w.

(** *** Computations over the world *)

Definition M (A : Type) : Type := World -> result A * World.

Definition ret {A} (a : A) : M A := fun w => (Ok a, w).

Definition bind {A B} (m : M A) (k : A -> M B) : M B :=
  fun w =>
    match m w with
    | (Ok a, w') => k a w'
    | (Throw e, w') => (Throw e, w')
    | (Unmodelled, w') => (Unmodelled, w')
    end.

Notation "'do' x <- m ;; k" := (bind m (fun x => k))
  (at level 10, x name, m at level 99, k at level 200).
Notation "'perform' m ;; k" := (bind m (fun _ => k))
  (at level 10, m at level 99, k at level 200).

(** A computation without effect on the world. *)
Definition lift {A} (r : result A) : M A := fun w => (r, w).

(** [try { m } catch (err) { h }]. *)
Definition try_catch {A} (m : M A) (h : error -> M A) : M A :=
  fun w =>
    match m w with
    | (Throw e, w') => h e w'
    | r => r
    end.

Definition Date_now : M Z := fun w => (Ok (now w), w).

(** [crypto.randomBytes(n)]. *)
Definition randomBytes (n : nat) : M (list Byte.byte) :=
  fun w => (Ok (map (entropy w) (seq (drawn w) n)), set_drawn (drawn w + n) w).

(** [isRedisAvailable() && client], the test every operation starts with. *)
Definition using_remote (w : World) : bool :=
  RedisClient.isRedisAvailable (conn w) &&
  bool_decide (RedisClient.getRedisClient (conn w) <> None).

Definition redis_in_use : M bool := fun w => (Ok (using_remote w), w).

(** *** The remote store

    A command of the client either fails (the next entry of [faults] is
    [true]: a timeout, a lost connection) or is carried out.  An entry is
    visible until its expiry time has passed. *)

Definition remote_command {A} (cmd : M A) : M A :=
  fun w =>
    match faults w with
    | true :: fs => (Throw RedisError, set_faults fs w)
    | false :: fs => cmd (set_faults fs w)
    | [] => cmd w
    end.

Definition visible (t : Z) (e : string * Z) : bool := t <=? e.2.

Definition remote_lookup (k : string) (w : World) : option string :=
  match remote w !! k with
  | Some e => if visible (now w) e then Some e.1 else None
  | None => None
  end.

(** [SETEX key seconds value]; the store rejects a non-positive expiry. *)
Definition client_setex (k : string) (ttl : Z) (v : string) : M unit :=
  remote_command (fun w =>
    if ttl <=? 0 then (Throw RedisError, w)
    else (Ok tt, set_remote (<[k := (v, now w + ttl * 1000)]> (remote w)) w)).

(** [GET key]; [None] is the nil reply. *)
Definition client_get (k : string) : M (option string) :=
  remote_command (fun w => (Ok (remote_lookup k w), w)).


Fixpoint del_keys (ks : list string) (w : World) : Z * World :=
  match ks with
  | [] => (0, w)
  | k :: ks' =>
      let hit := match remote_lookup k w with Some _ => 1 | None => 0 end in
      let '(n, w') := del_keys ks' (set_remote (delete k (remote w)) w) in
      (hit + n, w')
  end.

(** [DEL key...]: the number of keys that were removed. *)
Definition client_del (ks : list string) : M Z :=
  remote_command (fun w => let '(n, w') := del_keys ks w in (Ok n, w')).

(** A pattern using a glob operator other than the asterisk. *)
Definition beyond_asterisk (p : string) : bool :=
  includes p "?" || includes p "[" || includes p (String backslash "").

(** [KEYS pattern]. *)
Definition client_keys (p : string) : M (list string) :=
  remote_command (fun w =>
    if beyond_asterisk p then (Unmodelled, w)
    else
      (Ok (map fst
             (List.filter (fun kv => visible (now w) kv.2 && glob_match p kv.1)
                (map_to_list (remote w)))), w)).

(** ** cache.js *)

Module Cache.

Definition DEFAULT_TTL : Z := 60.
Definition CACHE_PREFIX : string := "cache:".

Definition buildKey (namespace key : string) : string :=
  CACHE_PREFIX ++ namespace ++ key.

Definition memoryCache_set (k : string) (e : CacheEntry) : M unit :=
  fun w => (Ok tt, set_memoryCache (<[k := e]> (memoryCache w)) w).

Definition memoryCache_get (k : string) : M (option CacheEntry) :=
  fun w => (Ok (memoryCache w !! k), w).

Definition memoryCache_delete (k : string) : M unit :=
  fun w => (Ok tt, set_memoryCache (delete k (memoryCache w)) w).

Definition memoryCache_keys : M (list string) :=
  fun w => (Ok (map fst (map_to_list (memoryCache w))), w).

(** [set(key, value, ttl = DEFAULT_TTL)]. *)
Definition set (key : string) (value : json) (ttl : option Z) : M bool :=
  let ttl := default DEFAULT_TTL ttl in
  let fullKey := CACHE_PREFIX ++ key in
  let serialized := JSON_stringify value in
  do use <- redis_in_use ;;
  do returned <-
    (if use : bool then
       try_catch (perform client_setex fullKey ttl serialized ;; ret (Some true))
                 (fun _ => ret None)
     else ret None) ;;
  match returned with
  | Some r => ret r
  | None =>
      do t <- Date_now ;;
      perform memoryCache_set fullKey
           {| value := serialized; expiresAt := t + ttl * 1000 |} ;;
      ret true
  end.

(** The remote read shared by [get] and [validateSession]:
    [if (data) ... JSON.parse(data)], [null] otherwise. *)
Definition parse_if_data (data : option string) : M json :=
  match data with
  | Some d => if truthy_str d then lift (JSON_parse d) else ret JNull
  | None => ret JNull
  end.

(** The fallback block of [get]: the read of the in-memory map, with its
    lazy expiry. *)
Definition read_memory (fullKey : string) : M json :=
  do cached <- memoryCache_get fullKey ;;
  match cached with
  | None => ret JNull
  | Some c =>
      do t <- Date_now ;;
      if expiresAt c <? t then (perform memoryCache_delete fullKey ;; ret JNull)
      else lift (JSON_parse (value c))
  end.

(** [get(key)]; the JavaScript [null] is [JNull]. *)
Definition get (key : string) : M json :=
  let fullKey := CACHE_PREFIX ++ key in
  do use <- redis_in_use ;;
  do returned <-
    (if use : bool then
       try_catch (do data <- client_get fullKey ;;
                  do v <- parse_if_data data ;;
                  ret (Some v))
                 (fun _ => ret None)
     else ret None) ;;
  match returned with
  | Some r => ret r
  | None => read_memory fullKey
  end.

(** [del(key)]. *)
Definition del (key : string) : M bool :=
  let fullKey := CACHE_PREFIX ++ key in
  do use <- redis_in_use ;;
  perform (if use : bool then
        try_catch (perform client_del [fullKey] ;; ret tt) (fun _ => ret tt)
      else ret tt) ;;
  perform memoryCache_delete fullKey ;;
  ret true.

(** The loop of [delByPattern] over the keys of the fallback map. *)
Fixpoint delete_matching (regex : list item) (keys : list string) (count : Z)
  : M Z :=
  match keys with
  | [] => ret count
  | key :: keys' =>
      if regex_test regex key then
        perform memoryCache_delete key ;; delete_matching regex keys' (count + 1)
      else delete_matching regex keys' count
  end.

(** [delByPattern(pattern)]. *)
Definition delByPattern (pattern : string) : M Z :=
  let fullPattern := CACHE_PREFIX ++ pattern in
  do use <- redis_in_use ;;
  do count <-
    (if use : bool then
       try_catch (do keys <- client_keys fullPattern ;;
                  if (0 <? length keys)%nat then client_del keys else ret 0)
                 (fun _ => ret 0)
     else ret 0) ;;
  match RegExp (String "^" (replace_stars fullPattern) ++ "$") with
  | None => lift Unmodelled
  | Some regex =>
      do keys <- memoryCache_keys ;;
      delete_matching regex keys count
  end.


(** [await fetchFn()]: the producer is a caller-supplied function whose
    outcome may differ from one invocation to the next; [None] is
    [undefined]. *)
Definition call_fetchFn (fetchFn : nat -> result (option json))
  : M (option json) :=
  fun w => (fetchFn (fetches w), set_fetches (S (fetches w)) w).

Definition is_null (v : json) : bool :=
  match v with JNull => true | _ => false end.

(** [getOrSet(key, fetchFn, ttl = DEFAULT_TTL)]. *)
Definition getOrSet (key : string) (fetchFn : nat -> result (option json))
    (ttl : option Z) : M (option json) :=
  do cached <- get key ;;
  if negb (is_null cached) then ret (Some cached)
  else
    do data <- call_fetchFn fetchFn ;;
    match data with
    | Some d => perform set key d ttl ;; ret data
    | None => ret data
    end.

(** [cleanExpiredMemoryCache()]. *)
Definition cleanExpiredMemoryCache : M unit :=
  fun w =>
    (Ok tt,
     set_memoryCache
       (filter (fun kv => (expiresAt kv.2 <? now w) = false) (memoryCache w)) w).

(** [flush()]. *)
Definition flush : M unit :=
  do use <- redis_in_use ;;
  perform (if use : bool then
        try_catch (do keys <- client_keys (CACHE_PREFIX ++ "*") ;;
                   if (0 <? length keys)%nat then (perform client_del keys ;; ret tt)
                   else ret tt)
                  (fun _ => ret tt)
      else ret tt) ;;
  (fun w => (Ok tt, set_memoryCache ∅ w)).

(** The object [getStats] returns; [redisKeys] is present when the remote
    store is in use. *)
Record Stats := mkStats {
  backend : string;
  memorySize : nat;
  redisKeys : option nat
}.

(** [getStats()]. *)
Definition getStats : M Stats :=
  fun w =>
    let backend :=
      if RedisClient.isRedisAvailable (conn w) then "redis" else "memory" in
    let memorySize := size (memoryCache w) in
    (do use <- redis_in_use ;;
     do keys <-
       (if use : bool then
          try_catch (do keys <- client_keys (CACHE_PREFIX ++ "*") ;;
                     ret (Some (length keys)))
                    (fun _ => ret (Some 0%nat))
        else ret None) ;;
     ret {| backend := backend; memorySize := memorySize; redisKeys := keys |})
      w.

(** The request, as far as [cacheMiddleware] reads it. *)
Record Request := mkRequest {
  method : string;
  originalUrl : string
}.

(** What the middleware does with a request: it calls [next()] and leaves
    the response alone, it replaces [res.json] by the caching wrapper for
    [cacheKey] and calls [next()], or it answers with a body and the
    [X-Cache] header. *)
Inductive Handled : Type :=
| Next
| NextWrapped (cacheKey : string)
| Responded (xCache : string) (body : json).

(** The handler [cacheMiddleware(keyPrefix, ttl = DEFAULT_TTL)] returns. *)
Definition cacheMiddleware (keyPrefix : string) (ttl : option Z)
    (req : Request) : M Handled :=
  if negb (String.eqb (method req) "GET") then ret Next
  else
    let cacheKey := keyPrefix ++ originalUrl req in
    do hit <-
      try_catch (do cached <- get cacheKey ;;
                 if negb (falsy cached) then ret (Some cached) else ret None)
                (fun _ => ret None) ;;
    match hit with
    | Some cached => ret (Responded "HIT" cached)
    | None => ret (NextWrapped cacheKey)
    end.

(** The wrapper installed as [res.json]: it marks the response as a miss,
    stores the payload and sends it. *)
Definition wrapped_json (cacheKey : string) (ttl : option Z) (data : json)
  : M Handled :=
  let ttl := default DEFAULT_TTL ttl in
  perform try_catch (perform set cacheKey data (Some ttl) ;; ret tt)
                    (fun _ => ret tt) ;;
  ret (Responded "MISS" data).

End Cache.

(** ** session-store.js *)

Module Session.

Definition SESSION_DURATION : Z := 10 * 24 * 60 * 60 * 1000.
Definition SESSION_PREFIX : string := "session:".

Definition memorySessions_set (k : string) (s : json) : M unit :=
  fun w => (Ok tt, set_memorySessions (<[k := s]> (memorySessions w)) w).

Definition memorySessions_get (k : string) : M (option json) :=
  fun w => (Ok (memorySessions w !! k), w).

Definition memorySessions_delete (k : string) : M unit :=
  fun w => (Ok tt, set_memorySessions (delete k (memorySessions w)) w).

(** [buffer.toString('hex')]. *)
Definition hex_of_byte (b : Byte.byte) : string :=
  let n := Byte.to_N b in
  String (hex_digit (n / 16)) (String (hex_digit (n mod 16)) "").

Fixpoint toHex (bs : list Byte.byte) : string :=
  match bs with
  | [] => ""
  | b :: bs' => hex_of_byte b ++ toHex bs'
  end.

(** [generateSessionToken()]. *)
Definition generateSessionToken : M string :=
  do bytes <- randomBytes 32 ;;
  ret ("session_" ++ toHex bytes).

(** The record [createSession] builds. *)
Definition session_record (userId : string) (createdAt expires : Z) : json :=
  JObj [("userId", JStr userId); ("createdAt", JNum createdAt);
        ("expiresAt", JNum expires)].

(** [createSession(userId = 'admin')]. *)
Definition createSession (userId : option string) : M string :=
  let userId := default "admin" userId in
  do token <- generateSessionToken ;;
  do t1 <- Date_now ;;
  do t2 <- Date_now ;;
  let session := session_record userId t1 (t2 + SESSION_DURATION) in
  do use <- redis_in_use ;;
  perform (if use : bool then
        client_setex (SESSION_PREFIX ++ token) (SESSION_DURATION / 1000)
          (JSON_stringify session)
      else memorySessions_set token session) ;;
  ret token.

(** [destroySession(token)]. *)
Definition destroySession (token : string) : M unit :=
  do use <- redis_in_use ;;
  if use : bool then (perform client_del [SESSION_PREFIX ++ token] ;; ret tt)
  else memorySessions_delete token.

(** [t > x] for a clock value [t] and a property read [x]: [undefined]
    compares as NaN, [null] and the booleans as numbers; the coercion of a
    string, an array or an object is not modelled. *)
Definition js_gt (t : Z) (x : option json) : result bool :=
  match x with
  | None => Ok false
  | Some (JNum e) => Ok (e <? t)
  | Some JNull => Ok (0 <? t)
  | Some (JBool b) => Ok ((if b then 1 else 0) <? t)
  | Some (JStr _) | Some (JArr _) | Some (JObj _) => Unmodelled
  end.

(** [now > session.expiresAt]. *)
Definition expired (t : Z) (session : json) : result bool :=
  js_gt t (get_field "expiresAt" session).

Definition is_expired (t : Z) (session : json) : bool :=
  match expired t session with Ok b => b | _ => false end.

Definition comparable (t : Z) (session : json) : bool :=
  match expired t session with Ok _ => true | _ => false end.

(** [validateSession(token)]. *)
Definition validateSession (token : string) : M json :=
  if negb (truthy_str token) then ret JNull
  else
    do use <- redis_in_use ;;
    do session <-
      (if use : bool then
         do data <- client_get (SESSION_PREFIX ++ token) ;;
         do v <- Cache.parse_if_data data ;;
         ret (Some v)
       else memorySessions_get token) ;;
    match session with
    | None => ret JNull
    | Some s =>
        if falsy s then ret JNull
        else
          do t <- Date_now ;;
          do is_expired <- lift (expired t s) ;;
          if is_expired : bool then (perform destroySession token ;; ret JNull)
          else ret s
    end.

(** [cleanExpiredSessions()]. *)
Definition cleanExpiredSessions : M unit :=
  fun w =>
    if RedisClient.isRedisAvailable (conn w) then (Ok tt, w)
    else if forallb (fun kv => comparable (now w) kv.2)
              (map_to_list (memorySessions w))
    then
      (Ok tt,
       set_memorySessions
         (filter (fun kv => is_expired (now w) kv.2 = false) (memorySessions w))
         w)
    else (Unmodelled, w).

(** [getActiveSessionCount()]. *)
Definition getActiveSessionCount : M Z :=
  do use <- redis_in_use ;;
  if use : bool then
    do keys <- client_keys (SESSION_PREFIX ++ "*") ;;
    ret (Z.of_nat (length keys))
  else fun w => (Ok (Z.of_nat (size (memorySessions w))), w).

(** [isRedisSessionEnabled()]. *)
Definition isRedisSessionEnabled (w : World) : bool :=
  RedisClient.isRedisAvailable (conn w).

(** [initSessionStore()], given the boolean [initRedisClient()] resolved
    with. *)
Definition initSessionStore (connected : bool) : bool :=
  if negb connected then false else true.

End Session.

(** * Notions used in the statements *)

(** ** Reading back a serialised value *)

(** What may follow a number in a text: not a digit, a dot or an exponent. *)
Definition number_stop (r : string) : bool :=
  match r with
  | EmptyString => true
  | String c _ =>
      negb (Ascii.eqb c "." || Ascii.eqb c "e" || Ascii.eqb c "E") &&
      match digit_val c with Some _ => false | None => true end
  end.

(** The first character of a serialised value: no white space and no
    closing bracket. *)
Definition opens_value (c : ascii) : bool :=
  negb (is_ws c) && negb (Ascii.eqb c "]") && negb (Ascii.eqb c "}").

(** The fuel [parse_value] needs to read a value back. *)
Fixpoint jsize (v : json) : nat :=
  match v with
  | JArr l => S (list_sum (map (fun x => S (jsize x)) l))
  | JObj l => S (list_sum (map (fun kv => S (jsize kv.2)) l))
  | _ => 1
  end.

(** The first character of a serialised number, which sends [parse_value]
    to [parse_number]. *)
Definition number_head (c : ascii) : Prop :=
  opens_value c = true /\
  Ascii.eqb c "n" = false /\ Ascii.eqb c "t" = false /\
  Ascii.eqb c "f" = false /\ Ascii.eqb c dquote = false /\
  Ascii.eqb c "[" = false /\ Ascii.eqb c "{" = false.

(** The text between the brackets of an array, of one member of an object
    and between the braces of an object. *)
Definition elems_text (l : list json) : string :=
  String.concat "," (map JSON_stringify l).

Definition member_text (kv : string * json) : string :=
  quote kv.1 ++ ":" ++ JSON_stringify kv.2.

Definition members_text (l : list (string * json)) : string :=
  String.concat "," (map member_text l).

(** [parse_value] reads the text of [v] back, whatever follows it. *)
Definition reads_back (v : json) : Prop :=
  forall (fuel : nat) (rest : string),
    (jsize v <= fuel)%nat -> number_stop rest = true ->
    parse_value fuel (JSON_stringify v ++ rest) = Parsed v rest.

(** ** Connection *)

Section ConnectionNotions.
Import RedisClient.

(** TLS is switched on by the URL scheme or by the [REDIS_TLS] flag. *)
Definition tls_by_scheme_or_flag (env : Env) : bool :=
  startsWith (default "" (REDIS_URL env)) "rediss://" ||
  env_is (REDIS_TLS env) "true" || env_is (REDIS_TLS env) "1".

(** While an attempt is in flight no probe settles. *)
Definition settles (e : event) : bool :=
  match e with PingSettles _ _ => true | _ => false end.

(** Promise [p] is published and pending, and [a] clients were built. *)
Definition in_flight (p : nat) (a : nat) (st : state) : Prop :=
  connectionPromise st = Some p /\ promises st !! p = Some Pending /\
  attempts st = a.

(** At most one attempt is in flight: a pending promise is the published
    one.  The property holds initially and every event preserves it. *)
Definition single_flight (st : state) : Prop :=
  forall q, promises st !! q = Some Pending -> connectionPromise st = Some q.

(** No promise of the module is ever rejected: every failure of an attempt
    is turned into the value [false]. *)
Definition never_rejected (st : state) : Prop :=
  forall q e, promises st !! q <> Some (Rejected e).

(** An environment that configures a remote store. *)
Definition sample_env : Env :=
  mkEnv (Some "redis://cache:6379") None None None None None.

(** The state an attempt leaves behind when it throws before its probe:
    promise [p] is published although it is settled with [false], nothing is
    pending, there is no client, and [a] clients were built. *)
Definition stuck (p a : nat) (st : state) : Prop :=
  connectionPromise st = Some p /\
  promises st !! p = Some (Fulfilled false) /\
  (forall q, promises st !! q <> Some Pending) /\
  redisClient st = None /\
  attempts st = a.

End ConnectionNotions.

(** ** Worlds, tokens, patterns *)

(** Sample worlds: the connection as the module starts, and as it is after
    a first attempt whose probe answered. *)
Definition offline : RedisClient.state := RedisClient.initial.

Definition online : RedisClient.state :=
  RedisClient.ping_settles 0 true
    (RedisClient.initRedisClient sample_env true true RedisClient.initial).2.

(** The world at time [t] with empty stores, no scheduled fault and a
    generator that counts. *)
Definition world_at (st : RedisClient.state) (t : Z) : World :=
  mkWorld t st ∅ [] ∅ ∅ (fun n => default Byte.x00 (Byte.of_nat n)) 0 0.


(** The token built from the bytes the generator delivers in world [w]. *)
Definition token_of (w : World) : string :=
  "session_" ++ Session.toHex (map (entropy w) (seq (drawn w) 32)).

(** A character of a pattern that the translation to a regular expression
    leaves with its glob meaning: the asterisk, or a character that is
    neither the dot nor an operator. *)
Definition plain_char (c : ascii) : bool :=
  negb (is_meta c) && negb (Ascii.eqb c ".").

(** A pattern made of such characters. *)
Fixpoint plain (p : string) : bool :=
  match p with
  | EmptyString => true
  | String c p' => plain_char c && plain p'
  end.

(** The characters the dot of a regular expression does not match. *)
Definition line_terminator (c : ascii) : bool :=
  Ascii.eqb c "010" || Ascii.eqb c "013".

(** A key without line terminator. *)
Fixpoint single_line (s : string) : bool :=
  match s with
  | EmptyString => true
  | String c s' => negb (line_terminator c) && single_line s'
  end.

(** Deleting from a map every listed key that satisfies [f]. *)
Definition delete_where {A} (f : string -> bool) (ks : list string)
    (m : gmap string A) : gmap string A :=
  foldl (fun m k => if f k then delete k m else m) m ks.

(** The keys [KEYS p] replies with. *)
Definition remote_hits (p : string) (w : World) : list string :=
  map fst
    (List.filter (fun kv => visible (now w) kv.2 && glob_match p kv.1)
       (map_to_list (remote w))).

(** The keys of the fallback map that match a glob. *)
Definition memory_hits (p : string) (w : World) : list string :=
  List.filter (glob_match p) (map fst (map_to_list (memoryCache w))).

(** A fallback entry that expires at [t]. *)
Definition entry_at (t : Z) : CacheEntry := {| value := "1"; expiresAt := t |}.

(** The entry [set] writes, on either backend. *)
Definition stored_by_set (k : string) (v : json) (ttl : option Z) (w w' : World)
  : Prop :=
  let key := Cache.CACHE_PREFIX ++ k in
  let expiry := now w + default Cache.DEFAULT_TTL ttl * 1000 in
  remote w' !! key = Some (JSON_stringify v, expiry) \/
  memoryCache w' !! key =
    Some {| value := JSON_stringify v; expiresAt := expiry |}.

(** The remote commands answer while the remote store is in use. *)
Definition healthy (w : World) : Prop := using_remote w = true -> faults w = [].

(** The remote key space after the [KEYS]/[DEL] pair of [flush]. *)
Definition flushed_remote (w : World) : gmap string (string * Z) :=
  filter (fun kv => visible (now w) kv.2 &&
                    glob_match (Cache.CACHE_PREFIX ++ "*") kv.1 = false)
    (remote w).

(** The token of the next session is not in use yet, on the backend in
    use. *)
Definition fresh_token (w : World) : Prop :=
  if using_remote w
  then remote w !! (Session.SESSION_PREFIX ++ token_of w) = None
  else memorySessions w !! token_of w = None.

(** * Properties *)

(** ** Strings *)

Lemma is_prefix_app (p s : string) : is_prefix p (p ++ s) = true.
Proof.
  induction p as [|c p IH]; simpl; [reflexivity|].
  now rewrite Ascii.eqb_refl.
Qed.

Lemma is_prefix_split (p s : string) :
  is_prefix p s = true -> exists r, s = p ++ r.
Proof.
  revert s; induction p as [|c p IH]; intros s H.
  - now exists s.
  - destruct s as [|d s]; simpl in H; [discriminate|].
    apply andb_true_iff in H as [E H]. apply Ascii.eqb_eq in E as <-.
    destruct (IH _ H) as [r ->]. now exists r.
Qed.

Lemma includes_spec (s needle : string) :
  includes s needle = true <-> exists pre post, s = pre ++ needle ++ post.
Proof.
  split.
  - induction s as [|c s IH]; simpl; intros H.
    + rewrite orb_false_r in H. apply is_prefix_split in H as [r E].
      now exists EmptyString, r.
    + apply orb_true_iff in H as [H|H].
      * apply is_prefix_split in H as [r E]. now exists EmptyString, r.
      * destruct (IH H) as (pre & post & ->).
        now exists (String c pre), post.
  - intros (pre & post & ->).
    induction pre as [|c pre IH].
    + change (includes (needle ++ post) needle = true).
      destruct (needle ++ post) eqn:E; simpl; rewrite <- ?E, is_prefix_app;
        reflexivity.
    + change (includes (String c (pre ++ needle ++ post)) needle = true).
      simpl. rewrite IH. apply orb_true_r.
Qed.

(** ** JSON: what [JSON.stringify] writes, [JSON.parse] reads back *)

Section JsonRoundTrip.

#[local] Arguments String.append !_ _ / : simpl nomatch.

Lemma digit_val_char (d : Z) : 0 <= d <= 9 -> digit_val (digit_char d) = Some d.
Proof.
  intros H.
  assert (d = 0 \/ d = 1 \/ d = 2 \/ d = 3 \/ d = 4 \/ d = 5 \/ d = 6 \/
          d = 7 \/ d = 8 \/ d = 9) as K by lia.
  repeat destruct K as [->|K]; try subst d; reflexivity.
Qed.

Lemma after_int_stop (n : Z) (r : string) :
  number_stop r = true -> after_int n r = Parsed n r.
Proof.
  destruct r as [|c r]; [reflexivity|]. simpl. intros H.
  apply andb_true_iff in H as [H1 H2]. apply negb_true_iff in H1.
  rewrite H1. now destruct (digit_val c).
Qed.

Lemma read_digits_stop (n : Z) (r : string) :
  number_stop r = true -> read_digits r n = (n, r).
Proof.
  destruct r as [|c r]; [reflexivity|]. simpl. intros H.
  apply andb_true_iff in H as [_ H]. now destruct (digit_val c).
Qed.

Lemma dec_digits_app (fuel : nat) (n : Z) (tail rest : string) :
  dec_digits fuel n tail ++ rest = dec_digits fuel n (tail ++ rest).
Proof.
  revert n tail. induction fuel as [|f IH]; intros n tail; simpl; [reflexivity|].
  destruct (n <? 10); [reflexivity|]. now rewrite IH.
Qed.

Lemma read_dec_digits (fuel : nat) (n : Z) (tail : string) :
  0 <= n < 10 ^ Z.of_nat fuel ->
  exists k, 0 <= k /\ forall acc,
    read_digits (dec_digits fuel n tail) acc = read_digits tail (acc * 10 ^ k + n).
Proof.
  revert n tail. induction fuel as [|f IH]; intros n tail H.
  - exists 0. split; [lia|]. intros acc. simpl in *. f_equal. lia.
  - simpl dec_digits. destruct (Z.ltb_spec n 10) as [L|L].
    + exists 1. split; [lia|]. intros acc. simpl.
      rewrite digit_val_char by lia. f_equal.
    + assert (B : 0 <= n / 10 < 10 ^ Z.of_nat f).
      { rewrite Nat2Z.inj_succ, Z.pow_succ_r in H by lia.
        split; [apply Z.div_pos; lia|apply Z.div_lt_upper_bound; lia]. }
      destruct (IH (n / 10) (String (digit_char (n mod 10)) tail) B)
        as (k & P & K).
      exists (k + 1). split; [lia|]. intros acc. rewrite K.
      pose proof (Z.mod_pos_bound n 10 ltac:(lia)) as M.
      simpl. rewrite digit_val_char by lia. f_equal.
      rewrite Z.pow_add_r by lia. pose proof (Z.div_mod n 10). lia.
Qed.

Lemma dec_digits_head (fuel : nat) (n : Z) (tail : string) :
  0 < n < 10 ^ Z.of_nat fuel ->
  exists d s, 1 <= d <= 9 /\ dec_digits fuel n tail = String (digit_char d) s.
Proof.
  revert n tail. induction fuel as [|f IH]; intros n tail H.
  - simpl in H. lia.
  - simpl dec_digits. destruct (Z.ltb_spec n 10) as [L|L].
    + exists n, tail. split; [lia|reflexivity].
    + apply IH. rewrite Nat2Z.inj_succ, Z.pow_succ_r in H by lia.
      split; [|apply Z.div_lt_upper_bound; lia].
      apply Z.div_str_pos. lia.
Qed.

Lemma enough_digits (n : Z) :
  0 <= n -> n < 10 ^ Z.of_nat (S (Z.to_nat (Z.log2 n))).
Proof.
  intros H. rewrite Nat2Z.inj_succ, Z2Nat.id by apply Z.log2_nonneg.
  destruct (Z.eq_dec n 0) as [->|N]; [reflexivity|].
  pose proof (Z.log2_spec n ltac:(lia)) as [_ U].
  eapply Z.lt_le_trans; [exact U|].
  apply Z.pow_le_mono_l. pose proof (Z.log2_nonneg n). lia.
Qed.

Lemma parse_nat_digits (n : Z) (rest : string) :
  0 <= n -> number_stop rest = true ->
  parse_nat (dec_digits (S (Z.to_nat (Z.log2 n))) n "" ++ rest) = Parsed n rest.
Proof.
  intros H S. rewrite dec_digits_app. change ("" ++ rest) with rest.
  pose proof (enough_digits n H) as B.
  set (fuel := Datatypes.S (Z.to_nat (Z.log2 n))) in *.
  destruct (Z.eq_dec n 0) as [->|N].
  - simpl. now apply after_int_stop.
  - destruct (dec_digits_head fuel n rest ltac:(lia)) as (d & s & D & E).
    destruct (read_dec_digits fuel n rest ltac:(lia)) as (k & _ & K).
    pose proof (K 0) as R. rewrite E in *.
    unfold parse_nat. rewrite digit_val_char by lia.
    destruct d as [|d|d]; try lia.
    rewrite R. simpl. rewrite read_digits_stop by exact S.
    now apply after_int_stop.
Qed.

Lemma parse_number_string_of_Z (n : Z) (rest : string) :
  number_stop rest = true ->
  parse_number (string_of_Z n ++ rest) = Parsed n rest.
Proof.
  intros S. unfold string_of_Z. destruct (Z.ltb_spec n 0) as [L|L].
  - change (String "-" ?s ++ rest) with (String "-" (s ++ rest)).
    unfold parse_number. rewrite Ascii.eqb_refl.
    rewrite parse_nat_digits by (lia || exact S). f_equal. lia.
  - pose proof (parse_nat_digits n rest L S) as P.
    destruct (dec_digits _ n "" ++ rest) as [|c s] eqn:E; [discriminate|].
    unfold parse_number.
    assert (C : Ascii.eqb c "-" = false).
    { unfold parse_nat in P. destruct (Ascii.eqb_spec c "-") as [->|]; [|reflexivity].
      discriminate. }
    now rewrite C.
Qed.

Lemma parse_escape_char (c : ascii) (t : string) :
  parse_chars (escape_char c ++ t) = cons_char c (parse_chars t).
Proof.
  destruct c as [[] [] [] [] [] [] [] []]; reflexivity.
Qed.

Lemma append_assoc (a b c : string) : (a ++ b) ++ c = a ++ (b ++ c).
Proof. induction a as [|x a IH]; simpl; [reflexivity|now f_equal]. Qed.

Lemma parse_chars_escape (s rest : string) :
  parse_chars (escape_string s ++ String dquote rest) = Parsed s rest.
Proof.
  induction s as [|c s IH]; [reflexivity|].
  simpl escape_string. rewrite append_assoc, parse_escape_char, IH.
  reflexivity.
Qed.

Lemma dec_digits_first (fuel : nat) (n : Z) (tail : string) :
  0 <= n ->
  exists d s, 0 <= d <= 9 /\ dec_digits (S fuel) n tail = String (digit_char d) s.
Proof.
  revert n tail. induction fuel as [|f IH]; intros n tail H.
  - simpl. destruct (Z.ltb_spec n 10).
    + exists n, tail. split; [lia|reflexivity].
    + exists (n mod 10), tail. split; [|reflexivity].
      pose proof (Z.mod_pos_bound n 10). lia.
  - change (dec_digits (S (S f)) n tail) with
      (if n <? 10 then String (digit_char n) tail
       else dec_digits (S f) (n / 10) (String (digit_char (n mod 10)) tail)).
    destruct (Z.ltb_spec n 10).
    + exists n, tail. split; [lia|reflexivity].
    + apply IH. apply Z.div_pos; lia.
Qed.

Lemma digit_char_head (d : Z) : 0 <= d <= 9 -> number_head (digit_char d).
Proof.
  intros H.
  assert (d = 0 \/ d = 1 \/ d = 2 \/ d = 3 \/ d = 4 \/ d = 5 \/ d = 6 \/
          d = 7 \/ d = 8 \/ d = 9) as K by lia.
  repeat destruct K as [->|K]; try subst d; repeat split.
Qed.

Lemma string_of_Z_head (n : Z) :
  exists c t, string_of_Z n = String c t /\ number_head c.
Proof.
  unfold string_of_Z. destruct (Z.ltb_spec n 0).
  - eexists _, _. split; [reflexivity|]. repeat split.
  - destruct (dec_digits_first (Z.to_nat (Z.log2 n)) n "" ltac:(lia))
      as (d & s & D & E).
    exists (digit_char d), s. split; [exact E|]. now apply digit_char_head.
Qed.

Lemma length_append (a b : string) :
  String.length (a ++ b) = (String.length a + String.length b)%nat.
Proof. induction a as [|c a IH]; simpl; [reflexivity|now rewrite IH]. Qed.

Lemma length_cons (c : ascii) (a : string) :
  String.length (String c a) = S (String.length a).
Proof. reflexivity. Qed.

Lemma append_nil_r (a : string) : a ++ "" = a.
Proof. induction a as [|c a IH]; simpl; [reflexivity|now rewrite IH]. Qed.

Lemma concat_length_lower (l : list string) :
  (list_sum (map (fun s => S (String.length s)) l) <=
   S (String.length (String.concat "," l)))%nat.
Proof.
  induction l as [|a l IH]; [simpl; lia|].
  destruct l as [|b l].
  { change (String.concat "," [a]) with a. simpl. lia. }
  change (String.concat "," (a :: b :: l)) with
    (a ++ String "," (String.concat "," (b :: l))).
  rewrite length_append.
  change (String.length (String "," ?x)) with (S (String.length x)).
  rewrite map_cons. change (list_sum (?x :: ?r)) with (x + list_sum r)%nat. lia.
Qed.

Lemma list_sum_map_le {A} (f g : A -> nat) (l : list A) :
  Forall (fun x => (f x <= g x)%nat) l ->
  (list_sum (map f l) <= list_sum (map g l))%nat.
Proof. induction 1; simpl; lia. Qed.

Lemma json_induction (P : json -> Prop) :
  P JNull -> (forall b, P (JBool b)) -> (forall n, P (JNum n)) ->
  (forall s, P (JStr s)) ->
  (forall l, Forall P l -> P (JArr l)) ->
  (forall l, Forall (fun kv => P kv.2) l -> P (JObj l)) ->
  forall v, P v.
Proof.
  intros Hn Hb Hz Hs Ha Ho.
  fix IH 1. intros [ |b|n|s|l|l].
  - exact Hn.
  - apply Hb.
  - apply Hz.
  - apply Hs.
  - apply Ha. induction l as [|x l IHl]; constructor; [apply IH|exact IHl].
  - apply Ho. induction l as [|[k x] l IHl]; constructor; [apply IH|exact IHl].
Qed.

Lemma jsize_le_length (v : json) :
  (jsize v <= String.length (JSON_stringify v))%nat.
Proof.
  induction v as [ |b|n|s|l IH|l IH] using json_induction.
  - simpl. lia.
  - destruct b; simpl; lia.
  - destruct (string_of_Z_head n) as (c & t & E & _).
    simpl. rewrite E. simpl. lia.
  - simpl. lia.
  - change (JSON_stringify (JArr l)) with
      (String "[" (String.concat "," (map JSON_stringify l) ++ "]")).
    rewrite length_cons, length_append. simpl jsize.
    change (String.length "]") with 1%nat.
    pose proof (concat_length_lower (map JSON_stringify l)) as C.
    rewrite map_map in C.
    pose proof (list_sum_map_le (fun x => S (jsize x))
                  (fun x => S (String.length (JSON_stringify x))) l) as M.
    assert (Forall (fun x => (S (jsize x) <= S (String.length (JSON_stringify x)))%nat) l)
      as F by (eapply Forall_impl; [exact IH|simpl; intros; lia]).
    specialize (M F). lia.
  - change (JSON_stringify (JObj l)) with
      (String "{" (String.concat ","
         (map (fun kv => quote kv.1 ++ ":" ++ JSON_stringify kv.2) l) ++ "}")).
    rewrite length_cons, length_append. simpl jsize.
    change (String.length "}") with 1%nat.
    pose proof (concat_length_lower
      (map (fun kv => quote kv.1 ++ ":" ++ JSON_stringify kv.2) l)) as C.
    rewrite map_map in C.
    pose proof (list_sum_map_le (fun kv => S (jsize kv.2))
      (fun kv => S (String.length (quote kv.1 ++ ":" ++ JSON_stringify kv.2))) l) as M.
    assert (Forall (fun kv : string * json => (S (jsize kv.2) <=
              S (String.length (quote kv.1 ++ ":" ++ JSON_stringify kv.2)))%nat) l) as F.
    { eapply Forall_impl; [exact IH|]. simpl. intros [k x] H.
      rewrite !length_append. simpl in *. lia. }
    specialize (M F). lia.
Qed.

Lemma stringify_head (v : json) :
  exists c t, JSON_stringify v = String c t /\ opens_value c = true.
Proof.
  destruct v as [ |[|]|n|s|l|l]; try (eexists _, _; split; [reflexivity|reflexivity]).
  destruct (string_of_Z_head n) as (c & t & E & O & _). exists c, t. now split.
Qed.

Lemma skip_ws_opens (c : ascii) (t : string) :
  opens_value c = true -> skip_ws (String c t) = String c t.
Proof.
  unfold opens_value. intros H. simpl.
  destruct (is_ws c); [discriminate|reflexivity].
Qed.

#[local] Arguments elems_text : simpl never.
#[local] Arguments members_text : simpl never.
#[local] Arguments member_text : simpl never.

Lemma elems_text_one (x : json) : elems_text [x] = JSON_stringify x.
Proof. reflexivity. Qed.

Lemma elems_text_more (x y : json) (l : list json) :
  elems_text (x :: y :: l) = JSON_stringify x ++ String "," (elems_text (y :: l)).
Proof. reflexivity. Qed.

Lemma members_text_one (kv : string * json) : members_text [kv] = member_text kv.
Proof. reflexivity. Qed.

Lemma members_text_more (kv kv' : string * json) (l : list (string * json)) :
  members_text (kv :: kv' :: l) =
    member_text kv ++ String "," (members_text (kv' :: l)).
Proof. reflexivity. Qed.

Lemma parse_elems_text (l : list json) (x : json) (fuel : nat) (rest : string) :
  Forall reads_back (x :: l) ->
  (list_sum (map (fun x => S (jsize x)) (x :: l)) <= fuel)%nat ->
  parse_elems fuel (elems_text (x :: l) ++ String "]" rest) = Parsed (x :: l) rest.
Proof.
  revert x fuel. induction l as [|y l IH]; intros x fuel F S.
  - apply Forall_cons in F as [Rx _].
    destruct fuel as [|f]; [simpl in S; lia|].
    rewrite elems_text_one. simpl parse_elems.
    rewrite Rx by (simpl in S; lia || reflexivity). reflexivity.
  - apply Forall_cons in F as [Rx F].
    destruct fuel as [|f]; [simpl in S; lia|].
    rewrite elems_text_more, append_assoc. simpl parse_elems.
    rewrite Rx by (simpl in S; lia || reflexivity). simpl.
    rewrite IH; [reflexivity|exact F|simpl in *; lia].
Qed.

Lemma parse_members_text (l : list (string * json)) (kv : string * json)
    (fuel : nat) (rest : string) :
  Forall (fun kv => reads_back kv.2) (kv :: l) ->
  (list_sum (map (fun kv => S (jsize kv.2)) (kv :: l)) <= fuel)%nat ->
  parse_members fuel (members_text (kv :: l) ++ String "}" rest) =
    Parsed (kv :: l) rest.
Proof.
  revert kv fuel. induction l as [|kv' l IH]; intros [k x] fuel F S.
  - apply Forall_cons in F as [Rx _]. simpl in Rx.
    destruct fuel as [|f]; [simpl in S; lia|].
    rewrite members_text_one. unfold member_text, quote. simpl fst. simpl snd.
    simpl parse_members. rewrite !append_assoc. simpl.
    rewrite parse_chars_escape. simpl.
    rewrite Rx by (simpl in S; lia || reflexivity). reflexivity.
  - apply Forall_cons in F as [Rx F]. simpl in Rx.
    destruct fuel as [|f]; [simpl in S; lia|].
    rewrite members_text_more. unfold member_text at 1, quote.
    simpl fst. simpl snd.
    simpl parse_members. rewrite !append_assoc. simpl.
    rewrite parse_chars_escape. simpl. rewrite ?append_assoc.
    rewrite Rx by (simpl in S; lia || reflexivity). simpl.
    rewrite IH; [reflexivity|exact F|simpl in *; lia].
Qed.

Lemma Forall_reads_back_head (l : list json) (x : json) :
  exists c t, elems_text (x :: l) = String c t /\ opens_value c = true.
Proof.
  destruct (stringify_head x) as (c & t & E & O).
  destruct l as [|y l].
  - exists c, t. now rewrite elems_text_one.
  - rewrite elems_text_more, E. simpl. eauto.
Qed.

Lemma parse_value_array (f : nat) (s : string) :
  parse_value (S f) (String "[" s) =
    match skip_ws s with
    | EmptyString => Malformed
    | String d r =>
        if Ascii.eqb d "]" then Parsed (JArr []) r
        else pmap JArr (parse_elems f s)
    end.
Proof. reflexivity. Qed.

Lemma parse_value_object (f : nat) (s : string) :
  parse_value (S f) (String "{" s) =
    match skip_ws s with
    | EmptyString => Malformed
    | String d r =>
        if Ascii.eqb d "}" then Parsed (JObj []) r
        else pmap JObj (parse_members f s)
    end.
Proof. reflexivity. Qed.

Lemma parse_value_string (f : nat) (s : string) :
  parse_value (S f) (String dquote s) = pmap JStr (parse_chars s).
Proof. reflexivity. Qed.

Lemma parse_value_number (f : nat) (c : ascii) (s : string) :
  is_ws c = false ->
  Ascii.eqb c "n" = false -> Ascii.eqb c "t" = false ->
  Ascii.eqb c "f" = false -> Ascii.eqb c dquote = false ->
  Ascii.eqb c "[" = false -> Ascii.eqb c "{" = false ->
  parse_value (S f) (String c s) = pmap JNum (parse_number (String c s)).
Proof.
  intros W H1 H2 H3 H4 H5 H6. simpl parse_value. simpl skip_ws.
  now rewrite W, H1, H2, H3, H4, H5, H6.
Qed.

Lemma append_cons (c : ascii) (a b : string) :
  String c a ++ b = String c (a ++ b).
Proof. reflexivity. Qed.

Lemma stringify_reads_back (v : json) : reads_back v.
Proof.
  induction v as [ |b|n|s|l IH|l IH] using json_induction;
    intros fuel rest S N; (destruct fuel as [|f]; [simpl in S; lia|]).
  - reflexivity.
  - destruct b; reflexivity.
  - destruct (string_of_Z_head n) as (c & t & E & O & H1 & H2 & H3 & H4 & H5 & H6).
    pose proof (parse_number_string_of_Z n rest N) as P.
    change (JSON_stringify (JNum n)) with (string_of_Z n).
    rewrite E, append_cons in *.
    unfold opens_value in O. apply andb_true_iff in O as [O _].
    apply andb_true_iff in O as [O _]. apply negb_true_iff in O.
    rewrite parse_value_number by assumption. now rewrite P.
  - change (JSON_stringify (JStr s)) with (String dquote (escape_string s ++ String dquote "")).
    rewrite append_cons, parse_value_string, append_assoc.
    change (String dquote "" ++ rest) with (String dquote rest).
    now rewrite parse_chars_escape.
  - destruct l as [|x l]; [reflexivity|].
    destruct (Forall_reads_back_head l x) as (c & t & E & O).
    change (JSON_stringify (JArr (x :: l))) with
      (String "[" (elems_text (x :: l) ++ "]")).
    rewrite append_cons, parse_value_array, append_assoc.
    change ("]" ++ rest) with (String "]" rest).
    rewrite E at 1. rewrite append_cons, skip_ws_opens by exact O.
    unfold opens_value in O. apply andb_true_iff in O as [O _].
    apply andb_true_iff in O as [_ O]. apply negb_true_iff in O. rewrite O.
    rewrite parse_elems_text; [reflexivity|exact IH|].
    simpl in S. simpl. lia.
  - destruct l as [|[k x] l]; [reflexivity|].
    change (JSON_stringify (JObj ((k, x) :: l))) with
      (String "{" (members_text ((k, x) :: l) ++ "}")).
    rewrite append_cons, parse_value_object, append_assoc.
    change ("}" ++ rest) with (String "}" rest).
    assert (E : exists t, members_text ((k, x) :: l) = String dquote t).
    { destruct l; [rewrite members_text_one|rewrite members_text_more];
        unfold member_text, quote; simpl; eauto. }
    destruct E as [t E]. rewrite E at 1.
    rewrite append_cons, skip_ws_opens by reflexivity.
    change (Ascii.eqb dquote "}") with false. cbv iota.
    rewrite parse_members_text; [reflexivity|exact IH|].
    simpl in S. simpl. lia.
Qed.

Theorem JSON_roundtrip (v : json) : JSON_parse (JSON_stringify v) = Ok v.
Proof.
  unfold JSON_parse.
  pose proof (stringify_reads_back v
    (2 * String.length (JSON_stringify v) + 2)%nat "") as R.
  rewrite append_nil_r in R. rewrite R; [reflexivity| |reflexivity].
  pose proof (jsize_le_length v). lia.
Qed.

End JsonRoundTrip.

(** ** Connection options *)

Section ConnectionOptions.
Import RedisClient.

Lemma retryStrategy_within (n : Z) :
  1 <= n <= 10 -> retryStrategy n = Some (n * 200).
Proof.
  intros H. unfold retryStrategy.
  destruct (Z.ltb_spec 10 n); [lia|].
  f_equal. lia.
Qed.

(** C8.  The reconnection delay is [min (n * 200) 5000] milliseconds for
    the attempts 1 to 10, there is no delay (retrying stops) from attempt 11
    on, and a command error triggers a reconnection exactly when its message
    contains one of READONLY, ECONNRESET, ETIMEDOUT. *)
Theorem retry_backoff_and_allow_list :
  (forall n : Z, 1 <= n <= 10 ->
     retryStrategy n = Some (Z.min (n * 200) 5000)) /\
  (forall n : Z, 10 < n -> retryStrategy n = None) /\
  (forall message : string,
     reconnectOnError message = true <->
     exists e pre post,
       (e = "READONLY" \/ e = "ECONNRESET" \/ e = "ETIMEDOUT") /\
       message = pre ++ e ++ post).
Proof.
  split; [|split].
  - intros n H. unfold retryStrategy.
    destruct (Z.ltb_spec 10 n); [lia|reflexivity].
  - intros n H. unfold retryStrategy.
    destruct (Z.ltb_spec 10 n); [reflexivity|lia].
  - intros message. unfold reconnectOnError, targetErrors. simpl.
    rewrite orb_false_r, !orb_true_iff, !includes_spec. split.
    + intros [(pre & post & E)|[(pre & post & E)|(pre & post & E)]];
        eexists _, pre, post; (split; [|exact E]); auto.
    + intros (e & pre & post & [->|[->| ->]] & E); eauto.
Qed.

Lemma retry_backoff_and_allow_list_witness :
  retryStrategy 3 = Some (Z.min (3 * 200) 5000) /\
  retryStrategy 11 = None /\
  reconnectOnError "read ECONNRESET" = true.
Proof.
  destruct retry_backoff_and_allow_list as (H1 & H2 & H3).
  split; [apply (H1 3); lia|].
  split; [apply (H2 11); lia|].
  apply (H3 "read ECONNRESET").
  exists "ECONNRESET", "read ", "". split; [auto|reflexivity].
Defined.

(** C10.  When TLS is switched on by the [rediss://] scheme or by the
    [REDIS_TLS] flag, the derived configuration has certificate verification
    off; a configuration with verification on exists only when a CA file is
    configured and was read. *)
Theorem tls_verification_policy (env : Env)
    (readFileSync : string -> option string) :
  (tls_by_scheme_or_flag env = true ->
   parseTlsConfig env readFileSync =
     Some {| ca := None; rejectUnauthorized := false |}) /\
  (forall cfg : TlsConfig,
     parseTlsConfig env readFileSync = Some cfg ->
     rejectUnauthorized cfg = true ->
     exists path bytes,
       REDIS_TLS_CA env = Some path /\ path <> "" /\
       readFileSync path = Some bytes /\ ca cfg = Some bytes /\
       tls_by_scheme_or_flag env = false).
Proof.
  unfold tls_by_scheme_or_flag, parseTlsConfig. split.
  - intros H.
    destruct (startsWith _ _); [reflexivity|]. simpl in H.
    now rewrite H.
  - intros cfg H V.
    destruct (startsWith _ _); [inversion H; subst; discriminate|]. simpl.
    destruct (env_is (REDIS_TLS env) "true" || env_is (REDIS_TLS env) "1");
      [inversion H; subst; discriminate|].
    destruct (REDIS_TLS_CA env) as [path|] eqn:E; simpl in H; [|discriminate].
    destruct path as [|c path]; simpl in H; [discriminate|].
    destruct (readFileSync _) as [bytes|] eqn:R;
      inversion H; subst; simpl in *; [|discriminate].
    exists (String c path), bytes. repeat split; congruence.
Qed.

Lemma tls_verification_policy_witness :
  let secure := mkEnv (Some "rediss://h:6379") None (Some "/ca.pem") None None None in
  let plain := mkEnv (Some "redis://h:6379") None (Some "/ca.pem") None None None in
  let fs := fun _ : string => Some "pem" in
  parseTlsConfig secure fs = Some {| ca := None; rejectUnauthorized := false |} /\
  exists path bytes,
    REDIS_TLS_CA plain = Some path /\ path <> "" /\
    fs path = Some bytes /\ Some "pem" = Some bytes /\
    tls_by_scheme_or_flag plain = false.
Proof.
  intros secure plain fs. split.
  - apply (proj1 (tls_verification_policy secure fs)). reflexivity.
  - apply (proj2 (tls_verification_policy plain fs)
             {| ca := Some "pem"; rejectUnauthorized := true |});
      reflexivity.
Defined.

End ConnectionOptions.

(** ** Connection attempts *)

Section Connection.
Import RedisClient.

Lemma settle_with_throw (e : error) (st : state) :
  settle_with (Throw e, st) =
    (Fulfilled false,
     on_finally (set_isRedisConnected false (set_redisClient None st))).
Proof. reflexivity. Qed.

(** The async function never rejects its promise. *)
Lemma settle_with_not_rejected (r : result bool * state) (e : error) :
  (settle_with r).1 <> Rejected e.
Proof. destruct r as [[b|e'|] st]; discriminate. Qed.

Lemma in_flight_step (env : Env) (p a : nat) (e : event) (st : state) :
  truthy_env (REDIS_URL env) = true ->
  settles e = false ->
  in_flight p a st ->
  in_flight p a (step env e st).2 /\
  forall r, (step env e st).1 = Some r -> r = Follows p.
Proof.
  intros U S (C & P & A).
  destruct e as [c o|q ok| | | |]; try discriminate; simpl.
  - unfold initRedisClient. rewrite U, C. simpl.
    split; [now repeat split|]. now intros r [= <-].
  - split; [now repeat split|discriminate].
  - split; [now repeat split|discriminate].
  - split; [now repeat split|discriminate].
  - split; [|discriminate]. unfold closeRedisClient.
    destruct (redisClient st); now repeat split.
Qed.

Lemma in_flight_run (env : Env) (p a : nat) (evs : list event) (st : state) :
  truthy_env (REDIS_URL env) = true ->
  forallb (fun e => negb (settles e)) evs = true ->
  in_flight p a st ->
  in_flight p a (run env evs st).2 /\
  (forall r, r ∈ (run env evs st).1 -> r = Follows p) /\
  length (run env evs st).1 =
    length (List.filter (fun e => match e with Call _ _ => true | _ => false end) evs).
Proof.
  intros U. revert st. induction evs as [|e evs IH]; intros st S F; simpl.
  - split; [exact F|]. split; [|reflexivity]. intros r H. inversion H.
  - simpl in S. apply andb_true_iff in S as [Se S].
    apply negb_true_iff in Se.
    destruct (in_flight_step env p a e st U Se F) as [F1 R1].
    destruct (step env e st) as [r st1] eqn:E1. simpl in F1, R1.
    destruct (IH st1 S F1) as (F2 & R2 & L2).
    destruct (run env evs st1) as [rs st2] eqn:E2. simpl in *.
    split; [exact F2|]. split.
    + intros x Hx. destruct r as [r|]; [|now apply R2].
      apply elem_of_cons in Hx as [->|Hx]; [now apply R1|now apply R2].
    + destruct e; simpl in *; inversion E1; subst; simpl; try exact L2.
      destruct (initRedisClient env config_ok open_ok st) as [r' st'].
      inversion H0; subst. simpl. now rewrite L2.
Qed.

Lemma ping_settles_in_flight (p a : nat) (ping_ok : bool) (st : state) :
  in_flight p a st ->
  let st' := ping_settles p ping_ok st in
  promises st' !! p = Some (Fulfilled ping_ok) /\
  connectionPromise st' = None /\ attempts st' = a /\
  (ping_ok = false -> redisClient st' = None /\ isRedisConnected st' = false) /\
  (ping_ok = true -> redisClient st' = redisClient st /\ isRedisConnected st' = true).
Proof.
  intros (C & P & A). unfold ping_settles. rewrite P.
  assert (L : (p < length (promises st))%nat) by (eapply lookup_lt_Some; eauto).
  destruct ping_ok; simpl.
  - rewrite list_lookup_insert_eq by exact L. repeat split; auto; discriminate.
  - rewrite list_lookup_insert_eq by exact L. repeat split; auto; discriminate.
Qed.

(** The first call of a fresh attempt that reaches its probe. *)
Lemma initRedisClient_starts (env : Env) (st : state) :
  truthy_env (REDIS_URL env) = true ->
  connectionPromise st = None ->
  let p := length (promises st) in
  let '(r, st1) := initRedisClient env true true st in
  r = Follows p /\ in_flight p (S (attempts st)) st1 /\
  redisClient st1 = Some (attempts st).
Proof.
  intros U C. unfold initRedisClient. rewrite U, C. simpl.
  split; [reflexivity|]. split; [|reflexivity].
  repeat split. simpl.
  rewrite lookup_app_r by lia. now rewrite Nat.sub_diag.
Qed.

Lemma single_flight_step (env : Env) (e : event) (st : state) :
  single_flight st -> single_flight (step env e st).2.
Proof.
  intros I. destruct e as [c o|p ok| | | |]; simpl; try exact I.
  - unfold initRedisClient.
    destruct (truthy_env (REDIS_URL env)); simpl; [|exact I].
    destruct (connectionPromise st) as [p|] eqn:C; simpl; [exact I|].
    assert (N : forall q, promises st !! q <> Some Pending).
    { intros q H. specialize (I q H). congruence. }
    unfold attempt_begin. destruct c, o; simpl; intros q H; simpl in H |- *.
    all: destruct (decide (q < length (promises st))%nat) as [L|L];
      [rewrite lookup_app_l in H by exact L; now apply N in H|].
    all: rewrite lookup_app_r in H by lia.
    all: destruct (q - length (promises st))%nat as [|k] eqn:K;
      simpl in H; try discriminate.
    f_equal. lia.
  - unfold ping_settles.
    destruct (promises st !! p) as [[| |]|] eqn:P; try exact I.
    pose proof (I p P) as C.
    assert (L : (p < length (promises st))%nat) by (eapply lookup_lt_Some; eauto).
    destruct ok; simpl; intros q H; simpl in H |- *.
    all: destruct (decide (p = q)) as [->|Hne];
      [rewrite list_lookup_insert_eq in H by exact L; discriminate|].
    all: rewrite list_lookup_insert_ne in H by exact Hne.
    all: specialize (I q H); congruence.
  - unfold closeRedisClient. destruct (redisClient st); exact I.
Qed.

(** X1.  Whatever calls and events have occurred since the module was
    loaded, at most one attempt is in flight: a pending promise is the
    published one. *)
Lemma single_flight_reachable (env : Env) (evs : list event) :
  single_flight (run env evs initial).2.
Proof.
  assert (G : forall st, single_flight st -> single_flight (run env evs st).2).
  { induction evs as [|e evs IH]; intros st I; simpl; [exact I|].
    pose proof (single_flight_step env e st I) as I1.
    destruct (step env e st) as [r st1]. simpl in I1.
    specialize (IH st1 I1). destruct (run env evs st1) as [rs st2].
    exact IH. }
  apply G. intros q H. destruct q; discriminate.
Qed.

Lemma never_rejected_step (env : Env) (e : event) (st : state) :
  never_rejected st -> never_rejected (step env e st).2.
Proof.
  intros I. destruct e as [c o|p ok| | | |]; simpl; try exact I.
  - unfold initRedisClient.
    destruct (truthy_env (REDIS_URL env)); simpl; [|exact I].
    destruct (connectionPromise st) as [p|] eqn:C; simpl; [exact I|].
    unfold attempt_begin. destruct c, o; simpl; intros q x H; simpl in H.
    all: destruct (decide (q < length (promises st))%nat) as [L|L];
      [rewrite lookup_app_l in H by exact L; now apply I in H|].
    all: rewrite lookup_app_r in H by lia.
    all: destruct (q - length (promises st))%nat as [|k];
      simpl in H; discriminate.
  - unfold ping_settles.
    destruct (promises st !! p) as [[| |]|] eqn:P; try exact I.
    assert (L : (p < length (promises st))%nat) by (eapply lookup_lt_Some; eauto).
    destruct ok; simpl; intros q x H; simpl in H.
    all: destruct (decide (p = q)) as [->|Hne];
      [rewrite list_lookup_insert_eq in H by exact L; discriminate|].
    all: rewrite list_lookup_insert_ne in H by exact Hne.
    all: now apply I in H.
  - unfold closeRedisClient. destruct (redisClient st); exact I.
Qed.

(** X2.  Whatever calls and events have occurred since the module was
    loaded, no promise handed out by [initRedisClient] is rejected. *)
Lemma never_rejected_reachable (env : Env) (evs : list event) :
  never_rejected (run env evs initial).2.
Proof.
  assert (G : forall st, never_rejected st -> never_rejected (run env evs st).2).
  { induction evs as [|e evs IH]; intros st I; simpl; [exact I|].
    pose proof (never_rejected_step env e st I) as I1.
    destruct (step env e st) as [r st1]. simpl in I1.
    specialize (IH st1 I1). destruct (run env evs st1) as [rs st2].
    exact IH. }
  apply G. intros q e H. destruct q; discriminate.
Qed.

(** An attempt that throws before it reaches the probe leaves its settled
    promise published: [finally] runs before the assignment.  Later calls
    are handed that promise and build no client. *)
Lemma initRedisClient_after_early_failure (env : Env)
    (open_ok c o : bool) (st : state) :
  truthy_env (REDIS_URL env) = true ->
  connectionPromise st = None ->
  let p := length (promises st) in
  let '(_, st1) := initRedisClient env false open_ok st in
  let '(r, st2) := initRedisClient env c o st1 in
  connectionPromise st1 = Some p /\ r = Follows p /\ st2 = st1 /\
  outcome r st2 = Some false.
Proof.
  intros U C. unfold initRedisClient. rewrite U, C. simpl.
  repeat split. rewrite lookup_app_r by lia. now rewrite Nat.sub_diag.
Qed.

(** C6.  A call of [initRedisClient] that starts an attempt in which an
    exception is raised (while configuring, while opening the connection or
    by the probe) hands its caller a promise that is fulfilled with [false],
    never rejected; when it is settled the client handle is [None] and the
    connected flag is [false], so that the store is reported unavailable.
    This holds whatever calls and client events occur while the probe is
    awaited. *)
Theorem initRedisClient_fails_closed (env : Env)
    (config_ok open_ok ping_ok : bool) (between : list event) (st : state) :
  truthy_env (REDIS_URL env) = true ->
  connectionPromise st = None ->
  config_ok && open_ok && ping_ok = false ->
  forallb (fun e => negb (settles e)) between = true ->
  let p := length (promises st) in
  let '(r, st1) := initRedisClient env config_ok open_ok st in
  let settled :=
    if config_ok && open_ok
    then ping_settles p ping_ok (run env between st1).2
    else st1 in
  r = Follows p /\
  promises settled !! p = Some (Fulfilled false) /\
  outcome r settled = Some false /\
  redisClient settled = None /\
  isRedisConnected settled = false /\
  isRedisAvailable settled = false.
Proof.
  intros U C X S p.
  destruct config_ok, open_ok; simpl in X; subst.
  - pose proof (initRedisClient_starts env st U C) as H.
    destruct (initRedisClient env true true st) as [r st1].
    destruct H as (-> & F & _). simpl.
    destruct (in_flight_run env p _ between st1 U S F) as (F2 & _ & _).
    destruct (ping_settles_in_flight p _ false _ F2) as (P & _ & _ & N & _).
    destruct (N eq_refl) as [N1 N2]. fold p.
    unfold isRedisAvailable. now rewrite P, N1, N2.
  - unfold initRedisClient. rewrite U, C. simpl. fold p.
    rewrite lookup_app_r by lia. rewrite Nat.sub_diag. now simpl.
  - unfold initRedisClient. rewrite U, C. simpl. fold p.
    rewrite lookup_app_r by lia. rewrite Nat.sub_diag. now simpl.
  - unfold initRedisClient. rewrite U, C. simpl. fold p.
    rewrite lookup_app_r by lia. rewrite Nat.sub_diag. now simpl.
Qed.

Lemma initRedisClient_fails_closed_witness :
  let '(r, st1) := initRedisClient sample_env true true initial in
  let settled := ping_settles 0 false (run sample_env [Call true true; OnReady] st1).2 in
  r = Follows 0 /\
  promises settled !! 0%nat = Some (Fulfilled false) /\
  outcome r settled = Some false /\
  redisClient settled = None /\
  isRedisConnected settled = false /\
  isRedisAvailable settled = false.
Proof.
  apply (initRedisClient_fails_closed sample_env true true false
           [Call true true; OnReady] initial); reflexivity.
Defined.

(** C7.  Callers that enter [initRedisClient] while an attempt is in flight
    (any number of them, interleaved with client events) are all handed the
    promise of that attempt: no further client is built, the promise stays
    published until the probe settles and is cleared then, and every caller,
    the first included, receives the boolean the probe settled with. *)
Theorem concurrent_callers_share_one_attempt (env : Env)
    (between : list event) (ping_ok : bool) (st : state) :
  truthy_env (REDIS_URL env) = true ->
  connectionPromise st = None ->
  forallb (fun e => negb (settles e)) between = true ->
  let p := length (promises st) in
  let '(r0, st1) := initRedisClient env true true st in
  let '(rs, st2) := run env between st1 in
  let st3 := ping_settles p ping_ok st2 in
  length rs =
    length (List.filter
              (fun e => match e with Call _ _ => true | _ => false end) between) /\
  (forall r, r ∈ r0 :: rs -> r = Follows p) /\
  attempts st1 = S (attempts st) /\
  attempts st2 = S (attempts st) /\
  attempts st3 = S (attempts st) /\
  connectionPromise st2 = Some p /\
  connectionPromise st3 = None /\
  (forall r, r ∈ r0 :: rs -> outcome r st3 = Some ping_ok).
Proof.
  intros U C S p.
  pose proof (initRedisClient_starts env st U C) as H.
  destruct (initRedisClient env true true st) as [r0 st1].
  destruct H as (-> & F & _).
  pose proof (in_flight_run env p _ between st1 U S F) as H.
  destruct (run env between st1) as [rs st2]. simpl in H.
  destruct H as (F2 & R & L).
  destruct (ping_settles_in_flight p _ ping_ok _ F2) as (P & CP & A & _).
  assert (All : forall r, r ∈ Follows p :: rs -> r = Follows p).
  { intros r Hr. apply elem_of_cons in Hr as [->|Hr]; auto. }
  repeat split; auto.
  - apply F.
  - apply F2.
  - apply F2.
  - intros r Hr. rewrite (All r Hr). simpl. fold p. now rewrite P.
Qed.

Lemma concurrent_callers_share_one_attempt_witness :
  let '(r0, st1) := initRedisClient sample_env true true initial in
  let '(rs, st2) :=
    run sample_env [Call true true; OnReady; Call false true; OnError; Call true false] st1 in
  let st3 := ping_settles 0 true st2 in
  length rs = 3%nat /\
  (forall r, r ∈ r0 :: rs -> r = Follows 0) /\
  attempts st1 = 1%nat /\
  attempts st2 = 1%nat /\
  attempts st3 = 1%nat /\
  connectionPromise st2 = Some 0%nat /\
  connectionPromise st3 = None /\
  (forall r, r ∈ r0 :: rs -> outcome r st3 = Some true).
Proof.
  apply (concurrent_callers_share_one_attempt sample_env
           [Call true true; OnReady; Call false true; OnError; Call true false]
           true initial); reflexivity.
Defined.

End Connection.

(** ** Running the operations *)

Lemma remote_command_healthy {A} (cmd : M A) (w : World) :
  faults w = [] -> remote_command cmd w = cmd w.
Proof. intros H. unfold remote_command. now rewrite H. Qed.

Lemma remote_command_fault {A} (cmd : M A) (fs : list bool) (w : World) :
  faults w = true :: fs ->
  remote_command cmd w = (Throw RedisError, set_faults fs w).
Proof. intros H. unfold remote_command. now rewrite H. Qed.

Lemma get_on_fallback (k : string) (w : World) :
  using_remote w = false ->
  Cache.get k w = Cache.read_memory (Cache.CACHE_PREFIX ++ k) w.
Proof.
  intros H. unfold Cache.get, bind, redis_in_use. now rewrite H.
Qed.

(** The remote read of [get] when the command answers. *)
Lemma get_on_remote (k : string) (w : World) :
  using_remote w = true -> faults w = [] ->
  Cache.get k w =
    match Cache.parse_if_data (remote_lookup (Cache.CACHE_PREFIX ++ k) w) w with
    | (Ok v, w') => (Ok v, w')
    | (Throw _, w') => Cache.read_memory (Cache.CACHE_PREFIX ++ k) w'
    | (Unmodelled, w') => (Unmodelled, w')
    end.
Proof.
  intros H F. unfold Cache.get, bind, redis_in_use, try_catch, client_get.
  rewrite H, remote_command_healthy by exact F. simpl.
  destruct (Cache.parse_if_data _ w) as [[v|e|] w']; reflexivity.
Qed.

Lemma parse_if_data_world (data : option string) (w : World) :
  (Cache.parse_if_data data w).2 = w.
Proof.
  unfold Cache.parse_if_data.
  destruct data as [d|]; [|reflexivity]. now destruct (truthy_str d).
Qed.

Lemma read_memory_missing (fullKey : string) (w : World) :
  memoryCache w !! fullKey = None ->
  Cache.read_memory fullKey w = (Ok JNull, w).
Proof.
  intros H. unfold Cache.read_memory, bind, Cache.memoryCache_get.
  now rewrite H.
Qed.

Lemma read_memory_expired (fullKey : string) (e : CacheEntry) (w : World) :
  memoryCache w !! fullKey = Some e -> expiresAt e < now w ->
  Cache.read_memory fullKey w =
    (Ok JNull, set_memoryCache (delete fullKey (memoryCache w)) w).
Proof.
  intros H L. unfold Cache.read_memory, bind, Cache.memoryCache_get, Date_now.
  rewrite H. destruct (Z.ltb_spec (expiresAt e) (now w)); [reflexivity|lia].
Qed.

Lemma read_memory_live (fullKey : string) (e : CacheEntry) (w : World) :
  memoryCache w !! fullKey = Some e -> now w <= expiresAt e ->
  Cache.read_memory fullKey w = (JSON_parse (value e), w).
Proof.
  intros H L. unfold Cache.read_memory, bind, Cache.memoryCache_get, Date_now.
  rewrite H. destruct (Z.ltb_spec (expiresAt e) (now w)); [lia|reflexivity].
Qed.

Lemma JSON_parse_empty : JSON_parse "" = Throw SyntaxError.
Proof. reflexivity. Qed.

Lemma truthy_str_nonempty (s : string) : s <> "" -> truthy_str s = true.
Proof. now destruct s. Qed.

Lemma get_field_not_falsy (name : string) (s x : json) :
  get_field name s = Some x -> falsy s = false.
Proof. destruct s; simpl; try discriminate. reflexivity. Qed.

(** [validateSession] on the fallback map. *)
Lemma validateSession_on_fallback (token : string) (w : World) :
  using_remote w = false -> token <> "" ->
  Session.validateSession token w =
    match memorySessions w !! token with
    | None => (Ok JNull, w)
    | Some s =>
        if falsy s then (Ok JNull, w)
        else
          match Session.expired (now w) s with
          | Ok true =>
              (Ok JNull, set_memorySessions (delete token (memorySessions w)) w)
          | Ok false => (Ok s, w)
          | Throw e => (Throw e, w)
          | Unmodelled => (Unmodelled, w)
          end
    end.
Proof.
  intros H T. unfold Session.validateSession.
  rewrite (truthy_str_nonempty _ T). simpl.
  unfold bind, redis_in_use, Session.memorySessions_get. rewrite H.
  destruct (memorySessions w !! token) as [s|]; [|reflexivity].
  destruct (falsy s); [reflexivity|].
  unfold Date_now, lift.
  destruct (Session.expired (now w) s) as [[|]|e|]; try reflexivity.
  unfold Session.destroySession, bind, redis_in_use. now rewrite H.
Qed.

(** [validateSession] on the remote store when its commands answer. *)
Lemma validateSession_on_remote (token : string) (w : World) :
  using_remote w = true -> faults w = [] -> token <> "" ->
  Session.validateSession token w =
    match Cache.parse_if_data
            (remote_lookup (Session.SESSION_PREFIX ++ token) w) w with
    | (Ok s, _) =>
        if falsy s then (Ok JNull, w)
        else
          match Session.expired (now w) s with
          | Ok true =>
              (Ok JNull,
               set_remote
                 (delete (Session.SESSION_PREFIX ++ token) (remote w)) w)
          | Ok false => (Ok s, w)
          | Throw e => (Throw e, w)
          | Unmodelled => (Unmodelled, w)
          end
    | (Throw e, _) => (Throw e, w)
    | (Unmodelled, _) => (Unmodelled, w)
    end.
Proof.
  intros H F T. unfold Session.validateSession.
  rewrite (truthy_str_nonempty _ T). simpl.
  unfold bind, redis_in_use, client_get. rewrite H.
  rewrite remote_command_healthy by exact F.
  pose proof (parse_if_data_world
                (remote_lookup (Session.SESSION_PREFIX ++ token) w) w) as W.
  destruct (Cache.parse_if_data _ w) as [[s|e|] w']; simpl in W; subst w';
    try reflexivity.
  simpl. destruct (falsy s); [reflexivity|].
  unfold Date_now, lift.
  destruct (Session.expired (now w) s) as [[|]|e|]; try reflexivity.
  unfold Session.destroySession, bind, redis_in_use, client_del.
  rewrite H, remote_command_healthy by exact F. reflexivity.
Qed.

(** ** Expiry *)

Lemma expired_numeric (t e : Z) (s : json) :
  get_field "expiresAt" s = Some (JNum e) ->
  Session.expired t s = Ok (e <? t).
Proof. intros H. unfold Session.expired. now rewrite H. Qed.

(** A session that [validateSession] returns has not passed its own expiry
    timestamp, on either backend and whatever the remote commands do. *)
Lemma validateSession_returns_live (token : string) (v : json) (e : Z)
    (w w' : World) :
  Session.validateSession token w = (Ok v, w') ->
  get_field "expiresAt" v = Some (JNum e) ->
  now w <= e.
Proof.
  unfold Session.validateSession.
  destruct (truthy_str token); simpl;
    [|intros [= <- <-]; discriminate].
  unfold bind, redis_in_use.
  assert (K : forall (s : json) (w1 : World),
             now w1 = now w ->
             (if falsy s then ret JNull
              else do t <- Date_now ;;
                   do is_expired <- lift (Session.expired t s) ;;
                   if is_expired : bool
                   then (perform Session.destroySession token ;; ret JNull)
                   else ret s) w1 = (Ok v, w') ->
             get_field "expiresAt" v = Some (JNum e) -> now w <= e).
  { intros s w1 N R G. destruct (falsy s).
    - inversion R; subst. discriminate.
    - unfold bind, Date_now, lift in R.
      destruct (Session.expired (now w1) s) as [[|]|x|] eqn:X;
        try discriminate.
      + destruct (Session.destroySession token w1) as [[u|x|] w2];
          inversion R; subst; discriminate.
      + inversion R; subst.
        rewrite (expired_numeric _ _ _ G) in X.
        injection X as X. apply Z.ltb_ge in X. lia. }
  destruct (using_remote w).
  - unfold client_get, remote_command.
    destruct (faults w) as [|[|] fs]; try discriminate.
    + destruct (Cache.parse_if_data _ w) as [[s|x|] w1] eqn:P;
        try discriminate.
      pose proof (parse_if_data_world
        (remote_lookup (Session.SESSION_PREFIX ++ token) w) w) as W.
      rewrite P in W. simpl in W. subst w1. simpl. now apply K.
    + set (w0 := set_faults fs w).
      destruct (Cache.parse_if_data _ w0) as [[s|x|] w1] eqn:P;
        try discriminate.
      pose proof (parse_if_data_world
        (remote_lookup (Session.SESSION_PREFIX ++ token) w0) w0) as W.
      rewrite P in W. simpl in W. subst w1. simpl. now apply K.
  - unfold Session.memorySessions_get.
    destruct (memorySessions w !! token) as [s|];
      [now apply K|intros [= <- <-]; discriminate].
Qed.

(** C2 (as the code has it).  An entry whose expiry timestamp lies strictly
    before the clock is absent: [get] on the fallback map and
    [validateSession] on either backend return [null] and remove it.  A
    value is returned only while the clock has not passed the expiry
    timestamp. *)
Theorem expired_entries_are_absent :
  (forall (k : string) (e : CacheEntry) (w : World),
     using_remote w = false ->
     memoryCache w !! (Cache.CACHE_PREFIX ++ k) = Some e ->
     expiresAt e < now w ->
     Cache.get k w =
       (Ok JNull,
        set_memoryCache (delete (Cache.CACHE_PREFIX ++ k) (memoryCache w)) w)) /\
  (forall (token : string) (s : json) (e : Z) (w : World),
     using_remote w = false -> token <> "" ->
     memorySessions w !! token = Some s ->
     get_field "expiresAt" s = Some (JNum e) ->
     e < now w ->
     Session.validateSession token w =
       (Ok JNull, set_memorySessions (delete token (memorySessions w)) w)) /\
  (forall (token d : string) (s : json) (e : Z) (w : World),
     using_remote w = true -> faults w = [] -> token <> "" ->
     remote_lookup (Session.SESSION_PREFIX ++ token) w = Some d ->
     JSON_parse d = Ok s ->
     get_field "expiresAt" s = Some (JNum e) ->
     e < now w ->
     Session.validateSession token w =
       (Ok JNull,
        set_remote (delete (Session.SESSION_PREFIX ++ token) (remote w)) w)) /\
  (forall (k : string) (v : json) (w w' : World),
     using_remote w = false ->
     Cache.get k w = (Ok v, w') -> v <> JNull ->
     exists e, memoryCache w !! (Cache.CACHE_PREFIX ++ k) = Some e /\
               now w <= expiresAt e /\ JSON_parse (value e) = Ok v /\ w' = w) /\
  (forall (token : string) (v : json) (e : Z) (w w' : World),
     Session.validateSession token w = (Ok v, w') ->
     get_field "expiresAt" v = Some (JNum e) ->
     now w <= e).
Proof.
  split; [|split; [|split; [|split]]].
  - intros k e w U H L. rewrite get_on_fallback by exact U.
    now apply read_memory_expired with e.
  - intros token s e w U T H G L.
    rewrite validateSession_on_fallback, H by assumption.
    rewrite (get_field_not_falsy _ _ _ G), (expired_numeric _ _ _ G).
    destruct (Z.ltb_spec e (now w)); [reflexivity|lia].
  - intros token d s e w U F T H P G L.
    rewrite validateSession_on_remote, H by assumption.
    assert (D : d <> "") by (intros ->; now rewrite JSON_parse_empty in P).
    unfold Cache.parse_if_data. rewrite (truthy_str_nonempty _ D).
    unfold lift. rewrite P.
    rewrite (get_field_not_falsy _ _ _ G), (expired_numeric _ _ _ G).
    destruct (Z.ltb_spec e (now w)); [reflexivity|lia].
  - intros k v w w' U R N. rewrite get_on_fallback in R by exact U.
    destruct (memoryCache w !! (Cache.CACHE_PREFIX ++ k)) as [e|] eqn:H.
    + destruct (Z.lt_ge_cases (expiresAt e) (now w)) as [L|L].
      * rewrite (read_memory_expired _ _ _ H L) in R.
        inversion R; subst. now destruct N.
      * rewrite (read_memory_live _ _ _ H L) in R.
        inversion R; subst. exists e. repeat split; auto.
    + rewrite (read_memory_missing _ _ H) in R.
      inversion R; subst. now destruct N.
  - apply validateSession_returns_live.
Qed.

(** The claim C2 as stated fails at the boundary: at the very instant of its
    expiry timestamp an entry is still returned and stays in the map. *)
Lemma get_at_expiry_instant_returns_value :
  let e := {| value := "1"; expiresAt := 1000 |} in
  let w := set_memoryCache {[ "cache:k" := e ]} (world_at offline 1000) in
  using_remote w = false /\
  memoryCache w !! (Cache.CACHE_PREFIX ++ "k") = Some e /\
  expiresAt e <= now w /\
  (Cache.get "k" w).1 = Ok (JNum 1) /\
  memoryCache (Cache.get "k" w).2 !! (Cache.CACHE_PREFIX ++ "k") = Some e.
Proof. vm_compute. repeat split; congruence. Qed.

Lemma expired_entries_are_absent_witness :
  let e := {| value := "1"; expiresAt := 1000 |} in
  let w := set_memoryCache {[ "cache:k" := e ]} (world_at offline 1001) in
  let s := Session.session_record "admin" 0 1000 in
  let ws := set_memorySessions {[ "session_ab" := s ]} (world_at offline 1001) in
  let wr :=
    set_remote {[ "session:session_ab" := (JSON_stringify s, 5000) ]}
      (world_at online 1001) in
  Cache.get "k" w =
    (Ok JNull,
     set_memoryCache (delete (Cache.CACHE_PREFIX ++ "k") (memoryCache w)) w) /\
  Session.validateSession "session_ab" ws =
    (Ok JNull,
     set_memorySessions (delete "session_ab" (memorySessions ws)) ws) /\
  Session.validateSession "session_ab" wr =
    (Ok JNull,
     set_remote (delete (Session.SESSION_PREFIX ++ "session_ab") (remote wr)) wr).
Proof.
  intros e w s ws wr.
  destruct expired_entries_are_absent as (H1 & H2 & H3 & _).
  split; [|split].
  - apply (H1 "k" e w); [reflexivity|reflexivity|reflexivity].
  - apply (H2 "session_ab" s 1000 ws);
      [reflexivity|discriminate|reflexivity|reflexivity|reflexivity].
  - apply (H3 "session_ab" (JSON_stringify s) s 1000 wr);
      [reflexivity|reflexivity|discriminate|reflexivity|reflexivity
      |reflexivity|reflexivity].
Defined.

(** ** Malformed payloads *)

(** C5 (as the code has it).  A stored payload that [JSON.parse] rejects
    makes [get] throw on the fallback path, the empty payload included (the
    last part).  A payload of the remote store that is not empty and that
    [JSON.parse] rejects makes [validateSession] throw; on the remote path
    of [get] the exception is raised inside the [try] block: it is caught,
    and [get] goes on with the read of the fallback map.  An empty payload
    of the remote store is taken for an absent one by [get] and by
    [validateSession]: both return [null]. *)
Theorem malformed_payloads :
  (forall (k : string) (e : CacheEntry) (w : World),
     using_remote w = false ->
     memoryCache w !! (Cache.CACHE_PREFIX ++ k) = Some e ->
     now w <= expiresAt e ->
     JSON_parse (value e) = Throw SyntaxError ->
     Cache.get k w = (Throw SyntaxError, w)) /\
  (forall (token d : string) (w : World),
     using_remote w = true -> faults w = [] -> token <> "" ->
     remote_lookup (Session.SESSION_PREFIX ++ token) w = Some d ->
     d <> "" ->
     JSON_parse d = Throw SyntaxError ->
     Session.validateSession token w = (Throw SyntaxError, w)) /\
  (forall (k d : string) (w : World),
     using_remote w = true -> faults w = [] ->
     remote_lookup (Cache.CACHE_PREFIX ++ k) w = Some d ->
     d <> "" ->
     JSON_parse d = Throw SyntaxError ->
     Cache.get k w = Cache.read_memory (Cache.CACHE_PREFIX ++ k) w) /\
  (forall (k : string) (w : World),
     using_remote w = true -> faults w = [] ->
     remote_lookup (Cache.CACHE_PREFIX ++ k) w = Some "" ->
     Cache.get k w = (Ok JNull, w)) /\
  (forall (token : string) (w : World),
     using_remote w = true -> faults w = [] -> token <> "" ->
     remote_lookup (Session.SESSION_PREFIX ++ token) w = Some "" ->
     Session.validateSession token w = (Ok JNull, w)) /\
  (forall (k : string) (e : CacheEntry) (w : World),
     using_remote w = false ->
     memoryCache w !! (Cache.CACHE_PREFIX ++ k) = Some e ->
     now w <= expiresAt e ->
     value e = "" ->
     Cache.get k w = (Throw SyntaxError, w)).
Proof.
  split; [|split; [|split; [|split; [|split]]]].
  - intros k e w U H L P. rewrite get_on_fallback by exact U.
    rewrite (read_memory_live _ _ _ H L). now rewrite P.
  - intros token d w U F T H D P.
    rewrite validateSession_on_remote, H by assumption.
    unfold Cache.parse_if_data. rewrite (truthy_str_nonempty _ D).
    unfold lift. now rewrite P.
  - intros k d w U F H D P.
    rewrite get_on_remote, H by assumption.
    unfold Cache.parse_if_data. rewrite (truthy_str_nonempty _ D).
    unfold lift. now rewrite P.
  - intros k w U F H. rewrite get_on_remote, H by assumption. reflexivity.
  - intros token w U F T H.
    rewrite validateSession_on_remote, H by assumption. reflexivity.
  - intros k e w U H L E. rewrite get_on_fallback by exact U.
    rewrite (read_memory_live _ _ _ H L). now rewrite E, JSON_parse_empty.
Qed.

(** The claim C5 as stated fails on the remote path of [get]: a malformed
    payload in the remote store is swallowed and [get] returns [null]. *)
Lemma get_swallows_malformed_remote_payload :
  let w := set_remote {[ "cache:k" := ("{", 5000) ]} (world_at online 1000) in
  using_remote w = true /\
  remote_lookup (Cache.CACHE_PREFIX ++ "k") w = Some "{" /\
  JSON_parse "{" = Throw SyntaxError /\
  Cache.get "k" w = (Ok JNull, w).
Proof. vm_compute. repeat split. Qed.

Lemma malformed_payloads_witness :
  let wm :=
    set_memoryCache {[ "cache:k" := {| value := "{"; expiresAt := 5000 |} ]}
      (world_at offline 1000) in
  let ws := set_remote {[ "session:t" := ("[1,", 5000) ]} (world_at online 1000) in
  let wr := set_remote {[ "cache:k" := ("{", 5000) ]} (world_at online 1000) in
  let we :=
    set_remote {[ "cache:k" := ("", 5000); "session:t" := ("", 5000) ]}
      (world_at online 1000) in
  let wf :=
    set_memoryCache {[ "cache:k" := {| value := ""; expiresAt := 5000 |} ]}
      (world_at offline 1000) in
  Cache.get "k" wm = (Throw SyntaxError, wm) /\
  Session.validateSession "t" ws = (Throw SyntaxError, ws) /\
  Cache.get "k" wr = Cache.read_memory (Cache.CACHE_PREFIX ++ "k") wr /\
  Cache.get "k" we = (Ok JNull, we) /\
  Session.validateSession "t" we = (Ok JNull, we) /\
  Cache.get "k" wf = (Throw SyntaxError, wf).
Proof.
  intros wm ws wr we wf.
  destruct malformed_payloads as (H1 & H2 & H3 & H4 & H5 & H6).
  split; [|split; [|split; [|split; [|split]]]].
  - apply (H1 "k" {| value := "{"; expiresAt := 5000 |} wm);
      [reflexivity|reflexivity|discriminate|reflexivity].
  - apply (H2 "t" "[1," ws);
      [reflexivity|reflexivity|discriminate|reflexivity|discriminate
      |reflexivity].
  - apply (H3 "k" "{" wr);
      [reflexivity|reflexivity|reflexivity|discriminate|reflexivity].
  - apply (H4 "k" we); reflexivity.
  - apply (H5 "t" we); [reflexivity|reflexivity|discriminate|reflexivity].
  - apply (H6 "k" {| value := ""; expiresAt := 5000 |} wf);
      [reflexivity|reflexivity|discriminate|reflexivity].
Defined.

(** ** Writing and reading back *)

Section WriteThenRead.

#[local] Arguments String.append !_ _ / : simpl nomatch.

Lemma set_on_fallback (k : string) (v : json) (ttl : option Z) (w : World) :
  using_remote w = false ->
  Cache.set k v ttl w =
    (Ok true,
     set_memoryCache
       (<[Cache.CACHE_PREFIX ++ k :=
            {| value := JSON_stringify v;
               expiresAt := now w + default Cache.DEFAULT_TTL ttl * 1000 |}]>
          (memoryCache w)) w).
Proof.
  intros U. unfold Cache.set, bind, redis_in_use. now rewrite U.
Qed.

Lemma set_on_remote (k : string) (v : json) (ttl : option Z) (w : World) :
  using_remote w = true -> faults w = [] ->
  0 < default Cache.DEFAULT_TTL ttl ->
  Cache.set k v ttl w =
    (Ok true,
     set_remote
       (<[Cache.CACHE_PREFIX ++ k :=
            (JSON_stringify v, now w + default Cache.DEFAULT_TTL ttl * 1000)]>
          (remote w)) w).
Proof.
  intros U F T.
  unfold Cache.set, bind, redis_in_use, try_catch, client_setex.
  rewrite U, remote_command_healthy by exact F.
  destruct (Z.leb_spec (default Cache.DEFAULT_TTL ttl) 0); [lia|reflexivity].
Qed.

Lemma stringify_nonempty (v : json) : JSON_stringify v <> "".
Proof.
  destruct (stringify_head v) as (c & t & E & _). rewrite E. discriminate.
Qed.

Lemma parse_if_data_stringify (v : json) (w : World) :
  Cache.parse_if_data (Some (JSON_stringify v)) w = (Ok v, w).
Proof.
  unfold Cache.parse_if_data.
  rewrite (truthy_str_nonempty _ (stringify_nonempty v)).
  unfold lift. now rewrite JSON_roundtrip.
Qed.

(** The entry [set] writes is read back by [get] during its lifetime. *)
Lemma get_after_set (k : string) (v : json) (ttl : option Z) (dt : Z)
    (w : World) :
  0 <= dt <= default Cache.DEFAULT_TTL ttl * 1000 ->
  (using_remote w = true ->
   faults w = [] /\ 0 < default Cache.DEFAULT_TTL ttl) ->
  (Cache.set k v ttl w).1 = Ok true /\
  (Cache.get k (advance dt (Cache.set k v ttl w).2)).1 = Ok v.
Proof.
  intros D R. destruct (using_remote w) eqn:U.
  - destruct (R eq_refl) as [F T].
    rewrite set_on_remote by assumption. split; [reflexivity|].
    rewrite get_on_remote by assumption.
    unfold remote_lookup. simpl remote. rewrite lookup_insert_eq.
    unfold visible. simpl.
    destruct (Z.leb_spec (now w + dt)
                (now w + default Cache.DEFAULT_TTL ttl * 1000)); [|lia].
    now rewrite parse_if_data_stringify.
  - rewrite set_on_fallback by assumption. split; [reflexivity|].
    rewrite get_on_fallback by assumption.
    erewrite read_memory_live;
      [|simpl; apply lookup_insert_eq|simpl; lia].
    simpl. now rewrite JSON_roundtrip.
Qed.

(** X3.  Once the lifetime has elapsed the entry is absent, on both backends. *)
Lemma get_after_ttl_elapsed (k : string) (v : json) (ttl : option Z) (dt : Z)
    (w : World) :
  default Cache.DEFAULT_TTL ttl * 1000 < dt ->
  (using_remote w = true ->
   faults w = [] /\ 0 < default Cache.DEFAULT_TTL ttl) ->
  (Cache.get k (advance dt (Cache.set k v ttl w).2)).1 = Ok JNull.
Proof.
  intros D R. destruct (using_remote w) eqn:U.
  - destruct (R eq_refl) as [F T].
    rewrite set_on_remote by assumption.
    rewrite get_on_remote by assumption.
    unfold remote_lookup. simpl remote. rewrite lookup_insert_eq.
    unfold visible. simpl.
    destruct (Z.leb_spec (now w + dt)
                (now w + default Cache.DEFAULT_TTL ttl * 1000)); [lia|].
    reflexivity.
  - rewrite set_on_fallback by assumption.
    rewrite get_on_fallback by assumption.
    erewrite read_memory_expired;
      [reflexivity|simpl; apply lookup_insert_eq|simpl; lia].
Qed.

(** C1 (as the code has it).  [set(k, v, ttl)] returns [true], and a [get(k)]
    that follows within the lifetime of the entry ([dt] milliseconds later,
    at once when [dt = 0]) returns [v]: on the fallback map for every
    [ttl >= 0], on the remote store for every [ttl > 0] when its commands
    answer. *)
Theorem set_then_get (k : string) (v : json) (ttl : option Z) (dt : Z)
    (w : World) :
  0 <= dt <= default Cache.DEFAULT_TTL ttl * 1000 ->
  (using_remote w = true ->
   faults w = [] /\ 0 < default Cache.DEFAULT_TTL ttl) ->
  let '(r, w1) := Cache.set k v ttl w in
  r = Ok true /\ (Cache.get k (advance dt w1)).1 = Ok v.
Proof.
  intros D R. destruct (using_remote w) eqn:U.
  - (* remote store: SETEX, then GET of the entry while it is visible *)
    destruct (R eq_refl) as [F T].
    rewrite set_on_remote by assumption. split; [reflexivity|].
    rewrite get_on_remote by assumption.
    unfold remote_lookup. simpl remote. rewrite lookup_insert_eq.
    unfold visible. simpl.
    destruct (Z.leb_spec (now w + dt)
                (now w + default Cache.DEFAULT_TTL ttl * 1000)); [|lia].
    now rewrite parse_if_data_stringify.
  - (* fallback map: the entry written is not yet expired *)
    rewrite set_on_fallback by assumption. split; [reflexivity|].
    rewrite get_on_fallback by assumption.
    erewrite read_memory_live;
      [|simpl; apply lookup_insert_eq|simpl; lia].
    simpl. now rewrite JSON_roundtrip.
Qed.

Lemma set_then_get_witness :
  let '(r, w1) :=
    Cache.set "account:42" (JObj [("balance", JNum 1250)]) None
      (world_at online 1000) in
  r = Ok true /\
  (Cache.get "account:42" (advance 0 w1)).1 = Ok (JObj [("balance", JNum 1250)]).
Proof.
  apply (set_then_get "account:42" (JObj [("balance", JNum 1250)]) None 0
           (world_at online 1000)).
  - vm_compute. split; discriminate.
  - intros _. split; reflexivity.
Defined.

(** The claim C1 as stated fails for a negative [ttl]: the entry is written
    already expired and the [get] that follows at once returns [null]. *)
Lemma set_then_get_negative_ttl :
  let w := world_at offline 1000 in
  let '(r, w1) := Cache.set "k" (JNum 1) (Some (-1)) w in
  r = Ok true /\ (Cache.get "k" w1).1 = Ok JNull /\ JNull <> JNum 1.
Proof. vm_compute. repeat split; discriminate. Qed.

(** On the remote store a [ttl] of zero is rejected by [SETEX]; the write
    falls back to the in-memory map, which the [get] that follows does not
    consult while the remote store answers. *)
Lemma set_then_get_zero_ttl_remote :
  let w := world_at online 1000 in
  let '(r, w1) := Cache.set "k" (JNum 1) (Some 0) w in
  r = Ok true /\
  remote w1 !! "cache:k" = None /\
  memoryCache w1 !! "cache:k" = Some {| value := "1"; expiresAt := 1000 |} /\
  (Cache.get "k" w1).1 = Ok JNull.
Proof. vm_compute. repeat split. Qed.

End WriteThenRead.

(** ** Sessions *)

Section Sessions.

#[local] Arguments String.append !_ _ / : simpl nomatch.


Lemma hex_of_byte_shape (b : Byte.byte) :
  exists x y, Session.hex_of_byte b = String x (String y "").
Proof. eexists _, _. reflexivity. Qed.




Lemma token_of_nonempty (w : World) : token_of w <> "".
Proof. discriminate. Qed.

Lemma createSession_run (userId : option string) (w : World) :
  (using_remote w = true -> faults w = []) ->
  let session :=
    Session.session_record (default "admin" userId) (now w)
      (now w + Session.SESSION_DURATION) in
  Session.createSession userId w =
    (Ok (token_of w),
     if using_remote w then
       set_remote
         (<[Session.SESSION_PREFIX ++ token_of w :=
              (JSON_stringify session, now w + 864000 * 1000)]> (remote w))
         (set_drawn (drawn w + 32) w)
     else
       set_memorySessions (<[token_of w := session]> (memorySessions w))
         (set_drawn (drawn w + 32) w)).
Proof.
  intros F session.
  unfold Session.createSession, Session.generateSessionToken, bind,
    randomBytes, Date_now, redis_in_use, ret.
  change (using_remote (set_drawn (drawn w + 32) w)) with (using_remote w).
  destruct (using_remote w) eqn:U; [|reflexivity].
  unfold client_setex.
  rewrite remote_command_healthy by (now apply F). reflexivity.
Qed.

Lemma destroySession_run (token : string) (w : World) :
  (using_remote w = true -> faults w = []) ->
  Session.destroySession token w =
    (Ok tt,
     if using_remote w then
       set_remote (delete (Session.SESSION_PREFIX ++ token) (remote w)) w
     else set_memorySessions (delete token (memorySessions w)) w).
Proof.
  intros F. unfold Session.destroySession, bind, redis_in_use.
  destruct (using_remote w) eqn:U; [|reflexivity].
  unfold client_del. rewrite remote_command_healthy by (now apply F).
  reflexivity.
Qed.



End Sessions.

(** ** getOrSet *)

Section GetOrSet.

Lemma set_keeps_fetches (k : string) (v : json) (ttl : option Z) (w : World) :
  fetches (Cache.set k v ttl w).2 = fetches w.
Proof.
  unfold Cache.set, bind, redis_in_use, try_catch, client_setex,
    remote_command.
  destruct (using_remote w); [|reflexivity].
  destruct (faults w) as [|[|] fs]; try reflexivity;
    destruct (default Cache.DEFAULT_TTL ttl <=? 0); reflexivity.
Qed.

(** After a miss the producer is called once, whatever it answers. *)
Lemma getOrSet_after_miss (k : string) (fetchFn : nat -> result (option json))
    (ttl : option Z) (w w' : World) :
  Cache.get k w = (Ok JNull, w') -> fetches w' = fetches w ->
  fetches (Cache.getOrSet k fetchFn ttl w).2 = S (fetches w).
Proof.
  intros G E. unfold Cache.getOrSet, bind. rewrite G. simpl.
  unfold Cache.call_fetchFn.
  destruct (fetchFn (fetches w')) as [[d|]|e|]; simpl; try congruence.
  pose proof (set_keeps_fetches k d ttl (set_fetches (S (fetches w')) w')) as K.
  destruct (Cache.set k d ttl _) as [[b|e|] w2]; simpl in *; congruence.
Qed.

(** A produced [null] is stored, but the [get] of the next call cannot tell
    the stored [null] from a miss, and the producer is called again. *)
Lemma getOrSet_produced_null_is_fetched_again (k : string)
    (fetchFn : nat -> result (option json)) (ttl : option Z) (w : World) :
  using_remote w = false ->
  memoryCache w !! (Cache.CACHE_PREFIX ++ k) = None ->
  fetchFn (fetches w) = Ok (Some JNull) ->
  let '(r1, w1) := Cache.getOrSet k fetchFn ttl w in
  let '(_, w2) := Cache.getOrSet k fetchFn ttl w1 in
  r1 = Ok (Some JNull) /\
  (exists e, memoryCache w1 !! (Cache.CACHE_PREFIX ++ k) = Some e /\
             value e = "null") /\
  fetches w1 = S (fetches w) /\
  fetches w2 = S (S (fetches w)).
Proof.
  intros U M P.
  pose proof (getOrSet_after_miss k fetchFn ttl) as A.
  unfold Cache.getOrSet at 1. unfold bind.
  rewrite get_on_fallback, read_memory_missing by assumption. simpl.
  unfold Cache.call_fetchFn. rewrite P.
  rewrite set_on_fallback by exact U. simpl.
  set (e := {| value := "null"; expiresAt := _ |}).
  set (w1 := set_memoryCache _ _).
  assert (U1 : using_remote w1 = false) by exact U.
  assert (L1 : memoryCache w1 !! (Cache.CACHE_PREFIX ++ k) = Some e)
    by apply lookup_insert_eq.
  assert (G : exists w', Cache.get k w1 = (Ok JNull, w') /\
                         fetches w' = fetches w1).
  { rewrite get_on_fallback by exact U1.
    destruct (Z.lt_ge_cases (expiresAt e) (now w1)) as [X|X].
    - rewrite (read_memory_expired _ _ _ L1 X). eexists. split; reflexivity.
    - rewrite (read_memory_live _ _ _ L1 X). eexists. split; reflexivity. }
  destruct G as (w' & G & E).
  specialize (A w1 w' G E).
  destruct (Cache.getOrSet k fetchFn ttl w1) as [r2 w2]. simpl in A.
  split; [reflexivity|]. split; [exists e; now split|].
  split; [reflexivity|exact A].
Qed.

(** C4, at the failing input: a producer that yields [null], called through
    [getOrSet] twice in a row within the TTL window (fallback backend, clock
    fixed).  The first call stores the text [null]; the second call invokes
    the producer again. *)
Theorem getOrSet_invokes_producer_again_for_null :
  let fetchFn := fun _ : nat => Ok (Some JNull) in
  let w := world_at offline 1000 in
  let '(r1, w1) := Cache.getOrSet "k" fetchFn (Some 60) w in
  let '(r2, w2) := Cache.getOrSet "k" fetchFn (Some 60) w1 in
  r1 = Ok (Some JNull) /\
  memoryCache w1 !! "cache:k" = Some {| value := "null"; expiresAt := 61000 |} /\
  now w1 < 61000 /\
  r2 = Ok (Some JNull) /\
  fetches w = 0%nat /\ fetches w1 = 1%nat /\ fetches w2 = 2%nat.
Proof. vm_compute. repeat split. Qed.

(** The same on the remote store. *)
Lemma getOrSet_invokes_producer_again_for_null_remote :
  let fetchFn := fun _ : nat => Ok (Some JNull) in
  let w := world_at online 1000 in
  let '(r1, w1) := Cache.getOrSet "k" fetchFn (Some 60) w in
  let '(r2, w2) := Cache.getOrSet "k" fetchFn (Some 60) w1 in
  r1 = Ok (Some JNull) /\
  remote w1 !! "cache:k" = Some ("null", 61000) /\
  fetches w1 = 1%nat /\ fetches w2 = 2%nat.
Proof. vm_compute. repeat split. Qed.

Lemma read_memory_keeps_fetches (fullKey : string) (w : World) :
  fetches (Cache.read_memory fullKey w).2 = fetches w.
Proof.
  unfold Cache.read_memory, bind, Cache.memoryCache_get, Date_now.
  destruct (memoryCache w !! fullKey) as [c|]; [|reflexivity].
  destruct (expiresAt c <? now w); reflexivity.
Qed.

Lemma get_keeps_fetches (k : string) (w : World) :
  fetches (Cache.get k w).2 = fetches w.
Proof.
  assert (K : forall (d : option string) (u : World),
             fetches u = fetches w ->
             fetches
               (match Cache.parse_if_data d u with
                | (Ok v, u') => (Ok v, u')
                | (Throw _, u') =>
                    Cache.read_memory (Cache.CACHE_PREFIX ++ k) u'
                | (Unmodelled, u') => (Unmodelled, u')
                end).2 = fetches w).
  { intros d u E. pose proof (parse_if_data_world d u) as W.
    destruct (Cache.parse_if_data d u) as [[v|e|] u']; simpl in W; subst u';
      try exact E.
    now rewrite read_memory_keeps_fetches. }
  unfold Cache.get, bind, redis_in_use, try_catch, client_get, remote_command.
  destruct (using_remote w).
  - destruct (faults w) as [|[|] fs].
    + specialize (K (remote_lookup (Cache.CACHE_PREFIX ++ k) w) w eq_refl).
      destruct (Cache.parse_if_data _ w) as [[v|e|] u']; exact K.
    + apply (read_memory_keeps_fetches _ (set_faults fs w)).
    + specialize (K (remote_lookup (Cache.CACHE_PREFIX ++ k) (set_faults fs w))
                    (set_faults fs w) eq_refl).
      destruct (Cache.parse_if_data _ (set_faults fs w)) as [[v|e|] u'];
        exact K.
  - apply read_memory_keeps_fetches.
Qed.

Lemma read_memory_keeps_conn (fullKey : string) (w : World) :
  conn (Cache.read_memory fullKey w).2 = conn w /\
  faults (Cache.read_memory fullKey w).2 = faults w.
Proof.
  unfold Cache.read_memory, bind, Cache.memoryCache_get, Date_now.
  destruct (memoryCache w !! fullKey) as [c|]; [|now split].
  destruct (expiresAt c <? now w); now split.
Qed.

(** While the remote commands answer, [get] leaves the connection and the
    scheduled faults as they are. *)
Lemma get_keeps_conn (k : string) (w : World) :
  (using_remote w = true -> faults w = []) ->
  conn (Cache.get k w).2 = conn w /\ faults (Cache.get k w).2 = faults w.
Proof.
  intros F. destruct (using_remote w) eqn:U.
  - rewrite get_on_remote by (try exact U; now apply F).
    pose proof (parse_if_data_world
                  (remote_lookup (Cache.CACHE_PREFIX ++ k) w) w) as W.
    destruct (Cache.parse_if_data _ w) as [[v|e|] w']; simpl in W; subst w';
      try (now split).
    apply read_memory_keeps_conn.
  - rewrite get_on_fallback by exact U. apply read_memory_keeps_conn.
Qed.

(** X4.  When [getOrSet] misses, however the miss comes about (no entry, or
    a fallback entry that [get] finds expired and removes), and the producer
    yields a value other than [null], a second call within the window
    returns that value from the cache, without a producer call. *)
Lemma getOrSet_serves_cached_value (k : string)
    (fetchFn : nat -> result (option json)) (ttl : option Z) (v : json)
    (dt : Z) (w : World) :
  0 <= dt <= default Cache.DEFAULT_TTL ttl * 1000 ->
  (using_remote w = true ->
   faults w = [] /\ 0 < default Cache.DEFAULT_TTL ttl) ->
  (Cache.get k w).1 = Ok JNull ->
  fetchFn (fetches w) = Ok (Some v) -> v <> JNull ->
  let '(r1, w1) := Cache.getOrSet k fetchFn ttl w in
  let '(r2, w2) := Cache.getOrSet k fetchFn ttl (advance dt w1) in
  r1 = Ok (Some v) /\ r2 = Ok (Some v) /\
  fetches w1 = S (fetches w) /\ fetches w2 = S (fetches w).
Proof.
  intros D R G P N.
  pose proof (get_keeps_fetches k w) as Gf.
  pose proof (get_keeps_conn k w (fun U => proj1 (R U))) as [Gc Gx].
  unfold Cache.getOrSet at 1. unfold bind.
  destruct (Cache.get k w) as [g w']. simpl in G, Gf, Gc, Gx. subst g. simpl.
  unfold Cache.call_fetchFn. rewrite Gf, P.
  assert (R' : using_remote (set_fetches (S (fetches w)) w') = true ->
               faults (set_fetches (S (fetches w)) w') = [] /\
               0 < default Cache.DEFAULT_TTL ttl).
  { unfold using_remote. simpl. rewrite Gc, Gx. exact R. }
  assert (Fw : fetches (set_fetches (S (fetches w)) w') = S (fetches w))
    by reflexivity.
  set (w0 := set_fetches (S (fetches w)) w') in *.
  clearbody w0. clear R Gf Gc Gx P. rename R' into R.
  pose proof (get_after_set k v ttl dt w0 D R) as T.
  pose proof (set_keeps_fetches k v ttl w0) as K.
  destruct (Cache.set k v ttl w0) as [r w1]. simpl in T.
  destruct T as [-> T]. simpl in K. simpl.
  unfold Cache.getOrSet, bind.
  pose proof (get_keeps_fetches k (advance dt w1)) as W.
  destruct (Cache.get k (advance dt w1)) as [g w2]. simpl in T, W. subst g.
  change (fetches (advance dt w1)) with (fetches w1) in W.
  destruct v; try (now destruct N); simpl; repeat split; congruence.
Qed.

End GetOrSet.

(** ** delByPattern *)

Section GlobAndRegex.

#[local] Arguments String.append !_ _ / : simpl nomatch.

Lemma translated_head (p : string) :
  exists c t, replace_stars p ++ "$" = String c t /\ Ascii.eqb c "*" = false.
Proof.
  destruct p as [|c p]; simpl.
  - eexists _, _. split; reflexivity.
  - destruct (Ascii.eqb c "*") eqn:E; simpl.
    + eexists _, _. split; reflexivity.
    + eexists _, _. split; [reflexivity|exact E].
Qed.

Lemma star_any_is_glob_star (r : list item) (p : string) :
  (forall s, single_line s = true -> regex_test r s = glob_match p s) ->
  forall s, single_line s = true ->
    regex_test (Star AnyChar :: r) s = glob_match (String "*" p) s.
Proof.
  intros H s. induction s as [|c s IH]; intros L.
  - simpl. now rewrite H.
  - simpl in L. apply andb_true_iff in L as [Lc Ls].
    change (regex_test (Star AnyChar :: r) (String c s)) with
      (regex_test r (String c s) ||
       (atom_matches AnyChar c && regex_test (Star AnyChar :: r) s)).
    change (glob_match (String "*" p) (String c s)) with
      (glob_match p (String c s) || glob_match (String "*" p) s).
    rewrite IH by exact Ls. rewrite H by (simpl; now rewrite Lc, Ls).
    unfold atom_matches. unfold line_terminator in Lc. now rewrite Lc.
Qed.

Lemma plain_pattern_regex (p : string) :
  plain p = true ->
  exists r,
    parse_items (replace_stars p ++ "$") = Some r /\
    forall s, single_line s = true -> regex_test r s = glob_match p s.
Proof.
  induction p as [|c p IH]; intros P.
  - exists []. split; [reflexivity|]. now intros [|c s].
  - simpl in P. apply andb_true_iff in P as [Pc P].
    destruct (IH P) as (r & R & T).
    unfold plain_char in Pc. apply andb_true_iff in Pc as [M D].
    apply negb_true_iff in M, D.
    destruct (translated_head p) as (d & t & E & Nd).
    assert (Dollar : Ascii.eqb c "$" = false).
    { destruct (Ascii.eqb_spec c "$") as [->|]; [discriminate M|reflexivity]. }
    destruct (Ascii.eqb c "*") eqn:S.
    + apply Ascii.eqb_eq in S as ->.
      exists (Star AnyChar :: r). split.
      * simpl. now rewrite R.
      * now apply star_any_is_glob_star.
    + exists (One (Lit c) :: r). split.
      * simpl replace_stars. rewrite S. simpl String.append.
        simpl parse_items. rewrite Dollar, M, S, D. simpl.
        rewrite E, Nd. rewrite <- E. now rewrite R.
      * intros [|x s] L; simpl; rewrite S; [reflexivity|].
        simpl in L. apply andb_true_iff in L as [_ L]. now rewrite T.
Qed.

End GlobAndRegex.

Section DeleteByPattern.

Lemma set_memoryCache_same (w : World) : set_memoryCache (memoryCache w) w = w.
Proof. now destruct w. Qed.

Lemma set_remote_same (w : World) : set_remote (remote w) w = w.
Proof. now destruct w. Qed.

Lemma delete_where_lookup {A} (f : string -> bool) (ks : list string)
    (m : gmap string A) (key : string) :
  delete_where f ks m !! key =
    if bool_decide (key ∈ ks) && f key then None else m !! key.
Proof.
  revert m. induction ks as [|k ks IH]; intros m; [reflexivity|].
  unfold delete_where in *. simpl. rewrite IH.
  destruct (decide (key = k)) as [->|Hne].
  - rewrite (bool_decide_eq_true_2 (k ∈ k :: ks)) by (apply elem_of_cons; now left).
    destruct (f k) eqn:F; simpl.
    + rewrite lookup_delete_eq. now destruct (bool_decide (k ∈ ks)).
    + now rewrite andb_false_r.
  - assert (bool_decide (key ∈ k :: ks) = bool_decide (key ∈ ks)) as ->.
    { apply bool_decide_ext. rewrite elem_of_cons. intuition congruence. }
    destruct (f k); [|reflexivity].
    now rewrite lookup_delete_ne by congruence.
Qed.

Lemma delete_where_all_keys {A} (f : string -> bool) (m : gmap string A) :
  delete_where f (map fst (map_to_list m)) m =
    filter (fun kv => f kv.1 = false) m.
Proof.
  apply map_eq. intros key. rewrite delete_where_lookup.
  destruct (m !! key) as [x|] eqn:L.
  - assert (key ∈ map fst (map_to_list m)) as I.
    { apply list_elem_of_fmap. exists (key, x). split; [reflexivity|].
      now apply elem_of_map_to_list. }
    rewrite (bool_decide_eq_true_2 _ I). simpl.
    destruct (f key) eqn:F.
    + symmetry. apply map_lookup_filter_None. right. intros y Hy. simpl.
      congruence.
    + symmetry. apply map_lookup_filter_Some. split; [exact L|exact F].
  - destruct (_ && _); symmetry; apply map_lookup_filter_None; now left.
Qed.

Lemma delete_matching_run (regex : list item) (ks : list string) (count : Z)
    (w : World) :
  Cache.delete_matching regex ks count w =
    (Ok (count + Z.of_nat (length (List.filter (regex_test regex) ks))),
     set_memoryCache (delete_where (regex_test regex) ks (memoryCache w)) w).
Proof.
  revert count w. induction ks as [|k ks IH]; intros count w.
  - simpl. unfold ret, delete_where. simpl.
    rewrite set_memoryCache_same. do 2 f_equal. lia.
  - simpl. destruct (regex_test regex k) eqn:T.
    + unfold bind, Cache.memoryCache_delete. rewrite IH.
      unfold delete_where. simpl. f_equal. f_equal. lia.
    + rewrite IH. reflexivity.
Qed.

Lemma elem_of_remote_hits (p key : string) (w : World) :
  key ∈ remote_hits p w <->
  exists e, remote w !! key = Some e /\
            visible (now w) e && glob_match p key = true.
Proof.
  unfold remote_hits. rewrite list_elem_of_fmap. split.
  - intros ([k e] & -> & H). apply list_elem_of_In, filter_In in H as [H P].
    apply list_elem_of_In, elem_of_map_to_list in H. now exists e.
  - intros (e & H & P). exists (key, e). split; [reflexivity|].
    apply list_elem_of_In, filter_In. split; [|exact P].
    now apply list_elem_of_In, elem_of_map_to_list.
Qed.

Lemma NoDup_map_fst_filter {A B} (f : A * B -> bool) (l : list (A * B)) :
  NoDup (map fst l) -> NoDup (map fst (List.filter f l)).
Proof.
  induction l as [|x l IH]; intros N; [constructor|].
  simpl in *. apply NoDup_cons in N as [X N].
  destruct (f x); [|now apply IH].
  simpl. apply NoDup_cons. split; [|now apply IH].
  intros H. apply X. apply list_elem_of_fmap in H as (y & E & H).
  apply list_elem_of_fmap. exists y. split; [exact E|].
  apply list_elem_of_In. apply list_elem_of_In, filter_In in H. tauto.
Qed.

Lemma NoDup_remote_hits (p : string) (w : World) : NoDup (remote_hits p w).
Proof. apply NoDup_map_fst_filter, NoDup_fst_map_to_list. Qed.

Lemma del_keys_run (ks : list string) (w : World) :
  NoDup ks ->
  (forall k, k ∈ ks -> is_Some (remote_lookup k w)) ->
  del_keys ks w =
    (Z.of_nat (length ks),
     set_remote (delete_where (fun _ => true) ks (remote w)) w).
Proof.
  revert w. induction ks as [|k ks IH]; intros w N V.
  - simpl. unfold delete_where. simpl. now rewrite set_remote_same.
  - apply NoDup_cons in N as [X N]. simpl.
    destruct (V k ltac:(apply elem_of_cons; now left)) as [v ->].
    rewrite IH; [| exact N |].
    + unfold delete_where. simpl. f_equal. lia.
    + intros k' I. specialize (V k' ltac:(apply elem_of_cons; now right)).
      unfold remote_lookup in *. simpl.
      rewrite lookup_delete_ne by (intros ->; contradiction). exact V.
Qed.

Lemma delete_remote_hits (p : string) (w : World) :
  delete_where (fun _ => true) (remote_hits p w) (remote w) =
    filter (fun kv => visible (now w) kv.2 && glob_match p kv.1 = false)
      (remote w).
Proof.
  apply map_eq. intros key. rewrite delete_where_lookup, andb_true_r.
  destruct (remote w !! key) as [e|] eqn:L.
  - destruct (visible (now w) e && glob_match p key) eqn:P.
    + rewrite bool_decide_eq_true_2
        by (apply elem_of_remote_hits; now exists e).
      symmetry. apply map_lookup_filter_None. right. intros y Hy. simpl.
      congruence.
    + rewrite bool_decide_eq_false_2.
      * symmetry. apply map_lookup_filter_Some. split; [exact L|exact P].
      * rewrite elem_of_remote_hits. intros (e' & L' & P'). congruence.
  - destruct (bool_decide _); symmetry; apply map_lookup_filter_None; now left.
Qed.

Lemma client_keys_then_del (p : string) (w : World) :
  faults w = [] -> beyond_asterisk p = false ->
  (do keys <- client_keys p ;;
   if (0 <? length keys)%nat then client_del keys else ret 0) w =
    (Ok (Z.of_nat (length (remote_hits p w))),
     set_remote
       (filter (fun kv => visible (now w) kv.2 && glob_match p kv.1 = false)
          (remote w)) w).
Proof.
  intros F B. unfold bind, client_keys.
  rewrite remote_command_healthy by exact F. rewrite B.
  fold (remote_hits p w). rewrite <- delete_remote_hits.
  destruct (remote_hits p w) as [|k ks] eqn:E.
  - simpl. unfold ret, delete_where. simpl. now rewrite set_remote_same.
  - change (0 <? length (k :: ks))%nat with true. cbv iota.
    unfold client_del. rewrite remote_command_healthy by exact F.
    rewrite del_keys_run; [reflexivity| |].
    + rewrite <- E. apply NoDup_remote_hits.
    + intros k' I. rewrite <- E in I.
      apply elem_of_remote_hits in I as (e & L & P).
      apply andb_true_iff in P as [P _].
      unfold remote_lookup. rewrite L, P. eauto.
Qed.

Lemma plain_not_beyond_asterisk (p : string) :
  plain p = true -> beyond_asterisk p = false.
Proof.
  assert (K : forall (c : ascii) (p : string),
             is_meta c = true -> plain p = true ->
             includes p (String c "") = false).
  { intros c q M. induction q as [|d q IH]; intros P; [reflexivity|].
    simpl in P. apply andb_true_iff in P as [Pd P].
    simpl. rewrite (IH P), orb_false_r, andb_true_r.
    destruct (Ascii.eqb_spec c d) as [->|]; [|reflexivity].
    unfold plain_char in Pd. now rewrite M in Pd. }
  intros P. unfold beyond_asterisk.
  now rewrite !K by (reflexivity || exact P).
Qed.

Lemma plain_app (p q : string) :
  plain (p ++ q) = plain p && plain q.
Proof.
  induction p as [|c p IH]; [reflexivity|].
  change (String c p ++ q) with (String c (p ++ q)). simpl.
  now rewrite IH, andb_assoc.
Qed.

(** X5.  [delByPattern] on plain patterns: for a pattern whose only special
    character is the asterisk, on a fallback map whose keys hold no line
    terminator, the fallback entries deleted are exactly those whose key
    matches the glob, the others are left as they are, and the result is the
    number of remote deletions plus the number of fallback deletions. *)
Lemma delByPattern_plain (pattern : string) (w : World) :
  plain pattern = true ->
  (forall k e, memoryCache w !! k = Some e -> single_line k = true) ->
  (using_remote w = true -> faults w = []) ->
  let full := Cache.CACHE_PREFIX ++ pattern in
  Cache.delByPattern pattern w =
    (Ok ((if using_remote w then Z.of_nat (length (remote_hits full w)) else 0)
         + Z.of_nat (length (memory_hits full w))),
     set_memoryCache
       (filter (fun kv => glob_match full kv.1 = false) (memoryCache w))
       (if using_remote w then
          set_remote
            (filter
               (fun kv => visible (now w) kv.2 && glob_match full kv.1 = false)
               (remote w)) w
        else w)).
Proof.
  intros P L F full.
  assert (PF : plain full = true).
  { unfold full. rewrite plain_app, P. reflexivity. }
  destruct (plain_pattern_regex full PF) as (re & R & T).
  unfold Cache.delByPattern. fold full.
  change (RegExp (String "^" (replace_stars full) ++ "$")) with
    (parse_items (replace_stars full ++ "$")).
  rewrite R.
  set (tail := fun count : Z =>
                 do keys <- Cache.memoryCache_keys ;;
                 Cache.delete_matching re keys count).
  assert (Same : forall (u : World) (count : Z),
    memoryCache u = memoryCache w ->
    tail count u =
    (Ok (count + Z.of_nat (length (memory_hits full w))),
     set_memoryCache
       (filter (fun kv => glob_match full kv.1 = false) (memoryCache w)) u)).
  { intros u count E. unfold tail, bind, Cache.memoryCache_keys.
    rewrite delete_matching_run, E, delete_where_all_keys.
    assert (S : forall k, k ∈ map fst (map_to_list (memoryCache w)) ->
                          regex_test re k = glob_match full k).
    { intros k I. apply list_elem_of_fmap in I as ([k' e] & -> & I).
      apply elem_of_map_to_list in I. apply T. now apply (L k' e). }
    f_equal.
    - do 2 f_equal. unfold memory_hits. do 2 f_equal.
      apply filter_ext_in. intros k I. apply S. now apply list_elem_of_In.
    - f_equal. apply map_filter_ext. intros k e I. simpl.
      rewrite T by (now apply (L k e)). reflexivity. }
  clearbody tail.
  unfold bind at 1. unfold redis_in_use.
  destruct (using_remote w) eqn:U.
  - unfold bind at 1. unfold try_catch.
    rewrite (client_keys_then_del full w (F eq_refl)
               (plain_not_beyond_asterisk full PF)).
    now rewrite Same.
  - unfold bind, ret. now rewrite Same.
Qed.

(** C3, at the failing input: the pattern [api:v1.0:*] on a fallback map
    holding the keys [api:v1.0:users], [api:v1x0:users] and [other].  The dot
    of the pattern reaches the regular expression unescaped and matches any
    character: the key [cache:api:v1x0:users], which the glob does not
    match, is deleted and counted as well. *)
Theorem delByPattern_deletes_keys_the_glob_does_not_match :
  let w :=
    set_memoryCache
      (<["cache:api:v1.0:users" := entry_at 9000]>
         (<["cache:api:v1x0:users" := entry_at 9000]>
            {[ "cache:other" := entry_at 9000 ]}))
      (world_at offline 1000) in
  let '(r, w') := Cache.delByPattern "api:v1.0:*" w in
  glob_match (Cache.CACHE_PREFIX ++ "api:v1.0:*") "cache:api:v1.0:users" = true /\
  glob_match (Cache.CACHE_PREFIX ++ "api:v1.0:*") "cache:api:v1x0:users" = false /\
  r = Ok 2 /\
  memoryCache w' !! "cache:api:v1.0:users" = None /\
  memoryCache w' !! "cache:api:v1x0:users" = None /\
  memoryCache w' !! "cache:other" = Some (entry_at 9000).
Proof. vm_compute. repeat split. Qed.

(** A key that holds a line terminator is missed: the dot the asterisk is
    translated to does not match it. *)
Lemma delByPattern_misses_keys_with_line_terminators :
  let key := "cache:a" ++ String "010" "b" in
  let w := set_memoryCache {[ key := entry_at 9000 ]} (world_at offline 1000) in
  let '(r, w') := Cache.delByPattern "a*" w in
  glob_match (Cache.CACHE_PREFIX ++ "a*") key = true /\
  r = Ok 0 /\ memoryCache w' !! key = Some (entry_at 9000).
Proof. vm_compute. repeat split. Qed.

(** The count adds up the deletions of the two backends: a key present in
    both is counted twice. *)
Lemma delByPattern_counts_both_backends :
  let w :=
    set_memoryCache {[ "cache:account:1" := entry_at 9000 ]}
      (set_remote {[ "cache:account:1" := ("1", 9000);
                     "cache:projects:1" := ("2", 9000) ]}
         (world_at online 1000)) in
  let '(r, w') := Cache.delByPattern "account:*" w in
  r = Ok 2 /\
  memoryCache w' !! "cache:account:1" = None /\
  remote w' !! "cache:account:1" = None /\
  remote w' !! "cache:projects:1" = Some ("2", 9000).
Proof. vm_compute. repeat split. Qed.

End DeleteByPattern.

(** * Further properties *)

(** ** What holds of the cache and of the sessions *)

Section WhatHolds.

Lemma get_after_ttl_elapsed_witness :
  (Cache.get "a"
     (advance 5001 (Cache.set "a" (JNum 1) (Some 5) (world_at offline 0)).2)).1 =
    Ok JNull.
Proof.
  apply (get_after_ttl_elapsed "a" (JNum 1) (Some 5) 5001 (world_at offline 0)).
  - reflexivity.
  - intros E. discriminate E.
Defined.

Lemma getOrSet_serves_cached_value_witness :
  let w :=
    advance 61000 (Cache.set "k" (JNum 1) None (world_at offline 1000)).2 in
  let fetchFn := fun _ : nat => Ok (Some (JNum 7)) in
  let '(r1, w1) := Cache.getOrSet "k" fetchFn None w in
  let '(r2, w2) := Cache.getOrSet "k" fetchFn None (advance 1000 w1) in
  r1 = Ok (Some (JNum 7)) /\ r2 = Ok (Some (JNum 7)) /\
  fetches w1 = S (fetches w) /\ fetches w2 = S (fetches w).
Proof.
  apply (getOrSet_serves_cached_value "k" (fun _ : nat => Ok (Some (JNum 7)))
           None (JNum 7) 1000
           (advance 61000
              (Cache.set "k" (JNum 1) None (world_at offline 1000)).2)).
  - vm_compute. split; discriminate.
  - intros _. split; reflexivity.
  - reflexivity.
  - reflexivity.
  - discriminate.
Defined.

Lemma delByPattern_plain_witness :
  let w :=
    (Cache.set "post:1" (JNum 3) None
       (Cache.set "user:2" (JNum 2) None
          (Cache.set "user:1" (JNum 1) None (world_at offline 1000)).2).2).2 in
  (Cache.delByPattern "user:*" w).1 = Ok 2 /\
  memoryCache (Cache.delByPattern "user:*" w).2 !! "cache:post:1" =
    memoryCache w !! "cache:post:1".
Proof.
  intros w.
  assert (S : forall k e, memoryCache w !! k = Some e -> single_line k = true).
  { intros k e H. unfold w in H. simpl in H.
    apply lookup_insert_Some in H as [[<- _]|[_ H]]; [reflexivity|].
    apply lookup_insert_Some in H as [[<- _]|[_ H]]; [reflexivity|].
    apply lookup_insert_Some in H as [[<- _]|[_ H]]; [reflexivity|].
    discriminate H. }
  rewrite (delByPattern_plain "user:*" w eq_refl S
             (fun E : using_remote w = true => False_ind _ (diff_false_true E))).
  split; reflexivity.
Defined.

End WhatHolds.

(** ** The cache operations under failures of the remote store *)

Section BestEffort.

Lemma set_returns_true (k : string) (v : json) (ttl : option Z) (w : World) :
  (Cache.set k v ttl w).1 = Ok true.
Proof.
  unfold Cache.set, bind, redis_in_use, try_catch, client_setex,
    remote_command.
  destruct (using_remote w); [|reflexivity].
  destruct (faults w) as [|[|] fs]; simpl;
    try destruct (default Cache.DEFAULT_TTL ttl <=? 0); reflexivity.
Qed.

(** X6.  [set] reports success in every world, whatever the remote store does,
    and the entry is then held by one of the two backends. *)
Theorem set_always_succeeds (k : string) (v : json) (ttl : option Z)
    (w : World) :
  (Cache.set k v ttl w).1 = Ok true /\
  stored_by_set k v ttl w (Cache.set k v ttl w).2.
Proof.
  unfold stored_by_set, Cache.set, bind, redis_in_use, try_catch,
    client_setex, remote_command.
  destruct (using_remote w).
  - destruct (faults w) as [|[|] fs]; simpl;
      try destruct (default Cache.DEFAULT_TTL ttl <=? 0); simpl;
      (split; [reflexivity|]);
      first [left; apply lookup_insert_eq | right; apply lookup_insert_eq].
  - simpl. split; [reflexivity|]. right. apply lookup_insert_eq.
Qed.

Lemma JSON_parse_throws (s : string) (e : error) :
  JSON_parse s = Throw e -> e = SyntaxError.
Proof.
  unfold JSON_parse. destruct (parse_value _ s) as [v r| |].
  - destruct (skip_ws r); [discriminate|now intros [= <-]].
  - now intros [= <-].
  - discriminate.
Qed.

Lemma read_memory_throws (fullKey : string) (e : error) (w : World) :
  (Cache.read_memory fullKey w).1 = Throw e -> e = SyntaxError.
Proof.
  unfold Cache.read_memory, bind, Cache.memoryCache_get, Date_now.
  destruct (memoryCache w !! fullKey) as [c|]; [|discriminate].
  destruct (expiresAt c <? now w); [discriminate|].
  simpl. apply JSON_parse_throws.
Qed.

(** X7.  A failure of the remote store never leaves [get]: the only exception
    [get] can throw is the [SyntaxError] of a malformed fallback entry. *)
Theorem get_throws_only_SyntaxError (k : string) (e : error) (w : World) :
  (Cache.get k w).1 = Throw e ->
  e = SyntaxError /\
  exists c, memoryCache w !! (Cache.CACHE_PREFIX ++ k) = Some c /\
            now w <= expiresAt c /\ JSON_parse (value c) = Throw SyntaxError.
Proof.
  assert (R : forall u : World,
             memoryCache u = memoryCache w -> now u = now w ->
             (Cache.read_memory (Cache.CACHE_PREFIX ++ k) u).1 = Throw e ->
             e = SyntaxError /\
             exists c, memoryCache w !! (Cache.CACHE_PREFIX ++ k) = Some c /\
                       now w <= expiresAt c /\
                       JSON_parse (value c) = Throw SyntaxError).
  { intros u M N H. pose proof (read_memory_throws _ _ _ H) as ->.
    split; [reflexivity|]. rewrite <- M, <- N.
    destruct (memoryCache u !! (Cache.CACHE_PREFIX ++ k)) as [c|] eqn:L.
    - exists c. destruct (Z.lt_ge_cases (expiresAt c) (now u)) as [X|X].
      + rewrite (read_memory_expired _ _ _ L X) in H. discriminate.
      + rewrite (read_memory_live _ _ _ L X) in H. now repeat split.
    - rewrite (read_memory_missing _ _ L) in H. discriminate. }
  unfold Cache.get, bind, redis_in_use, try_catch, client_get, remote_command.
  destruct (using_remote w).
  - destruct (faults w) as [|[|] fs].
    + pose proof (parse_if_data_world
        (remote_lookup (Cache.CACHE_PREFIX ++ k) w) w) as W.
      destruct (Cache.parse_if_data _ w) as [[v|x|] u]; simpl in W; subst u;
        try discriminate.
      now apply R.
    + now apply R.
    + pose proof (parse_if_data_world
        (remote_lookup (Cache.CACHE_PREFIX ++ k) (set_faults fs w))
        (set_faults fs w)) as W.
      destruct (Cache.parse_if_data _ (set_faults fs w)) as [[v|x|] u];
        simpl in W; subst u; try discriminate.
      now apply R.
  - now apply R.
Qed.

Lemma get_throws_only_SyntaxError_witness :
  let w :=
    set_faults [true]
      (set_memoryCache
         {[ "cache:k" := {| value := "{"; expiresAt := 5000 |} ]}
         (world_at online 1000)) in
  SyntaxError = SyntaxError /\
  exists c, memoryCache w !! (Cache.CACHE_PREFIX ++ "k") = Some c /\
            now w <= expiresAt c /\ JSON_parse (value c) = Throw SyntaxError.
Proof.
  intros w. apply (get_throws_only_SyntaxError "k" SyntaxError w).
  reflexivity.
Defined.

(** X8.  [del] reports success in every world and always removes the fallback
    entry, also while the remote store is in use or failing. *)
Theorem del_always_clears_fallback (k : string) (w : World) :
  (Cache.del k w).1 = Ok true /\
  memoryCache (Cache.del k w).2 !! (Cache.CACHE_PREFIX ++ k) = None /\
  forall k', k' <> Cache.CACHE_PREFIX ++ k ->
    memoryCache (Cache.del k w).2 !! k' = memoryCache w !! k'.
Proof.
  unfold Cache.del, bind, redis_in_use, try_catch, client_del,
    remote_command.
  destruct (using_remote w).
  - destruct (faults w) as [|[|] fs]; simpl;
      (split; [reflexivity|]);
      (split; [apply lookup_delete_eq|]);
      intros k' N; now apply lookup_delete_ne.
  - simpl. split; [reflexivity|]. split; [apply lookup_delete_eq|].
    intros k' N. now apply lookup_delete_ne.
Qed.

End BestEffort.

(** ** Composition of the cache operations *)

Section CacheComposition.

#[local] Arguments String.append !_ _ / : simpl nomatch.

Lemma append_inj_l (p a b : string) : p ++ a = p ++ b -> a = b.
Proof. induction p as [|c p IH]; simpl; [easy|]. intros [= H]. now apply IH. Qed.

(** What [get] returns depends on the clock, the backend in use, the
    scheduled faults and the two entries of its key only. *)
Lemma get_depends (k : string) (w w' : World) :
  now w = now w' -> using_remote w = using_remote w' ->
  faults w = faults w' ->
  remote w !! (Cache.CACHE_PREFIX ++ k) = remote w' !! (Cache.CACHE_PREFIX ++ k) ->
  memoryCache w !! (Cache.CACHE_PREFIX ++ k) =
    memoryCache w' !! (Cache.CACHE_PREFIX ++ k) ->
  (Cache.get k w).1 = (Cache.get k w').1.
Proof.
  intros N U F R M.
  assert (RM : forall u u' : World,
             now u = now w -> now u' = now w' ->
             memoryCache u = memoryCache w -> memoryCache u' = memoryCache w' ->
             (Cache.read_memory (Cache.CACHE_PREFIX ++ k) u).1 =
             (Cache.read_memory (Cache.CACHE_PREFIX ++ k) u').1).
  { intros u u' Nu Nu' Mu Mu'.
    assert (L : memoryCache u !! (Cache.CACHE_PREFIX ++ k) =
                memoryCache u' !! (Cache.CACHE_PREFIX ++ k))
      by (now rewrite Mu, Mu').
    assert (T : now u = now u') by congruence.
    destruct (memoryCache u' !! (Cache.CACHE_PREFIX ++ k)) as [c|] eqn:L'.
    - destruct (Z.lt_ge_cases (expiresAt c) (now u)) as [X|X].
      + rewrite (read_memory_expired _ _ _ L X).
        rewrite T in X. now rewrite (read_memory_expired _ _ _ L' X).
      + rewrite (read_memory_live _ _ _ L X).
        rewrite T in X. now rewrite (read_memory_live _ _ _ L' X).
    - now rewrite (read_memory_missing _ _ L), (read_memory_missing _ _ L'). }
  assert (PD : forall d (u u' : World),
             now u = now w -> now u' = now w' ->
             memoryCache u = memoryCache w -> memoryCache u' = memoryCache w' ->
             (match Cache.parse_if_data d u with
              | (Ok v, x) => (Ok v, x)
              | (Throw _, x) => Cache.read_memory (Cache.CACHE_PREFIX ++ k) x
              | (Unmodelled, x) => (Unmodelled, x)
              end).1 =
             (match Cache.parse_if_data d u' with
              | (Ok v, x) => (Ok v, x)
              | (Throw _, x) => Cache.read_memory (Cache.CACHE_PREFIX ++ k) x
              | (Unmodelled, x) => (Unmodelled, x)
              end).1).
  { intros d u u' Nu Nu' Mu Mu'. unfold Cache.parse_if_data.
    destruct d as [d|]; [|reflexivity].
    destruct (truthy_str d); [|reflexivity].
    unfold lift. destruct (JSON_parse d); try reflexivity.
    now apply RM. }
  assert (RL : forall u u' : World,
             now u = now w -> now u' = now w' ->
             remote u = remote w -> remote u' = remote w' ->
             remote_lookup (Cache.CACHE_PREFIX ++ k) u =
             remote_lookup (Cache.CACHE_PREFIX ++ k) u').
  { intros u u' Nu Nu' Ru Ru'. unfold remote_lookup.
    now rewrite Ru, Ru', R, Nu, Nu', N. }
  unfold Cache.get, bind, redis_in_use. rewrite <- U.
  destruct (using_remote w).
  - unfold try_catch, client_get, remote_command. rewrite <- F.
    destruct (faults w) as [|[|] fs].
    + rewrite (RL w w') by reflexivity.
      pose proof (PD (remote_lookup (Cache.CACHE_PREFIX ++ k) w') w w'
                    eq_refl eq_refl eq_refl eq_refl) as H.
      destruct (Cache.parse_if_data _ w) as [[v|x|] u];
        destruct (Cache.parse_if_data _ w') as [[v'|x'|] u']; exact H.
    + now apply RM.
    + rewrite (RL (set_faults fs w) (set_faults fs w')) by reflexivity.
      pose proof (PD (remote_lookup (Cache.CACHE_PREFIX ++ k) (set_faults fs w'))
                    (set_faults fs w) (set_faults fs w')
                    eq_refl eq_refl eq_refl eq_refl) as H.
      destruct (Cache.parse_if_data _ (set_faults fs w)) as [[v|x|] u];
        destruct (Cache.parse_if_data _ (set_faults fs w')) as [[v'|x'|] u'];
        exact H.
  - now apply RM.
Qed.

Lemma set_world (k : string) (v : json) (ttl : option Z) (w : World) :
  healthy w ->
  let w' := (Cache.set k v ttl w).2 in
  now w' = now w /\ using_remote w' = using_remote w /\ faults w' = faults w /\
  (forall key, key <> Cache.CACHE_PREFIX ++ k ->
     remote w' !! key = remote w !! key /\
     memoryCache w' !! key = memoryCache w !! key).
Proof.
  intros H. unfold Cache.set, bind, redis_in_use, try_catch, client_setex.
  destruct (using_remote w) eqn:U.
  - rewrite remote_command_healthy by (now apply H).
    destruct (default Cache.DEFAULT_TTL ttl <=? 0); simpl;
      repeat split; try exact U;
      try (now apply lookup_insert_ne; congruence).
  - simpl. repeat split; try exact U.
    apply lookup_insert_ne. congruence.
Qed.

(** X9.  Writing one key leaves what [get] returns for every other key as it
    was. *)
Theorem set_keeps_other_keys (k k' : string) (v : json) (ttl : option Z)
    (w : World) :
  healthy w -> k <> k' ->
  (Cache.get k' (Cache.set k v ttl w).2).1 = (Cache.get k' w).1.
Proof.
  intros H N. destruct (set_world k v ttl w H) as (E1 & E2 & E3 & E4).
  assert (D : Cache.CACHE_PREFIX ++ k' <> Cache.CACHE_PREFIX ++ k).
  { intros E. apply append_inj_l in E. congruence. }
  destruct (E4 _ D) as [R M].
  now apply get_depends.
Qed.

Lemma set_keeps_other_keys_witness :
  let w := (Cache.set "a" (JNum 1) None (world_at online 1000)).2 in
  (Cache.get "a" (Cache.set "b" (JStr "x") (Some 5) w).2).1 = (Cache.get "a" w).1.
Proof.
  intros w. apply (set_keeps_other_keys "b" "a" (JStr "x") (Some 5) w).
  - intros _. reflexivity.
  - discriminate.
Defined.

(** X10.  [get] after [del] returns [null], on both backends. *)
Theorem del_then_get_absent (k : string) (w : World) :
  healthy w ->
  (Cache.get k (Cache.del k w).2).1 = Ok JNull.
Proof.
  intros H. unfold Cache.del, bind, redis_in_use, try_catch, client_del.
  destruct (using_remote w) eqn:U.
  - rewrite remote_command_healthy by (now apply H). simpl.
    rewrite get_on_remote by (try exact U; now apply H).
    unfold remote_lookup. simpl. now rewrite lookup_delete_eq.
  - simpl. rewrite get_on_fallback by exact U.
    rewrite read_memory_missing; [reflexivity|]. apply lookup_delete_eq.
Qed.

Lemma del_then_get_absent_witness :
  let w := (Cache.set "a" (JNum 1) None (world_at online 1000)).2 in
  (Cache.get "a" (Cache.del "a" w).2).1 = Ok JNull.
Proof.
  intros w. apply (del_then_get_absent "a" w). intros _. reflexivity.
Defined.



(** X12.  When the write to the remote store fails, [set] still reports success
    and keeps the value in the fallback map only; while the remote store
    stays in use, [get] goes on returning the value the remote store holds. *)
Theorem failed_remote_write_is_not_read_back (k : string) (v old : json)
    (ttl : option Z) (w : World) :
  using_remote w = true -> faults w = [true] ->
  remote_lookup (Cache.CACHE_PREFIX ++ k) w = Some (JSON_stringify old) ->
  let w1 := (Cache.set k v ttl w).2 in
  (Cache.set k v ttl w).1 = Ok true /\
  memoryCache w1 !! (Cache.CACHE_PREFIX ++ k) =
    Some {| value := JSON_stringify v;
            expiresAt := now w + default Cache.DEFAULT_TTL ttl * 1000 |} /\
  remote w1 = remote w /\
  (Cache.get k w1).1 = Ok old.
Proof.
  intros U F L.
  unfold Cache.set, bind, redis_in_use, try_catch, client_setex.
  rewrite U, (remote_command_fault _ [] w F). simpl.
  split; [reflexivity|]. split; [apply lookup_insert_eq|].
  split; [reflexivity|].
  rewrite get_on_remote by (exact U || reflexivity).
  change (remote_lookup (Cache.CACHE_PREFIX ++ k) _) with
    (remote_lookup (Cache.CACHE_PREFIX ++ k) w).
  rewrite L. now rewrite parse_if_data_stringify.
Qed.

Lemma failed_remote_write_is_not_read_back_witness :
  let w0 := (Cache.set "a" (JNum 1) None (world_at online 1000)).2 in
  let w := set_faults [true] w0 in
  let w1 := (Cache.set "a" (JNum 2) None w).2 in
  (Cache.set "a" (JNum 2) None w).1 = Ok true /\
  memoryCache w1 !! (Cache.CACHE_PREFIX ++ "a") =
    Some {| value := JSON_stringify (JNum 2);
            expiresAt := now w + default Cache.DEFAULT_TTL None * 1000 |} /\
  remote w1 = remote w /\
  (Cache.get "a" w1).1 = Ok (JNum 1).
Proof.
  intros w0 w.
  apply (failed_remote_write_is_not_read_back "a" (JNum 2) (JNum 1) None w);
    reflexivity.
Defined.

End CacheComposition.

(** ** The producer of [getOrSet] and the reaper *)

Section ProducerFailures.

(** X13.  On a miss, a producer that throws makes [getOrSet] throw the same
    exception, and a producer that yields [undefined] makes it return
    [undefined]; in both cases nothing is written to either backend. *)
Theorem getOrSet_stores_nothing_without_a_value (k : string)
    (fetchFn : nat -> result (option json)) (ttl : option Z) (w w' : World) :
  Cache.get k w = (Ok JNull, w') ->
  (forall d, fetchFn (fetches w') <> Ok (Some d)) ->
  Cache.getOrSet k fetchFn ttl w =
    (fetchFn (fetches w'), set_fetches (S (fetches w')) w').
Proof.
  intros G N. unfold Cache.getOrSet, bind. rewrite G. simpl.
  unfold Cache.call_fetchFn.
  destruct (fetchFn (fetches w')) as [[d|]|e|]; try reflexivity.
  now destruct (N d).
Qed.

Lemma getOrSet_stores_nothing_without_a_value_witness :
  Cache.getOrSet "k" (fun _ => Throw (OtherError "upstream")) None
    (world_at online 1000) =
    (Throw (OtherError "upstream"),
     set_fetches 1 (world_at online 1000)).
Proof.
  apply (getOrSet_stores_nothing_without_a_value "k"
           (fun _ => Throw (OtherError "upstream")) None
           (world_at online 1000) (world_at online 1000)).
  - reflexivity.
  - discriminate.
Defined.

End ProducerFailures.

Section Reaper.

Lemma clean_lookup (key : string) (w : World) :
  memoryCache (Cache.cleanExpiredMemoryCache w).2 !! key =
    match memoryCache w !! key with
    | Some c => if expiresAt c <? now w then None else Some c
    | None => None
    end.
Proof.
  unfold Cache.cleanExpiredMemoryCache. simpl.
  destruct (memoryCache w !! key) as [c|] eqn:L.
  - destruct (expiresAt c <? now w) eqn:X.
    + apply map_lookup_filter_None. right. intros c' L'. simpl. congruence.
    + apply map_lookup_filter_Some. split; [exact L|exact X].
  - apply map_lookup_filter_None. now left.
Qed.

Lemma read_memory_after_clean (fullKey : string) (w u u' : World) :
  now u = now w -> now u' = now w ->
  memoryCache u = memoryCache w ->
  memoryCache u' = memoryCache (Cache.cleanExpiredMemoryCache w).2 ->
  (Cache.read_memory fullKey u').1 = (Cache.read_memory fullKey u).1.
Proof.
  intros N N' M M'.
  assert (L' : memoryCache u' !! fullKey =
               match memoryCache u !! fullKey with
               | Some c => if expiresAt c <? now u then None else Some c
               | None => None
               end)
    by (rewrite M', M, N; apply clean_lookup).
  destruct (memoryCache u !! fullKey) as [c|] eqn:L.
  - destruct (Z.ltb_spec (expiresAt c) (now u)) as [X|X].
    + now rewrite (read_memory_expired _ _ _ L X), (read_memory_missing _ _ L').
    + rewrite (read_memory_live _ _ _ L X).
      rewrite N, <- N' in X. now rewrite (read_memory_live _ _ _ L' X).
  - now rewrite (read_memory_missing _ _ L), (read_memory_missing _ _ L').
Qed.

(** X14.  The reaper of the cache is invisible to readers: in every world, [get]
    returns after [cleanExpiredMemoryCache] what it returns without it. *)
Theorem cleanExpiredMemoryCache_is_transparent (k : string) (w : World) :
  (Cache.get k (Cache.cleanExpiredMemoryCache w).2).1 = (Cache.get k w).1.
Proof.
  set (w' := (Cache.cleanExpiredMemoryCache w).2).
  assert (RM : forall u u' : World,
             now u = now w -> now u' = now w ->
             memoryCache u = memoryCache w -> memoryCache u' = memoryCache w' ->
             (Cache.read_memory (Cache.CACHE_PREFIX ++ k) u').1 =
             (Cache.read_memory (Cache.CACHE_PREFIX ++ k) u).1).
  { intros u u' N N' M M'. now apply (read_memory_after_clean _ w). }
  assert (PD : forall d (u u' : World),
             now u = now w -> now u' = now w ->
             memoryCache u = memoryCache w -> memoryCache u' = memoryCache w' ->
             (match Cache.parse_if_data d u' with
              | (Ok v, x) => (Ok v, x)
              | (Throw _, x) => Cache.read_memory (Cache.CACHE_PREFIX ++ k) x
              | (Unmodelled, x) => (Unmodelled, x)
              end).1 =
             (match Cache.parse_if_data d u with
              | (Ok v, x) => (Ok v, x)
              | (Throw _, x) => Cache.read_memory (Cache.CACHE_PREFIX ++ k) x
              | (Unmodelled, x) => (Unmodelled, x)
              end).1).
  { intros d u u' N N' M M'. unfold Cache.parse_if_data.
    destruct d as [d|]; [|reflexivity].
    destruct (truthy_str d); [|reflexivity].
    unfold lift. destruct (JSON_parse d); try reflexivity.
    now apply RM. }
  unfold Cache.get, bind, redis_in_use.
  change (using_remote w') with (using_remote w).
  destruct (using_remote w).
  - unfold try_catch, client_get, remote_command.
    change (faults w') with (faults w).
    destruct (faults w) as [|[|] fs].
    + change (remote_lookup (Cache.CACHE_PREFIX ++ k) w') with
        (remote_lookup (Cache.CACHE_PREFIX ++ k) w).
      pose proof (PD (remote_lookup (Cache.CACHE_PREFIX ++ k) w) w w'
                    eq_refl eq_refl eq_refl eq_refl) as H.
      destruct (Cache.parse_if_data _ w) as [[v|x|] u];
        destruct (Cache.parse_if_data _ w') as [[v'|x'|] u']; exact H.
    + now apply RM.
    + change (remote_lookup (Cache.CACHE_PREFIX ++ k) (set_faults fs w')) with
        (remote_lookup (Cache.CACHE_PREFIX ++ k) (set_faults fs w)).
      pose proof (PD (remote_lookup (Cache.CACHE_PREFIX ++ k) (set_faults fs w))
                    (set_faults fs w) (set_faults fs w')
                    eq_refl eq_refl eq_refl eq_refl) as H.
      destruct (Cache.parse_if_data _ (set_faults fs w)) as [[v|x|] u];
        destruct (Cache.parse_if_data _ (set_faults fs w')) as [[v'|x'|] u'];
        exact H.
  - now apply RM.
Qed.

End Reaper.

(** ** Flushing *)

Section Flush.

#[local] Arguments String.append !_ _ / : simpl nomatch.

Lemma glob_star_matches_all (s : string) : glob_match "*" s = true.
Proof. induction s as [|c s IH]; [reflexivity|]. simpl in *. now rewrite IH. Qed.

Lemma glob_cache_prefix (k : string) :
  glob_match (Cache.CACHE_PREFIX ++ "*") (Cache.CACHE_PREFIX ++ k) = true.
Proof. apply (glob_star_matches_all k). Qed.

Lemma glob_cache_not_session (t : string) :
  glob_match (Cache.CACHE_PREFIX ++ "*") (Session.SESSION_PREFIX ++ t) = false.
Proof. reflexivity. Qed.

Lemma flush_run (w : World) :
  healthy w ->
  Cache.flush w =
    (Ok tt,
     set_memoryCache ∅
       (if using_remote w then set_remote (flushed_remote w) w else w)).
Proof.
  intros H. unfold Cache.flush, bind, redis_in_use.
  destruct (using_remote w) eqn:U; [|reflexivity].
  specialize (H U).
  unfold try_catch, client_keys. rewrite remote_command_healthy by exact H.
  change (beyond_asterisk (Cache.CACHE_PREFIX ++ "*")) with false. cbv iota.
  fold (remote_hits (Cache.CACHE_PREFIX ++ "*") w).
  unfold flushed_remote. rewrite <- delete_remote_hits.
  destruct (remote_hits (Cache.CACHE_PREFIX ++ "*") w) as [|k ks] eqn:E.
  - simpl. unfold delete_where. simpl. now rewrite set_remote_same.
  - change (0 <? length (k :: ks))%nat with true. cbv iota.
    unfold client_del. rewrite remote_command_healthy by exact H.
    rewrite del_keys_run; [reflexivity| |].
    + rewrite <- E. apply NoDup_remote_hits.
    + intros k' I. rewrite <- E in I.
      apply elem_of_remote_hits in I as (e & L & P).
      apply andb_true_iff in P as [P _].
      unfold remote_lookup. rewrite L, P. eauto.
Qed.

Lemma client_del_never_unmodelled (ks : list string) (w : World) :
  exists r w', client_del ks w = (r, w') /\ r <> Unmodelled.
Proof.
  unfold client_del, remote_command.
  destruct (faults w) as [|[|] fs].
  - destruct (del_keys ks w) as [n w']. now eexists _, _.
  - now eexists _, _.
  - destruct (del_keys ks (set_faults fs w)) as [n w']. now eexists _, _.
Qed.

Lemma flush_remote_part (w : World) :
  exists w',
    try_catch
      (do keys <- client_keys (Cache.CACHE_PREFIX ++ "*") ;;
       if (0 <? length keys)%nat then (perform client_del keys ;; ret tt)
       else ret tt)
      (fun _ => ret tt) w = (Ok tt, w').
Proof.
  assert (K : forall (ks : list string) (u : World),
             exists u',
               match
                 (if (0 <? length ks)%nat
                  then (perform client_del ks ;; ret tt) else ret tt) u
               with
               | (Throw e, x) => ret tt x
               | r => r
               end = (Ok tt, u')).
  { intros ks u. destruct (0 <? length ks)%nat; [|now eexists].
    unfold bind.
    destruct (client_del_never_unmodelled ks u) as (r & u' & -> & N).
    destruct r as [n|e|]; [now eexists|now eexists|now destruct N]. }
  unfold try_catch, bind at 1, client_keys, remote_command.
  change (beyond_asterisk (Cache.CACHE_PREFIX ++ "*")) with false. cbv iota.
  destruct (faults w) as [|[|] fs].
  - apply K.
  - now eexists.
  - apply K.
Qed.

(** X15.  [flush] never throws and always leaves the fallback map empty,
    whatever the remote store does. *)
Theorem flush_always_empties_fallback (w : World) :
  (Cache.flush w).1 = Ok tt /\ memoryCache (Cache.flush w).2 = ∅.
Proof.
  assert (E : exists w', Cache.flush w = (Ok tt, set_memoryCache ∅ w')).
  { unfold Cache.flush. unfold bind at 1. unfold redis_in_use.
    destruct (using_remote w).
    - unfold bind at 1. destruct (flush_remote_part w) as [w' ->].
      now eexists.
    - now eexists. }
  destruct E as [w' ->]. now split.
Qed.

(** X16.  After [flush] every [get] returns [null], on both backends. *)
Theorem flush_then_get_absent (k : string) (w : World) :
  healthy w ->
  (Cache.get k (Cache.flush w).2).1 = Ok JNull.
Proof.
  intros H. rewrite flush_run by exact H.
  destruct (using_remote w) eqn:U.
  - rewrite get_on_remote by (try exact U; now apply H).
    unfold remote_lookup. simpl remote. simpl now.
    destruct (flushed_remote w !! (Cache.CACHE_PREFIX ++ k)) as [e|] eqn:L;
      [|reflexivity].
    apply map_lookup_filter_Some in L as [L P]. cbn [fst snd] in P.
    rewrite glob_cache_prefix, andb_true_r in P.
    unfold visible in *. cbn [fst snd] in *. now rewrite P.
  - rewrite get_on_fallback by exact U.
    now rewrite read_memory_missing by apply lookup_empty.
Qed.

Lemma flush_then_get_absent_witness :
  let w := (Cache.set "a" (JNum 1) None (world_at online 1000)).2 in
  (Cache.get "a" (Cache.flush w).2).1 = Ok JNull.
Proof.
  intros w. apply (flush_then_get_absent "a" w). intros _. reflexivity.
Defined.

Lemma flushed_remote_session (t : string) (w : World) :
  flushed_remote w !! (Session.SESSION_PREFIX ++ t) =
    remote w !! (Session.SESSION_PREFIX ++ t).
Proof.
  destruct (remote w !! (Session.SESSION_PREFIX ++ t)) as [e|] eqn:L.
  - apply map_lookup_filter_Some. split; [exact L|]. cbn [fst snd].
    rewrite glob_cache_not_session. apply andb_false_r.
  - apply map_lookup_filter_None. now left.
Qed.

(** X17.  [flush] clears the cache only: a session is validated after it as it
    was before, on both backends. *)
Theorem flush_keeps_sessions (token : string) (w : World) :
  healthy w ->
  (Session.validateSession token (Cache.flush w).2).1 =
    (Session.validateSession token w).1.
Proof.
  intros H. rewrite flush_run by exact H.
  destruct token as [|c token]; [reflexivity|].
  set (t := String c token). assert (T : t <> "") by discriminate.
  destruct (using_remote w) eqn:U.
  - specialize (H U).
    rewrite !validateSession_on_remote by assumption.
    unfold remote_lookup. simpl remote. simpl now.
    rewrite flushed_remote_session.
    set (d := match remote w !! _ with Some e => _ | None => None end).
    pose proof (parse_if_data_world d w) as W1.
    unfold Cache.parse_if_data.
    destruct d as [d|]; [|reflexivity].
    destruct (truthy_str d); [|reflexivity].
    unfold lift. destruct (JSON_parse d) as [s|e|]; try reflexivity.
    destruct (falsy s); [reflexivity|].
    destruct (Session.expired (now w) s) as [[|]|e|]; reflexivity.
  - rewrite !validateSession_on_fallback by assumption.
    simpl memorySessions.
    destruct (memorySessions w !! t) as [s|]; [|reflexivity].
    destruct (falsy s); [reflexivity|]. simpl now.
    destruct (Session.expired (now w) s) as [[|]|e|]; reflexivity.
Qed.

Lemma flush_keeps_sessions_witness :
  let w := (Session.createSession None (world_at online 1000)).2 in
  (Session.validateSession (token_of (world_at online 1000)) (Cache.flush w).2).1 =
    (Session.validateSession (token_of (world_at online 1000)) w).1.
Proof.
  intros w. apply (flush_keeps_sessions _ w). intros _. reflexivity.
Defined.

End Flush.

(** ** The response cache *)

Section Middleware.

(** X18.  The middleware and the wrapper it installs never throw: a cache that
    cannot be read or written does not abort the request. *)
Theorem cacheMiddleware_never_throws (keyPrefix cacheKey : string)
    (ttl : option Z) (req : Cache.Request) (data : json) (w : World)
    (e : error) :
  (Cache.cacheMiddleware keyPrefix ttl req w).1 <> Throw e /\
  (Cache.wrapped_json cacheKey ttl data w).1 = Ok (Cache.Responded "MISS" data).
Proof.
  split.
  - unfold Cache.cacheMiddleware.
    destruct (negb (String.eqb (Cache.method req) "GET")); [discriminate|].
    unfold bind at 1. unfold try_catch. unfold bind at 1.
    destruct (Cache.get _ w) as [[v|x|] w']; simpl.
    + destruct (falsy v); discriminate.
    + discriminate.
    + discriminate.
  - unfold Cache.wrapped_json, bind, try_catch.
    pose proof (set_returns_true cacheKey data
                  (Some (default Cache.DEFAULT_TTL ttl)) w) as S.
    destruct (Cache.set _ _ _ w) as [r w']. simpl in S. now rewrite S.
Qed.

(** A request that is not a GET is passed on without any access to the
    cache. *)
Lemma cacheMiddleware_other_methods (keyPrefix : string) (ttl : option Z)
    (req : Cache.Request) (w : World) :
  Cache.method req <> "GET" ->
  Cache.cacheMiddleware keyPrefix ttl req w = (Ok Cache.Next, w).
Proof.
  intros N. unfold Cache.cacheMiddleware.
  destruct (String.eqb_spec (Cache.method req) "GET"); [contradiction|].
  reflexivity.
Qed.




End Middleware.

(** ** Statistics *)

Section Stats.

(** X20.  [getStats] always returns a report and changes no stored entry: the
    backend named is the one the operations use, the size is that of the
    fallback map, and the count of remote keys is present exactly when the
    remote store is in use (0 when the [KEYS] command fails). *)
Theorem getStats_only_reads (w : World) :
  exists (s : Cache.Stats) (w' : World),
    Cache.getStats w = (Ok s, w') /\
    memoryCache w' = memoryCache w /\ remote w' = remote w /\
    memorySessions w' = memorySessions w /\
    Cache.backend s = (if using_remote w then "redis" else "memory") /\
    Cache.memorySize s = size (memoryCache w) /\
    (Cache.redisKeys s = None <-> using_remote w = false) /\
    (forall fs, using_remote w = true -> faults w = true :: fs ->
                Cache.redisKeys s = Some 0%nat).
Proof.
  assert (B : RedisClient.isRedisAvailable (conn w) = using_remote w).
  { unfold using_remote, RedisClient.isRedisAvailable,
      RedisClient.getRedisClient.
    destruct (RedisClient.isRedisConnected (conn w)); [|reflexivity].
    now destruct (bool_decide _). }
  unfold Cache.getStats, bind, redis_in_use, try_catch, client_keys,
    remote_command. rewrite B.
  destruct (using_remote w) eqn:U.
  - destruct (faults w) as [|[|] fs] eqn:F; simpl;
      eexists _, _; (split; [reflexivity|]); simpl;
      repeat split; try discriminate; try reflexivity;
      intros; congruence.
  - simpl. eexists _, _. split; [reflexivity|]. simpl.
    repeat split; try reflexivity; intros; congruence.
Qed.

End Stats.

(** ** The session store *)

Section SessionStore.

#[local] Arguments String.append !_ _ / : simpl nomatch.

(** What [validateSession] returns depends on the clock, the backend in use
    and the entry of its token only (the remote commands answering). *)
Lemma validateSession_depends (token : string) (w w' : World) :
  healthy w -> healthy w' ->
  now w = now w' -> using_remote w = using_remote w' ->
  remote w !! (Session.SESSION_PREFIX ++ token) =
    remote w' !! (Session.SESSION_PREFIX ++ token) ->
  memorySessions w !! token = memorySessions w' !! token ->
  (Session.validateSession token w).1 = (Session.validateSession token w').1.
Proof.
  intros H H' N U R M.
  destruct token as [|c token]; [reflexivity|].
  set (t := String c token) in *. assert (T : t <> "") by discriminate.
  destruct (using_remote w') eqn:U'.
  - specialize (H U). specialize (H' U').
    rewrite !validateSession_on_remote by assumption.
    unfold remote_lookup. rewrite R, N.
    set (d := match remote w' !! _ with Some e => _ | None => None end).
    unfold Cache.parse_if_data.
    destruct d as [d|]; [|reflexivity].
    destruct (truthy_str d); [|reflexivity].
    unfold lift. destruct (JSON_parse d) as [s|e|]; try reflexivity.
    destruct (falsy s); [reflexivity|].
    destruct (Session.expired (now w') s) as [[|]|e|]; reflexivity.
  - rewrite !validateSession_on_fallback by assumption.
    rewrite M, N.
    destruct (memorySessions w' !! t) as [s|]; [|reflexivity].
    destruct (falsy s); [reflexivity|].
    destruct (Session.expired (now w') s) as [[|]|e|]; reflexivity.
Qed.

Lemma createSession_world (userId : option string) (w : World) :
  healthy w ->
  let w1 := (Session.createSession userId w).2 in
  now w1 = now w /\ using_remote w1 = using_remote w /\ faults w1 = faults w /\
  conn w1 = conn w /\ memoryCache w1 = memoryCache w /\
  (forall k, k <> Session.SESSION_PREFIX ++ token_of w ->
             remote w1 !! k = remote w !! k) /\
  (forall t, t <> token_of w ->
             memorySessions w1 !! t = memorySessions w !! t).
Proof.
  intros H. rewrite createSession_run by exact H. cbn [snd].
  destruct (using_remote w) eqn:U; repeat split;
    try (intros; reflexivity); try exact U.
  - intros k K. simpl. now rewrite lookup_insert_ne.
  - intros t K. simpl. now rewrite lookup_insert_ne.
Qed.

(** X21.  Creating a session leaves every other session as it was: a token other
    than the new one is validated after the call as before it. *)
Theorem createSession_keeps_other_sessions (userId : option string)
    (token : string) (w : World) :
  healthy w ->
  token <> token_of w ->
  (Session.validateSession token (Session.createSession userId w).2).1 =
    (Session.validateSession token w).1.
Proof.
  intros H T.
  destruct (createSession_world userId w H) as (N & U & F & _ & _ & R & M).
  apply validateSession_depends; auto.
  - intros X. rewrite F. apply H. now rewrite <- U.
  - apply R. intros E. apply append_inj_l in E. contradiction.
Qed.

Lemma createSession_keeps_other_sessions_witness :
  let w0 := world_at online 1000 in
  let w := (Session.createSession (Some "alice") w0).2 in
  (Session.validateSession (token_of w0)
     (Session.createSession (Some "bob") w).2).1 =
    (Session.validateSession (token_of w0) w).1.
Proof.
  intros w0 w.
  apply (createSession_keeps_other_sessions (Some "bob") (token_of w0) w).
  - intros _. reflexivity.
  - vm_compute. discriminate.
Defined.

(** X22.  A session is valid for ten days: [validateSession] returns the record
    of a session up to and including the 864 000 000th millisecond after
    its creation, and [null] from the next millisecond on. *)
Theorem session_expires_after_ten_days (userId : option string) (dt : Z)
    (w : World) :
  healthy w ->
  0 <= dt ->
  let w1 := (Session.createSession userId w).2 in
  (Session.validateSession (token_of w) (advance dt w1)).1 =
    Ok (if dt <=? 864000000
        then Session.session_record (default "admin" userId) (now w)
               (now w + 864000000)
        else JNull).
Proof.
  intros H D. cbv zeta. rewrite createSession_run by exact H. cbn [snd].
  change Session.SESSION_DURATION with 864000000.
  set (session := Session.session_record (default "admin" userId) (now w)
                    (now w + 864000000)).
  assert (X : Session.expired (now w + dt) session =
              Ok (negb (dt <=? 864000000))).
  { unfold Session.expired, session. simpl. f_equal.
    destruct (Z.ltb_spec (now w + 864000000) (now w + dt));
      destruct (Z.leb_spec dt 864000000); simpl; (reflexivity || lia). }
  assert (Y : falsy session = false) by reflexivity.
  clearbody session.
  pose proof (token_of_nonempty w) as T.
  destruct (using_remote w) eqn:U.
  - specialize (H U).
    rewrite validateSession_on_remote by assumption.
    unfold remote_lookup.
    assert (R1 : forall u, remote (advance dt (set_remote
                   (<[Session.SESSION_PREFIX ++ token_of w :=
                        (JSON_stringify session, now w + 864000 * 1000)]>
                      (remote w)) u)) !! (Session.SESSION_PREFIX ++ token_of w) =
                 Some (JSON_stringify session, now w + 864000 * 1000))
      by (intros u; apply lookup_insert_eq).
    rewrite R1. unfold visible. cbn [fst snd].
    change (now (advance dt _)) with (now w + dt).
    destruct (Z.leb_spec dt 864000000) as [L|L].
    + destruct (Z.leb_spec (now w + dt) (now w + 864000 * 1000)); [|lia].
      rewrite parse_if_data_stringify, Y, X. reflexivity.
    + destruct (Z.leb_spec (now w + dt) (now w + 864000 * 1000)); [lia|].
      reflexivity.
  - rewrite validateSession_on_fallback by assumption.
    assert (R1 : forall u, memorySessions (advance dt (set_memorySessions
                   (<[token_of w := session]> (memorySessions w)) u))
                   !! token_of w = Some session)
      by (intros u; apply lookup_insert_eq).
    rewrite R1, Y. change (now (advance dt _)) with (now w + dt).
    rewrite X. now destruct (dt <=? 864000000).
Qed.

Lemma session_expires_after_ten_days_witness :
  let w := world_at offline 1700000000000 in
  let w1 := (Session.createSession None w).2 in
  (Session.validateSession (token_of w) (advance 864000001 w1)).1 =
    Ok (if 864000001 <=? 864000000
        then Session.session_record (default "admin" None) (now w)
               (now w + 864000000)
        else JNull).
Proof.
  intros w.
  apply (session_expires_after_ten_days None 864000001 w).
  - intros E. discriminate E.
  - lia.
Defined.

(** X23.  Sessions are not carried from one backend to the other: a session
    created while the fallback map is in use is unknown once the remote
    store has become available (no such key having been written there). *)
Theorem sessions_do_not_follow_the_backend (userId : option string)
    (c : RedisClient.state) (w : World) :
  using_remote w = false ->
  RedisClient.isRedisAvailable c = true ->
  faults w = [] ->
  remote w !! (Session.SESSION_PREFIX ++ token_of w) = None ->
  let w1 := (Session.createSession userId w).2 in
  (Session.validateSession (token_of w) w1).1 =
    Ok (Session.session_record (default "admin" userId) (now w)
          (now w + Session.SESSION_DURATION)) /\
  (Session.validateSession (token_of w) (set_conn c w1)).1 = Ok JNull.
Proof.
  intros U A F R. cbv zeta.
  rewrite createSession_run by (intros E; congruence). cbn [snd]. rewrite U.
  pose proof (token_of_nonempty w) as T.
  split.
  - rewrite validateSession_on_fallback by assumption.
    assert (R1 : forall u, memorySessions (set_memorySessions
                   (<[token_of w := Session.session_record
                        (default "admin" userId) (now w)
                        (now w + Session.SESSION_DURATION)]>
                      (memorySessions w)) u) !! token_of w =
                 Some (Session.session_record (default "admin" userId) (now w)
                         (now w + Session.SESSION_DURATION)))
      by (intros u; apply lookup_insert_eq).
    rewrite R1.
    change (falsy (Session.session_record _ _ _)) with false. cbv iota.
    unfold Session.expired. simpl.
    destruct (Z.ltb_spec (now w + Session.SESSION_DURATION) (now w)) as [L|L];
      [|reflexivity].
    unfold Session.SESSION_DURATION in L. lia.
  - assert (U1 : forall u, using_remote (set_conn c u) = true).
    { intros u. unfold using_remote. simpl.
      unfold RedisClient.isRedisAvailable in A |- *.
      apply andb_true_iff in A as [A1 A2].
      unfold RedisClient.getRedisClient. now rewrite A1, A2. }
    rewrite validateSession_on_remote; [|apply U1|exact F|exact T].
    unfold remote_lookup. simpl remote. now rewrite R.
Qed.

Lemma sessions_do_not_follow_the_backend_witness :
  let w := world_at offline 1000 in
  let w1 := (Session.createSession (Some "alice") w).2 in
  (Session.validateSession (token_of w) w1).1 =
    Ok (Session.session_record "alice" 1000 (1000 + Session.SESSION_DURATION)) /\
  (Session.validateSession (token_of w) (set_conn online w1)).1 = Ok JNull.
Proof.
  intros w.
  apply (sessions_do_not_follow_the_backend (Some "alice") online w);
    reflexivity.
Defined.

End SessionStore.

Section SessionCount.

#[local] Arguments String.append !_ _ / : simpl nomatch.

Lemma glob_session_prefix (t : string) :
  glob_match (Session.SESSION_PREFIX ++ "*") (Session.SESSION_PREFIX ++ t) = true.
Proof. apply (glob_star_matches_all t). Qed.

Lemma filter_length_Permutation {A} (f : A -> bool) (l l' : list A) :
  l ≡ₚ l' -> length (List.filter f l) = length (List.filter f l').
Proof.
  induction 1 as [|x l l' _ IH|x y l|l l' l'' _ IH1 _ IH2]; simpl.
  - reflexivity.
  - destruct (f x); simpl; congruence.
  - destruct (f x), (f y); reflexivity.
  - congruence.
Qed.

Lemma getActiveSessionCount_run (w : World) :
  healthy w ->
  Session.getActiveSessionCount w =
    (Ok (if using_remote w
         then Z.of_nat (length (remote_hits (Session.SESSION_PREFIX ++ "*") w))
         else Z.of_nat (size (memorySessions w))), w).
Proof.
  intros H. unfold Session.getActiveSessionCount, bind, redis_in_use.
  destruct (using_remote w) eqn:U; [|reflexivity].
  unfold client_keys. rewrite remote_command_healthy by (now apply H).
  reflexivity.
Qed.

(** X24.  Creating a session raises the session count by one, and destroying it
    brings the count back, on both backends. *)
Theorem getActiveSessionCount_follows_sessions (userId : option string)
    (w : World) :
  healthy w ->
  fresh_token w ->
  let w1 := (Session.createSession userId w).2 in
  let w2 := (Session.destroySession (token_of w) w1).2 in
  exists n : Z,
    (Session.getActiveSessionCount w).1 = Ok n /\
    (Session.getActiveSessionCount w1).1 = Ok (n + 1) /\
    (Session.getActiveSessionCount w2).1 = Ok n.
Proof.
  intros H N. cbv zeta. unfold fresh_token in N.
  rewrite createSession_run by exact H. cbn [snd].
  destruct (using_remote w) eqn:U.
  - specialize (H U).
    set (key := Session.SESSION_PREFIX ++ token_of w) in *.
    set (e := (JSON_stringify _, now w + 864000 * 1000)).
    set (w1 := set_remote (<[key := e]> (remote w)) _).
    assert (H1 : healthy w1) by (intros _; exact H).
    rewrite (destroySession_run _ w1 H1).
    change (using_remote w1) with (using_remote w). rewrite U. cbn [snd].
    set (w2 := set_remote _ w1).
    assert (H2 : healthy w2) by (intros _; exact H).
    rewrite (getActiveSessionCount_run w) by (intros _; exact H).
    rewrite (getActiveSessionCount_run w1 H1).
    rewrite (getActiveSessionCount_run w2 H2).
    change (using_remote w1) with (using_remote w).
    change (using_remote w2) with (using_remote w). rewrite U. cbn [fst].
    eexists. split; [reflexivity|].
    assert (D : remote w2 = remote w).
    { unfold w2, w1. simpl. rewrite delete_insert_eq.
      now apply delete_id. }
    split.
    + f_equal. unfold remote_hits.
      change (remote w1) with (<[key := e]> (remote w)).
      change (now w1) with (now w).
      rewrite !length_map.
      pose proof (map_to_list_insert (remote w) key e N) as P.
      rewrite (filter_length_Permutation _ _ _ P).
      assert (V : visible (now w) e &&
                  glob_match (Session.SESSION_PREFIX ++ "*") key = true).
      { unfold key. rewrite glob_session_prefix. unfold visible, e.
        cbn [fst snd].
        destruct (Z.leb_spec (now w) (now w + 864000 * 1000)); [reflexivity|lia]. }
      cbn [List.filter fst snd]. rewrite V. cbn [length]. lia.
    + unfold remote_hits. now rewrite D.
  - set (s := Session.session_record _ _ _).
    set (w1 := set_memorySessions (<[token_of w := s]> (memorySessions w)) _).
    assert (H1 : healthy w1) by (intros E; unfold w1 in E; simpl in E;
                                 change (using_remote w = true) in E; congruence).
    rewrite (destroySession_run _ w1 H1).
    change (using_remote w1) with (using_remote w). rewrite U. cbn [snd].
    set (w2 := set_memorySessions _ w1).
    assert (H2 : healthy w2) by exact H1.
    rewrite (getActiveSessionCount_run w H).
    rewrite (getActiveSessionCount_run w1 H1).
    rewrite (getActiveSessionCount_run w2 H2).
    change (using_remote w1) with (using_remote w).
    change (using_remote w2) with (using_remote w). rewrite U. cbn [fst].
    eexists. split; [reflexivity|]. split.
    + f_equal. unfold w1. simpl memorySessions.
      rewrite map_size_insert_None by exact N. lia.
    + f_equal. unfold w2, w1. simpl memorySessions.
      rewrite delete_insert_eq. rewrite delete_id by exact N. reflexivity.
Qed.

Lemma getActiveSessionCount_follows_sessions_witness :
  let w := (Session.createSession None (world_at online 1000)).2 in
  let w1 := (Session.createSession (Some "alice") w).2 in
  let w2 := (Session.destroySession (token_of w) w1).2 in
  exists n : Z,
    (Session.getActiveSessionCount w).1 = Ok n /\
    (Session.getActiveSessionCount w1).1 = Ok (n + 1) /\
    (Session.getActiveSessionCount w2).1 = Ok n.
Proof.
  intros w.
  apply (getActiveSessionCount_follows_sessions (Some "alice") w).
  - intros _. reflexivity.
  - vm_compute. reflexivity.
Defined.

Lemma cleanExpiredSessions_lookup (token : string) (w : World) :
  using_remote w = false ->
  (Session.cleanExpiredSessions w).1 = Ok tt ->
  memorySessions (Session.cleanExpiredSessions w).2 !! token =
    match memorySessions w !! token with
    | Some s => if Session.is_expired (now w) s then None else Some s
    | None => None
    end /\
  forall s, memorySessions w !! token = Some s ->
            Session.comparable (now w) s = true.
Proof.
  intros U R. unfold Session.cleanExpiredSessions in *.
  destruct (RedisClient.isRedisAvailable (conn w)) eqn:A.
  - split.
    + simpl.
      destruct (memorySessions w !! token) as [s|] eqn:L; [|reflexivity].
      exfalso. unfold using_remote in U. rewrite A in U. simpl in U.
      unfold RedisClient.isRedisAvailable in A.
      apply andb_true_iff in A as [_ A].
      unfold RedisClient.getRedisClient in U. congruence.
    + intros s L. exfalso. unfold using_remote in U. rewrite A in U.
      simpl in U. unfold RedisClient.isRedisAvailable in A.
      apply andb_true_iff in A as [_ A].
      unfold RedisClient.getRedisClient in U. congruence.
  - destruct (forallb _ _) eqn:F; [|discriminate]. split.
    + simpl.
      destruct (memorySessions w !! token) as [s|] eqn:L.
      * destruct (Session.is_expired (now w) s) eqn:X.
        -- apply map_lookup_filter_None. right. intros s' L'. simpl.
           congruence.
        -- apply map_lookup_filter_Some. split; [exact L|exact X].
      * apply map_lookup_filter_None. now left.
    + intros s L. rewrite forallb_forall in F.
      apply (F (token, s)). apply list_elem_of_In.
      now apply elem_of_map_to_list.
Qed.

(** X25.  The reaper of the session store is invisible to [validateSession]: when
    it completes, a token is validated after it as it would have been
    without it. *)
Theorem cleanExpiredSessions_is_transparent (token : string) (w : World) :
  healthy w ->
  (Session.cleanExpiredSessions w).1 = Ok tt ->
  (Session.validateSession token (Session.cleanExpiredSessions w).2).1 =
    (Session.validateSession token w).1.
Proof.
  intros H R.
  destruct (using_remote w) eqn:U.
  - unfold Session.cleanExpiredSessions.
    assert (A : RedisClient.isRedisAvailable (conn w) = true).
    { unfold using_remote in U. now apply andb_true_iff in U as [A _]. }
    now rewrite A.
  - destruct token as [|c token]; [reflexivity|].
    set (t := String c token). assert (T : t <> "") by discriminate.
    destruct (cleanExpiredSessions_lookup t w U R) as [L C].
    assert (W : now (Session.cleanExpiredSessions w).2 = now w /\
                using_remote (Session.cleanExpiredSessions w).2 = false).
    { unfold Session.cleanExpiredSessions.
      destruct (RedisClient.isRedisAvailable (conn w)); [now split|].
      destruct (forallb _ _); now split. }
    destruct W as [W1 W2].
    rewrite !validateSession_on_fallback by assumption.
    rewrite L, W1.
    destruct (memorySessions w !! t) as [s|]; [|reflexivity].
    specialize (C s eq_refl).
    unfold Session.is_expired, Session.comparable in *.
    destruct (Session.expired (now w) s) as [[|]|e|] eqn:X;
      try discriminate; cbv iota.
    + now destruct (falsy s).
    + rewrite X. destruct (falsy s); reflexivity.
Qed.

Lemma cleanExpiredSessions_is_transparent_witness :
  let w0 := world_at offline 1000 in
  let w := advance 900000000 (Session.createSession None w0).2 in
  (Session.validateSession (token_of w0) (Session.cleanExpiredSessions w).2).1 =
    (Session.validateSession (token_of w0) w).1.
Proof.
  intros w0 w.
  apply (cleanExpiredSessions_is_transparent (token_of w0) w).
  - intros E. discriminate E.
  - vm_compute. reflexivity.
Defined.

End SessionCount.

(** ** The life cycle of the connection *)

Section ConnectionLifeCycle.
Import RedisClient.

Lemma stuck_step (env : Env) (p a : nat) (e : event) (st : state) :
  truthy_env (REDIS_URL env) = true ->
  stuck p a st ->
  stuck p a (step env e st).2 /\
  forall r, (step env e st).1 = Some r -> r = Follows p.
Proof.
  intros U (C & P & N & K & A).
  destruct e as [c o|q ok| | | |]; simpl.
  - unfold initRedisClient. rewrite U, C. simpl.
    split; [now repeat split|]. now intros r [= <-].
  - split; [|discriminate]. unfold ping_settles.
    destruct (promises st !! q) as [[| |]|] eqn:Q; try now repeat split.
    now apply N in Q.
  - split; [now repeat split|discriminate].
  - split; [now repeat split|discriminate].
  - split; [now repeat split|discriminate].
  - split; [|discriminate]. unfold closeRedisClient. rewrite K.
    now repeat split.
Qed.

Lemma stuck_run (env : Env) (p a : nat) (evs : list event) (st : state) :
  truthy_env (REDIS_URL env) = true ->
  stuck p a st ->
  stuck p a (run env evs st).2 /\
  forall r, r ∈ (run env evs st).1 -> r = Follows p.
Proof.
  intros U. revert st. induction evs as [|e evs IH]; intros st S; simpl.
  - split; [exact S|]. intros r H. inversion H.
  - destruct (stuck_step env p a e st U S) as [S1 R1].
    destruct (step env e st) as [r st1]. simpl in S1, R1.
    destruct (IH st1 S1) as [S2 R2].
    destruct (run env evs st1) as [rs st2]. simpl in *.
    split; [exact S2|].
    intros x Hx. destruct r as [r|]; [|now apply R2].
    apply elem_of_cons in Hx as [->|Hx]; [now apply R1|now apply R2].
Qed.

Lemma early_failure_stuck (env : Env) (config_ok open_ok : bool) (st : state) :
  truthy_env (REDIS_URL env) = true ->
  connectionPromise st = None ->
  single_flight st ->
  config_ok && open_ok = false ->
  let st1 := (initRedisClient env config_ok open_ok st).2 in
  stuck (length (promises st)) (attempts st1) st1.
Proof.
  intros U C I X. unfold initRedisClient. rewrite U, C. simpl.
  assert (N : forall q, promises st !! q <> Some Pending).
  { intros q H. specialize (I q H). congruence. }
  assert (G : forall q, (promises st ++ [Fulfilled false])%list !! q <> Some Pending).
  { intros q H.
    destruct (decide (q < length (promises st))%nat) as [L|L].
    - rewrite lookup_app_l in H by exact L. now apply N in H.
    - rewrite lookup_app_r in H by lia.
      destruct (q - length (promises st))%nat; simpl in H; discriminate. }
  assert (F : (promises st ++ [Fulfilled false])%list !! length (promises st) =
              Some (Fulfilled false)).
  { rewrite lookup_app_r by lia. now rewrite Nat.sub_diag. }
  unfold attempt_begin.
  destruct config_ok, open_ok; try discriminate; simpl; now repeat split.
Qed.

(** X26.  An attempt that throws before it reaches its probe (the configuration
    or the constructor of the client throws) is final: whatever calls and
    events follow, no further client is built, every later caller is handed
    the promise of the failed attempt and receives [false], and the store is
    never reported available. *)
Theorem early_failure_is_permanent (env : Env) (config_ok open_ok : bool)
    (later : list event) (st : state) :
  truthy_env (REDIS_URL env) = true ->
  connectionPromise st = None ->
  single_flight st ->
  config_ok && open_ok = false ->
  let st1 := (initRedisClient env config_ok open_ok st).2 in
  let '(rs, st2) := run env later st1 in
  attempts st2 = attempts st1 /\
  (forall r, r ∈ rs -> outcome r st2 = Some false) /\
  getRedisClient st2 = None /\
  isRedisAvailable st2 = false.
Proof.
  intros U C I X st1.
  pose proof (early_failure_stuck env config_ok open_ok st U C I X) as S.
  fold st1 in S.
  destruct (stuck_run env _ _ later st1 U S) as [(_ & P & _ & K & A) R].
  destruct (run env later st1) as [rs st2]. simpl in *.
  split; [exact A|]. split; [|split].
  - intros r Hr. rewrite (R r Hr). simpl. now rewrite P.
  - exact K.
  - unfold isRedisAvailable. rewrite K. apply andb_false_r.
Qed.

Lemma early_failure_is_permanent_witness :
  let st1 := (initRedisClient sample_env false true initial).2 in
  let '(rs, st2) :=
    run sample_env [Call true true; OnReady; CloseClient; Call true true] st1 in
  attempts st2 = attempts st1 /\
  (forall r, r ∈ rs -> outcome r st2 = Some false) /\
  getRedisClient st2 = None /\
  isRedisAvailable st2 = false.
Proof.
  apply (early_failure_is_permanent sample_env false true
           [Call true true; OnReady; CloseClient; Call true true] initial).
  - reflexivity.
  - reflexivity.
  - intros q H. destruct q; discriminate H.
  - reflexivity.
Defined.

(** X27.  Once the probe of an attempt has settled, the next call starts a new
    attempt, whether or not a client is connected: it builds another client,
    which replaces the current one, and hands out a new pending promise,
    while the connected flag keeps the value the settled attempt left. *)
Theorem initRedisClient_builds_a_client_per_settled_attempt (env : Env)
    (between : list event) (ping_ok : bool) (st : state) :
  truthy_env (REDIS_URL env) = true ->
  connectionPromise st = None ->
  forallb (fun e => negb (settles e)) between = true ->
  let p := length (promises st) in
  let st1 := (initRedisClient env true true st).2 in
  let st3 := ping_settles p ping_ok (run env between st1).2 in
  let '(r, st4) := initRedisClient env true true st3 in
  (exists q, r = Follows q /\ q <> p /\ in_flight q (S (S (attempts st))) st4) /\
  attempts st4 = S (S (attempts st)) /\
  getRedisClient st4 = Some (S (attempts st)) /\
  isRedisConnected st4 = ping_ok.
Proof.
  intros U C S p st1 st3.
  pose proof (initRedisClient_starts env st U C) as H.
  unfold st3, st1.
  destruct (initRedisClient env true true st) as [r0 st1'].
  destruct H as (-> & F & _). cbn [snd].
  destruct (in_flight_run env _ _ between st1' U S F) as (F2 & _ & _).
  pose proof (ping_settles_in_flight _ _ ping_ok _ F2) as (P & CP & A & N & Y).
  fold p in P, CP, A, N, Y |- *.
  set (s3 := ping_settles p ping_ok _) in *.
  assert (L : (p < length (promises s3))%nat) by (eapply lookup_lt_Some; eauto).
  assert (B : isRedisConnected s3 = ping_ok).
  { destruct ping_ok; [now apply Y|now apply N]. }
  pose proof (initRedisClient_starts env s3 U CP) as H.
  assert (E : isRedisConnected (initRedisClient env true true s3).2 =
              isRedisConnected s3).
  { unfold initRedisClient. rewrite U, CP. reflexivity. }
  destruct (initRedisClient env true true s3) as [r st4].
  destruct H as (-> & F4 & K4). cbn [snd] in E.
  rewrite A in F4, K4. split; [|split; [|split]].
  - exists (length (promises s3)). split; [reflexivity|]. split; [lia|exact F4].
  - apply F4.
  - exact K4.
  - now rewrite E.
Qed.

Lemma initRedisClient_builds_a_client_per_settled_attempt_witness :
  let p := length (promises initial) in
  let st1 := (initRedisClient sample_env true true initial).2 in
  let st3 := ping_settles p true (run sample_env [Call true true; OnReady] st1).2 in
  let '(r, st4) := initRedisClient sample_env true true st3 in
  (exists q, r = Follows q /\ q <> p /\ in_flight q (S (S (attempts initial))) st4) /\
  attempts st4 = S (S (attempts initial)) /\
  getRedisClient st4 = Some (S (attempts initial)) /\
  isRedisConnected st4 = true.
Proof.
  apply (initRedisClient_builds_a_client_per_settled_attempt sample_env
           [Call true true; OnReady] true initial); reflexivity.
Defined.

End ConnectionLifeCycle.

Section ConnectionSettings.
Import RedisClient.

(** X28.  The delay before a reconnection is [times * 200] milliseconds and never
    exceeds two seconds: the bound of 5000 of the source is never the
    smaller term, since retrying stops after the tenth attempt. *)
Theorem retryStrategy_cap_is_never_reached (times delay : Z) :
  retryStrategy times = Some delay ->
  delay = times * 200 /\ delay <= 2000.
Proof.
  unfold retryStrategy.
  destruct (Z.ltb_spec 10 times) as [L|L]; [discriminate|].
  intros [= <-]. lia.
Qed.

Lemma retryStrategy_cap_is_never_reached_witness :
  retryStrategy 10 = Some 2000 /\ 2000 = 10 * 200 /\ 2000 <= 2000.
Proof.
  split; [reflexivity|].
  apply (retryStrategy_cap_is_never_reached 10 2000). reflexivity.
Defined.

(** X29.  [getRedisInfo] reports TLS exactly when the URL scheme or the
    [REDIS_TLS] flag switches it on, whereas the client is configured with
    TLS also when only a CA file is named: in that case, and in no other,
    the report says [false] for a connection that uses TLS. *)
Theorem getRedisInfo_misses_tls_by_ca_file (env : Env)
    (readFileSync : string -> option string) (st : state) :
  (tlsEnabled (getRedisInfo env st) = true ->
   tls (buildRedisOptions env readFileSync) <> None) /\
  (tls (buildRedisOptions env readFileSync) <> None /\
   tlsEnabled (getRedisInfo env st) = false <->
   tls_by_scheme_or_flag env = false /\
   truthy_env (REDIS_TLS_CA env) = true).
Proof.
  unfold getRedisInfo, buildRedisOptions, parseTlsConfig,
    tls_by_scheme_or_flag. cbn [tlsEnabled tls].
  destruct (startsWith _ _); cbn [orb].
  - split; [discriminate|]. split; intros [H1 H2]; congruence.
  - destruct (env_is (REDIS_TLS env) "true" || env_is (REDIS_TLS env) "1");
      cbn [orb].
    + split; [discriminate|]. split; intros [H1 H2]; congruence.
    + split; [discriminate|].
      destruct (truthy_env (REDIS_TLS_CA env)).
      * split; [now intros _|]. intros _. split; [|reflexivity].
        destruct (readFileSync _); discriminate.
      * split; [now intros [H _]|]. intros [H1 H2]. congruence.
Qed.

(** X30.  A [rediss://] URL is handed to the client as a [redis://] URL together
    with a TLS configuration that has certificate verification switched
    off, whatever the other TLS variables say. *)
Theorem rediss_url_connects_without_verification (env : Env)
    (readFileSync : string -> option string) (rest : string) :
  REDIS_URL env = Some ("rediss://" ++ rest) ->
  let options := buildRedisOptions env readFileSync in
  connectionUrl ("rediss://" ++ rest) options = "redis://" ++ rest /\
  tls options = Some {| ca := None; rejectUnauthorized := false |}.
Proof.
  intros E. unfold buildRedisOptions, connectionUrl, parseTlsConfig.
  cbn [tls]. rewrite E. split; reflexivity.
Qed.

Lemma rediss_url_connects_without_verification_witness :
  let env := mkEnv (Some "rediss://cache:6380") (Some "false") (Some "/ca.pem")
               (Some "true") None None in
  let options := buildRedisOptions env (fun _ => Some "pem") in
  connectionUrl ("rediss://" ++ "cache:6380") options = "redis://" ++ "cache:6380" /\
  tls options = Some {| ca := None; rejectUnauthorized := false |}.
Proof.
  intros env.
  apply (rediss_url_connects_without_verification env (fun _ => Some "pem")
           "cache:6380").
  reflexivity.
Defined.

End ConnectionSettings.
